(** * pr_watcher: the merge orchestration engine

    A shallow embedding of [src/projects/pr_watcher.py].

    The Python functions are written as programs over a small command
    signature (every call that leaves the interpreter: [subprocess.run],
    [Path.exists], [print], the module-level [threading.Lock], the
    [processed] set of [main], [executor.submit], [time.sleep]).  The
    programs are then given two semantics that share one command
    interpreter: a sequential run of one program against an arbitrary
    outside world, and an interleaving machine in which the poller and
    every submitted worker take turns one command at a time. *)

From Stdlib Require Import ZArith Ascii String.
From stdpp Require Import base tactics option list gmap sets strings pretty.

Local Open Scope string_scope.

(** ** Python values and helpers *)

Module Py.

(** The values found in a decoded PR record.  [gh pr list --json] delivers
    an integer [number] and string [title] and [headRefName]; both shapes
    are kept for every field so that a record of the wrong shape can be
    written down. *)
Inductive value :=
| VInt (n : Z)
| VStr (s : string).

#[global] Instance value_eq_dec : EqDecision value.
Proof. solve_decision. Defined.

#[global] Instance value_countable : Countable value.
Proof.
  refine (inj_countable'
            (λ v, match v with VInt n => inl n | VStr s => inr s end)
            (λ x, match x with inl n => VInt n | inr s => VStr s end) _).
  by intros [].
Defined.

(** A decoded JSON object: a Python [dict] with string keys. *)
Abbreviation dict := (gmap string value).

(** The exceptions the modelled code can raise. *)
Inductive exn :=
| KeyError (key : string)        (* d[key] on a missing key *)
| TypeError                      (* a non-string in an argv list *)
| JSONDecodeError                (* json.loads on malformed text *)
| RuntimeError.                  (* release of an unlocked lock *)

#[global] Instance exn_eq_dec : EqDecision exn.
Proof. solve_decision. Defined.

(** [str(v)], as used by f-string interpolation. *)
Definition str (v : value) : string :=
  match v with
  | VInt n => pretty n
  | VStr s => s
  end.

(** [needle in hay] on strings: substring test. *)
Fixpoint str_in (needle hay : string) : bool :=
  if String.prefix needle hay then true
  else match hay with
       | EmptyString => false
       | String _ rest => str_in needle rest
       end.

(** Text is held as its UTF-8 bytes: a [string] here is the encoding of a
    [str] there, as in the literals of this file.  Whitespace is what
    [str.isspace] says it is: U+0009 to U+000D, U+001C to U+0020, and
    beyond ASCII U+0085, U+00A0, U+1680, U+2000 to U+200A, U+2028,
    U+2029, U+202F, U+205F and U+3000. *)

(** The whitespace of the ASCII range. *)
Definition isspace (a : ascii) : bool :=
  let n := nat_of_ascii a in
  ((9 <=? n)%nat && (n <=? 13)%nat)
  || ((28 <=? n)%nat && (n <=? 32)%nat).

(** The whitespace that takes two bytes: U+0085 and U+00A0. *)
Definition isspace2 (a b : ascii) : bool :=
  let m := nat_of_ascii a in
  let n := nat_of_ascii b in
  (m =? 194)%nat && ((n =? 133)%nat || (n =? 160)%nat).

(** The whitespace that takes three bytes: U+1680; U+2000 to U+200A,
    U+2028, U+2029 and U+202F; U+205F; U+3000. *)
Definition isspace3 (a b c : ascii) : bool :=
  let m := nat_of_ascii a in
  let n := nat_of_ascii b in
  let k := nat_of_ascii c in
  ((m =? 225)%nat && (n =? 154)%nat && (k =? 128)%nat)
  || ((m =? 226)%nat && (n =? 128)%nat
      && (((128 <=? k)%nat && (k <=? 138)%nat)
          || (k =? 168)%nat || (k =? 169)%nat || (k =? 175)%nat))
  || ((m =? 226)%nat && (n =? 129)%nat && (k =? 159)%nat)
  || ((m =? 227)%nat && (n =? 128)%nat && (k =? 128)%nat).

(** Truth value of [s.strip()]: some character is not whitespace.  The
    text is read one character at a time from the left, and the first
    one that is not whitespace decides. *)
Fixpoint strip_nonempty (s : string) : bool :=
  match s with
  | EmptyString => false
  | String a s1 =>
      if isspace a then strip_nonempty s1
      else
        match s1 with
        | EmptyString => true
        | String b s2 =>
            if isspace2 a b then strip_nonempty s2
            else
              match s2 with
              | EmptyString => true
              | String c s3 =>
                  if isspace3 a b c then strip_nonempty s3 else true
              end
        end
  end.

(** [subprocess.CompletedProcess] with captured text output. *)
Record CompletedProcess := mkCompleted {
  returncode : Z;
  stdout : string;
  stderr : string;
}.

(** *** Strict decoding *)

(** A continuation byte of UTF-8. *)
Definition continuation (a : ascii) : bool :=
  let n := nat_of_ascii a in
  (128 <=? n)%nat && (n <=? 191)%nat.

(** The second byte after a lead byte [m] of a three-byte form: no
    overlong form after [E0], no surrogate after [ED]. *)
Definition second_of_three (m : nat) (b : ascii) : bool :=
  let n := nat_of_ascii b in
  if (m =? 224)%nat then (160 <=? n)%nat && (n <=? 191)%nat
  else if (m =? 237)%nat then (128 <=? n)%nat && (n <=? 159)%nat
  else continuation b.

(** The second byte after a lead byte [m] of a four-byte form: no
    overlong form after [F0], nothing beyond U+10FFFF after [F4]. *)
Definition second_of_four (m : nat) (b : ascii) : bool :=
  let n := nat_of_ascii b in
  if (m =? 240)%nat then (144 <=? n)%nat && (n <=? 191)%nat
  else if (m =? 244)%nat then (128 <=? n)%nat && (n <=? 143)%nat
  else continuation b.

(** The bytes that [bytes.decode("utf-8")] accepts without an error
    handler: what a process may have written to a pipe that
    [subprocess.run(..., text=True, encoding="utf-8")] reads without
    raising [UnicodeDecodeError]. *)
Fixpoint utf8_valid (s : string) : bool :=
  match s with
  | EmptyString => true
  | String a s1 =>
      let m := nat_of_ascii a in
      if (m <? 128)%nat then utf8_valid s1
      else
        match s1 with
        | EmptyString => false
        | String b s2 =>
            if (194 <=? m)%nat && (m <=? 223)%nat then
              continuation b && utf8_valid s2
            else
              match s2 with
              | EmptyString => false
              | String c s3 =>
                  if (224 <=? m)%nat && (m <=? 239)%nat then
                    second_of_three m b && continuation c && utf8_valid s3
                  else
                    match s3 with
                    | EmptyString => false
                    | String d s4 =>
                        (240 <=? m)%nat && (m <=? 244)%nat
                        && second_of_four m b && continuation c
                        && continuation d && utf8_valid s4
                    end
              end
        end
  end.

(** Both outputs of a process are text. *)
Definition decodes (r : CompletedProcess) : bool :=
  utf8_valid (stdout r) && utf8_valid (stderr r).

End Py.
Export Py.

(** ** Commands and programs *)

(** Every interaction of the script with something outside the running
    function, indexed by the type of the answer. *)
Inductive cmd : Type → Type :=
| Subprocess (argv : list string) : cmd CompletedProcess
      (* subprocess.run(argv, capture_output=True, text=True, ...) *)
| PathExists (path : string) : cmd bool          (* Path(path).exists() *)
| Print (line : string) : cmd unit               (* print(line, flush=True) *)
| Acquire : cmd unit                             (* _merge_lock.__enter__ *)
| Release : cmd unit                             (* _merge_lock.__exit__ *)
| Contains (v : value) : cmd bool                (* v in processed *)
| Add (v : value) : cmd unit                     (* processed.add(v) *)
| Submit (pr : dict) : cmd unit                  (* executor.submit(auto_merge_pr, pr) *)
| Sleep (seconds : Z) : cmd unit.                (* time.sleep(seconds) *)

(** A program: a finite tree of commands ending in a return value or in
    an exception that nothing in the function catches. *)
Inductive prog (A : Type) : Type :=
| Ret (a : A)
| Raise (e : exn)
| Vis {X : Type} (c : cmd X) (k : X → prog A).

Arguments Ret {A} a.
Arguments Raise {A} e.
Arguments Vis {A X} c k.

Fixpoint bind {A B} (p : prog A) (f : A → prog B) : prog B :=
  match p with
  | Ret a => f a
  | Raise e => Raise e
  | Vis c k => Vis c (λ x, bind (k x) f)
  end.

#[global] Instance prog_ret : MRet prog := @Ret.
#[global] Instance prog_bind : MBind prog := λ A B f p, bind p f.

Definition call {X} (c : cmd X) : prog X := Vis c Ret.

(** [with _merge_lock: body].  The context manager releases the lock on
    the way out of the block, whether the block falls through, returns or
    raises. *)
Fixpoint release_after {A} (body : prog A) : prog A :=
  match body with
  | Ret a => Vis Release (λ _, Ret a)
  | Raise e => Vis Release (λ _, Raise e)
  | Vis c k => Vis c (λ x, release_after (k x))
  end.

Definition with_lock {A} (body : prog A) : prog A :=
  Vis Acquire (λ _, release_after body).

(** How a block inside a function ends: by falling through to the next
    statement or by executing [return]. *)
Inductive flow := Continue | Return.

(** [d[key]]. *)
Definition getitem (d : dict) (key : string) : prog value :=
  match d !! key with
  | Some v => Ret v
  | None => Raise (KeyError key)
  end.

Definition print (line : string) : prog unit := call (Print line).

(** ** The script *)

(** What the module computes once at import time
    ([_find_gh_executable], [_find_claude_executable], the [PROJECT_DIR]
    environment variable), and [json.loads] restricted to what
    [get_open_prs] hands on: a list of records, or [None] when decoding
    raises. *)
Class Host := {
  GH_CMD : string;
  CLAUDE_CMD : string;
  PROJECT_DIR : string;
  json_loads : string → option (list dict);
}.

Section Script.

Context `{Host}.

Definition REPO : string := "KaePen/AutoTraderV4".
Definition POLL_INTERVAL_SEC : Z := 30.
Definition MAX_PARALLEL_MERGES : nat := 3.

Definition CONFLICT_RESOLVE_PROMPT (pr_number pr_title project_dir : string)
  : string :=
  "
あなたはgitのマージコンフリクトを解決する専門エージェントです。

対象PR: #" ++ pr_number ++ " - " ++ pr_title ++ "
作業ディレクトリ: " ++ project_dir ++ "（すでにコンフリクト状態）

以下の手順で解決してください:
1. git -C " ++ project_dir ++ " diff --name-only --diff-filter=U でコンフリクトファイルを確認
2. 各ファイルの <<<<<<< HEAD ... >>>>>>> を読み取り、両方の意図を汲んで解決
3. git -C " ++ project_dir ++ " add <解決したファイル>
4. git -C " ++ project_dir ++ " merge --continue --no-edit

解決できない場合は git -C " ++ project_dir ++ " merge --abort して処理を中断し理由を説明してください。

【重要】git checkout は絶対に使わないこと。
".

(** [["git"] + args] needs every element to be a string: [subprocess.run]
    rejects anything else with a [TypeError].  A [CompletedProcess] is
    what [subprocess.run] hands back once the process has been started,
    has ended and its output has been decoded: a launch that raises
    before that (no executable, a NUL in an argument, output that is not
    UTF-8 where the decoding is strict) gives no [CompletedProcess], and
    is no answer of a [World] below. *)
Fixpoint argv_of (args : list value) : option (list string) :=
  match args with
  | [] => Some []
  | VStr s :: rest =>
      match argv_of rest with
      | Some a => Some (s :: a)
      | None => None
      end
  | VInt _ :: _ => None
  end.

Definition _git (args : list value) : prog CompletedProcess :=
  match argv_of args with
  | Some a => call (Subprocess ("git" :: a))
  | None => Raise TypeError
  end.

Definition MERGE_HEAD : string := PROJECT_DIR ++ "/.git/MERGE_HEAD".

Definition _is_merge_in_progress : prog bool :=
  call (PathExists MERGE_HEAD).

Definition claude_argv (prompt : string) : list string :=
  [CLAUDE_CMD; "-p"; prompt;
   "--allowedTools"; "Bash,Read,Edit,Write,Glob,Grep"].

Definition _resolve_conflict_with_claude (pr_number : value) (pr_title : value)
  : prog bool :=
  let prompt :=
    CONFLICT_RESOLVE_PROMPT (str pr_number) (str pr_title) PROJECT_DIR in
  print ("[INFO] PR #" ++ str pr_number
         ++ " コンフリクト検出 - Claudeに解決を委譲");;
  result ← call (Subprocess (claude_argv prompt));
  (if negb (String.eqb (stdout result) "")
   then print (stdout result) else Ret tt);;
  (if negb (String.eqb (stderr result) "")
   then print (stderr result) else Ret tt);;
  in_progress ← _is_merge_in_progress;
  let resolved := negb in_progress in
  let status := if resolved then "解決成功" else "解決失敗" in
  print ("[INFO] PR #" ++ str pr_number ++ " コンフリクト" ++ status);;
  Ret resolved.

Definition gh_argv : list string :=
  [GH_CMD; "pr"; "list"; "--repo"; REPO; "--state"; "open";
   "--base"; "main"; "--json"; "number,title,headRefName"].

Definition get_open_prs : prog (list dict) :=
  result ← call (Subprocess gh_argv);
  if negb (returncode result =? 0)%Z then
    print ("[ERROR] gh pr list 失敗: " ++ stderr result);;
    Ret []
  else
    match json_loads (stdout result) with
    | Some prs => Ret prs
    | None => Raise JSONDecodeError
    end.

(** The block under [if r.returncode != 0:] after the merge attempt of
    [auto_merge_pr]: tell a conflict from any other failure, then abort or
    hand over to the delegate.  [or] evaluates left to right and stops at
    the first true operand. *)
Definition on_merge_failure (num title : value) (r : CompletedProcess)
  : prog flow :=
  is_conflict ←
    (if str_in "CONFLICT" (stdout r) then Ret true
     else if str_in "Automatic merge failed" (stderr r) then Ret true
     else _is_merge_in_progress);
  if negb is_conflict then
    print ("[ERROR] PR #" ++ str num ++ " merge失敗: " ++ stderr r);;
    _git [VStr "merge"; VStr "--abort"];;
    Ret Return
  else
    resolved ← _resolve_conflict_with_claude num title;
    if negb resolved then
      _git [VStr "merge"; VStr "--abort"];;
      Ret Return
    else Ret Continue.

(** The body of the [with _merge_lock:] block of [auto_merge_pr]. *)
Definition integrate (num branch title : value) : prog flow :=
  r ← _git [VStr "pull"; VStr "--ff-only"; VStr "origin"; VStr "main"];
  if negb (returncode r =? 0)%Z then
    print ("[ERROR] PR #" ++ str num ++ " pull失敗: " ++ stderr r);;
    Ret Return
  else
    r ← _git [VStr "merge"; VStr "--no-ff"; VStr ("origin/" ++ str branch);
              VStr "-m";
              VStr ("Merge PR #" ++ str num ++ ": " ++ str title)];
    merged ←
      (if negb (returncode r =? 0)%Z then on_merge_failure num title r
       else Ret Continue);
    match merged with
    | Return => Ret Return
    | Continue =>
        r ← _git [VStr "push"; VStr "origin"; VStr "main"];
        if negb (returncode r =? 0)%Z then
          print ("[ERROR] PR #" ++ str num ++ " push失敗: " ++ stderr r);;
          Ret Return
        else Ret Continue
    end.

Definition auto_merge_pr (pr : dict) : prog unit :=
  num ← getitem pr "number";
  branch ← getitem pr "headRefName";
  title ← getitem pr "title";
  print ("[INFO] PR #" ++ str num ++ " 処理開始: " ++ str title);;
  (* 1. fetch *)
  r ← _git [VStr "fetch"; VStr "origin"; branch];
  if negb (returncode r =? 0)%Z then
    print ("[ERROR] PR #" ++ str num ++ " fetch失敗: " ++ stderr r)
  else
    (* 2. diff summary *)
    diff ← _git [VStr "diff"; VStr "--stat";
                 VStr ("origin/main...origin/" ++ str branch)];
    (if strip_nonempty (stdout diff) then
       print ("[INFO] PR #" ++ str num ++ " 差分:
" ++ stdout diff)
     else Ret tt);;
    (* 3. merge + push under the lock *)
    locked ← with_lock (integrate num branch title);
    match locked with
    | Return => Ret tt
    | Continue =>
        (* 4. delete the remote branch *)
        r ← _git [VStr "push"; VStr "origin"; VStr "--delete"; branch];
        (if negb (returncode r =? 0)%Z then
           print ("[WARN] PR #" ++ str num
                  ++ " リモートブランチ削除失敗: " ++ stderr r)
         else Ret tt);;
        (* 5. delete the local branch *)
        r ← _git [VStr "branch"; VStr "-D"; branch];
        (if negb (returncode r =? 0)%Z && negb (str_in "not found" (stderr r))
         then
           print ("[WARN] PR #" ++ str num
                  ++ " ローカルブランチ削除失敗: " ++ stderr r)
         else Ret tt);;
        print ("[INFO] PR #" ++ str num ++ " マージ完了: " ++ str title)
    end.

(** [[pr for pr in prs if pr["number"] not in processed]]. *)
Fixpoint select_new (prs : list dict) : prog (list dict) :=
  match prs with
  | [] => Ret []
  | pr :: rest =>
      num ← getitem pr "number";
      seen ← call (Contains num);
      new_rest ← select_new rest;
      Ret (if (seen : bool) then new_rest else pr :: new_rest)
  end.

(** [for pr in new_prs: ...] of [main]. *)
Fixpoint submit_all (new_prs : list dict) : prog unit :=
  match new_prs with
  | [] => Ret tt
  | pr :: rest =>
      num ← getitem pr "number";
      call (Add num);;
      call (Submit pr);;
      num' ← getitem pr "number";
      title ← getitem pr "title";
      print ("[INFO] PR #" ++ str num' ++ " をキューに追加: " ++ str title);;
      submit_all rest
  end.

(** One turn of the [while True:] loop. *)
Definition poll_once : prog unit :=
  prs ← get_open_prs;
  new_prs ← select_new prs;
  match new_prs return prog unit with
  | [] =>
      print ("[INFO] 未処理PRなし - " ++ pretty POLL_INTERVAL_SEC
             ++ "秒後に再確認")
  | _ => submit_all new_prs
  end;;
  call (Sleep POLL_INTERVAL_SEC).

(** The loop, cut after [cycles] turns (the source never leaves it on its
    own). *)
Fixpoint main_loop (cycles : nat) : prog unit :=
  match cycles with
  | O => Ret tt
  | S n => poll_once;; main_loop n
  end.

Definition banner : prog unit :=
  print ("[INFO] PRウォッチャー起動 (間隔: " ++ pretty POLL_INTERVAL_SEC
         ++ "秒)");;
  print ("[INFO] 対象リポジトリ: " ++ REPO);;
  print ("[INFO] 最大並行処理数: " ++ pretty MAX_PARALLEL_MERGES);;
  print ("[INFO] gh: " ++ GH_CMD);;
  print "[INFO] 停止するには Ctrl+C を押してください".

Definition main (cycles : nat) : prog unit :=
  banner;; main_loop cycles.

End Script.

(** ** Semantics *)

(** The outside world (repository, remote, file system, GitHub) is any
    type of states with an answer to every process launch and to every
    file-existence test.  Nothing is assumed about the answers. *)
Class World := {
  world : Type;
  subprocess_run : list string → world → CompletedProcess * world;
  path_exists : string → world → bool;
}.

Section Semantics.

Context `{Host} `{World}.

(** What the commands read and write: the world, the one
    [threading.Lock] of the module, and the [processed] set of [main]. *)
Record store := mkStore {
  st_world : world;
  st_locked : bool;
  st_processed : gset value;
}.

Definition set_world (w : world) (s : store) : store :=
  mkStore w (st_locked s) (st_processed s).
Definition set_locked (b : bool) (s : store) : store :=
  mkStore (st_world s) b (st_processed s).
Definition add_processed (v : value) (s : store) : store :=
  mkStore (st_world s) (st_locked s) ({[v]} ∪ st_processed s).

(** A command that was carried out, with the answer it got. *)
Inductive event :=
| ERun (argv : list string) (result : CompletedProcess)
| EExists (path : string) (answer : bool)
| EPrint (line : string)
| EAcquire
| ERelease
| EContains (v : value) (answer : bool)
| EAdd (v : value)
| ESubmit (pr : dict)
| ESleep (seconds : Z).

Definition event_of {X} (c : cmd X) : X → event :=
  match c in cmd X return X → event with
  | Subprocess argv => λ r, ERun argv r
  | PathExists path => λ b, EExists path b
  | Print line => λ _, EPrint line
  | Acquire => λ _, EAcquire
  | Release => λ _, ERelease
  | Contains v => λ b, EContains v b
  | Add v => λ _, EAdd v
  | Submit pr => λ _, ESubmit pr
  | Sleep n => λ _, ESleep n
  end.

(** The effect of one command.  [Acquire] on a held lock does not answer
    (the caller waits); [Release] on a free lock raises. *)
Inductive reply (X : Type) :=
| Answer (x : X) (s : store)
| Throw (e : exn)
| Wait.

#[global] Arguments Answer {X} x s.
#[global] Arguments Throw {X} e.
#[global] Arguments Wait {X}.

Definition exec {X} (c : cmd X) (s : store) : reply X :=
  match c in cmd X return reply X with
  | Subprocess argv =>
      let '(r, w) := subprocess_run argv (st_world s) in
      Answer r (set_world w s)
  | PathExists path => Answer (path_exists path (st_world s)) s
  | Print _ => Answer tt s
  | Acquire => if st_locked s then Wait else Answer tt (set_locked true s)
  | Release =>
      if st_locked s then Answer tt (set_locked false s)
      else Throw RuntimeError
  | Contains v => Answer (bool_decide (v ∈ st_processed s)) s
  | Add v => Answer tt (add_processed v s)
  | Submit _ => Answer tt s
  | Sleep _ => Answer tt s
  end.

(** *** One program alone *)

Inductive outcome (A : Type) :=
| Returns (a : A)
| Raises (e : exn)
| Blocked.

#[global] Arguments Returns {A} a.
#[global] Arguments Raises {A} e.
#[global] Arguments Blocked {A}.

(** The sequential run of a program: how it ends, the final store, and
    the history: the events in the order they happened, each with the
    store it left behind. *)
Fixpoint run {A} (p : prog A) (s : store)
  : outcome A * store * list (event * store) :=
  match p with
  | Ret a => (Returns a, s, [])
  | Raise e => (Raises e, s, [])
  | Vis c k =>
      match exec c s with
      | Answer x s1 =>
          let '(o, s2, h) := run (k x) s1 in (o, s2, (event_of c x, s1) :: h)
      | Throw e => (Raises e, s, [])
      | Wait => (Blocked, s, [])
      end
  end.

Definition events (h : list (event * store)) : list event := h.*1.

(** The console: what [print] wrote, in order. *)
Definition printed (evs : list event) : list string :=
  omap (λ e, match e with EPrint line => Some line | _ => None end) evs.

(** *** The poller and its workers together *)

Inductive tid :=
| Poller
| Worker (i : nat).

#[global] Instance tid_eq_dec : EqDecision tid.
Proof. solve_decision. Defined.

(** The poller, the futures of the pool in submission order (each with
    the record it was submitted for and what is left of its run; a future
    is done when that is [Ret] or [Raise]) and the trace so far.  Every
    future may take a step whenever it can, which covers every schedule of
    a pool of [MAX_PARALLEL_MERGES] threads. *)
Record machine := mkMachine {
  m_store : store;
  m_poller : prog unit;
  m_pool : list (dict * prog unit);
  m_trace : list (tid * event);
}.

(** One command of a thread: what is left of it, the new store and the
    event.  A finished or waiting thread has no step. *)
Definition advance {A} (p : prog A) (s : store)
  : option (prog A * store * list event) :=
  match p with
  | Vis c k =>
      match exec c s with
      | Answer x s1 => Some (k x, s1, [event_of c x])
      | Throw e => Some (Raise e, s, [])
      | Wait => None
      end
  | _ => None
  end.

(** [executor.submit(auto_merge_pr, pr)] queues one more future. *)
Definition spawned (evs : list event) : list (dict * prog unit) :=
  omap (λ e, match e with
             | ESubmit pr => Some (pr, auto_merge_pr pr)
             | _ => None
             end) evs.

Definition step (t : tid) (m : machine) : option machine :=
  match t with
  | Poller =>
      match advance (m_poller m) (m_store m) with
      | Some (p, s, evs) =>
          Some (mkMachine s p (m_pool m ++ spawned evs)
                          (m_trace m ++ (pair Poller <$> evs)))
      | None => None
      end
  | Worker i =>
      match m_pool m !! i with
      | Some (pr, p0) =>
          match advance p0 (m_store m) with
          | Some (p, s, evs) =>
              Some (mkMachine s (m_poller m)
                              (<[i := (pr, p)]> (m_pool m) ++ spawned evs)
                              (m_trace m ++ (pair (Worker i) <$> evs)))
          | None => None
          end
      | None => None
      end
  end.

(** A schedule names the thread that moves next; a thread that cannot
    move leaves the machine as it is. *)
Definition perform (m : machine) (t : tid) : machine :=
  default m (step t m).

Definition schedule := list tid.

Definition run_schedule (sched : schedule) (m : machine) : machine :=
  foldl perform m sched.

Definition boot (cycles : nat) (w : world) : machine :=
  mkMachine (mkStore w false ∅) (main cycles) [] [].

End Semantics.

Abbreviation history := (list (event * store)).

(** ** What the claims talk about *)

Section Observations.

Context `{Host} `{World}.

Local Open Scope list_scope.

(** The [[WARN]] lines among what was printed. *)
Definition warnings (evs : list event) : list string :=
  List.filter (String.prefix "[WARN]") (printed evs).

(** The conflict test of [auto_merge_pr] as one predicate: the merge
    output carries ["CONFLICT"], or the error output carries
    ["Automatic merge failed"], or [MERGE_HEAD] is on disk. *)
Definition conflict_signal (r : CompletedProcess) (marker : bool) : bool :=
  str_in "CONFLICT" (stdout r)
  || str_in "Automatic merge failed" (stderr r)
  || marker.

(** The launch of the conflict-resolution delegate. *)
Definition delegation (e : event) : Prop :=
  ∃ prompt r, e = ERun (claude_argv prompt) r.

(** The two steps of branch cleanup. *)
Definition remote_delete (b : string) : list string :=
  ["git"; "push"; "origin"; "--delete"; b].
Definition local_delete (b : string) : list string :=
  ["git"; "branch"; "-D"; b].

Definition branch_deletion (e : event) : Prop :=
  ∃ b r, e = ERun (remote_delete b) r ∨ e = ERun (local_delete b) r.

Definition merge_abort (e : event) : Prop :=
  ∃ r, e = ERun ["git"; "merge"; "--abort"] r.

(** What a worker does in steps 3 to 5: the fast-forward pull, the merge
    (and its abort), the look at [MERGE_HEAD], the delegate, the push of
    main. *)
Definition integration_event (e : event) : Prop :=
  (∃ args r, e = ERun ("git" :: "pull" :: args) r)
  ∨ (∃ args r, e = ERun ("git" :: "merge" :: args) r)
  ∨ (∃ r, e = ERun ["git"; "push"; "origin"; "main"] r)
  ∨ delegation e
  ∨ (∃ b, e = EExists MERGE_HEAD b).

(** A thread is inside its window after each of its [EAcquire] events
    until its next [ERelease]. *)
Definition window_step (t : tid) (inside : bool) (te : tid * event) : bool :=
  if decide (te.1 = t) then
    match te.2 with
    | EAcquire => true
    | ERelease => false
    | _ => inside
    end
  else inside.

Definition in_window (t : tid) (tr : list (tid * event)) : bool :=
  foldl (window_step t) false tr.

(** A future is done once nothing is left to run. *)
Definition finished {A} (p : prog A) : Prop :=
  match p with
  | Vis _ _ => False
  | _ => True
  end.

(** The events of one thread in a trace. *)
Definition events_of (t : tid) (tr : list (tid * event)) : list event :=
  omap (λ te, if decide (te.1 = t) then Some te.2 else None) tr.

(** The machine with the [i]-th future replaced. *)
Definition with_future (i : nat) (f : dict * prog unit) (m : machine)
  : machine :=
  mkMachine (m_store m) (m_poller m) (<[i := f]> (m_pool m)) (m_trace m).

(** [e1] happens before [e2] in a history. *)
Definition before {E} (e1 e2 : E) (h : list E) : Prop :=
  ∃ pre mid post, h = pre ++ e1 :: mid ++ e2 :: post.

End Observations.

(** ** Reasoning about programs *)

Section Logic.

Context `{Host} `{World}.

Local Open Scope list_scope.

(** Every command that a program can reach satisfies [P]. *)
Fixpoint commands {A} (P : ∀ X, cmd X → Prop) (p : prog A) : Prop :=
  match p with
  | Vis c k => P _ c ∧ ∀ x, commands P (k x)
  | _ => True
  end.

(** A command none of whose events is in [Q]. *)
Definition avoids (Q : event → Prop) : ∀ X, cmd X → Prop :=
  λ X c, ∀ x, ¬ Q (event_of c x).

(** What a command does to the lock. *)
Definition lock_effect {X} (c : cmd X) : option bool :=
  match c with
  | Acquire => Some true
  | Release => Some false
  | _ => None
  end.

Definition lock_free : ∀ X, cmd X → Prop :=
  λ X c, lock_effect c = None.

(** Neither a lock operation nor part of steps 3 to 5. *)
Definition quiet : ∀ X, cmd X → Prop :=
  λ X c, lock_effect c = None ∧ ∀ x, ¬ integration_event (event_of c x).

(** What only the poller does: the [processed] set and [submit]. *)
Definition poller_only {X} (c : cmd X) : bool :=
  match c with
  | Contains _ | Add _ | Submit _ => true
  | _ => false
  end.

Definition worker_command : ∀ X, cmd X → Prop :=
  λ X c, poller_only c = false.

(** What follows a program [p] in [p ≫= f], given how [p] ended. *)
Definition continue {A B} (f : A → prog B) (o : outcome A) (s : store)
  : outcome B * store * history :=
  match o with
  | Returns a => run (f a) s
  | Raises e => (Raises e, s, [])
  | Blocked => (Blocked, s, [])
  end.

(** Wherever the event [ev] occurs in a run of [p], the history before
    it, the store it left, the history after it and the end of the run
    satisfy [ψ]. *)
Definition locates {A} (ev : event)
    (ψ : history → store → history → outcome A → store → Prop)
    (p : prog A) : Prop :=
  ∀ s o s' h pre s_e post,
    run p s = (o, s', h) → h = pre ++ (ev, s_e) :: post →
    ψ pre s_e post o s'.

(** Lock discipline of a thread that holds the lock ([held = true]) or
    does not: it acquires only when it does not hold, releases only when
    it holds, runs steps 3 to 5 only when it holds, and does not hold
    when it ends. *)
Fixpoint disciplined {A} (held : bool) (p : prog A) : Prop :=
  match p with
  | Vis c k =>
      match lock_effect c with
      | Some true => held = false ∧ ∀ x, disciplined true (k x)
      | Some false => held = true ∧ ∀ x, disciplined false (k x)
      | None =>
          (∀ x, integration_event (event_of c x) → held = true)
          ∧ ∀ x, disciplined held (k x)
      end
  | _ => held = false
  end.

(** Every [Submit pr] is for a record whose number is in [added] or was
    the argument of an earlier [Add] of the program. *)
Fixpoint announces {A} (added : list value) (p : prog A) : Prop :=
  match p with
  | Vis c k =>
      match c in cmd X return (X → prog A) → Prop with
      | Add v => λ k, ∀ x, announces (v :: added) (k x)
      | Submit pr => λ k,
          (∃ num, pr !! "number" = Some num ∧ num ∈ added)
          ∧ ∀ x, announces added (k x)
      | _ => λ k, ∀ x, announces added (k x)
      end k
  | _ => True
  end.

(** The [processed] sets along a history never shrink. *)
Fixpoint growing (s : store) (h : history) : Prop :=
  match h with
  | [] => True
  | (_, s1) :: h' => st_processed s ⊆ st_processed s1 ∧ growing s1 h'
  end.

(** What holds in every reachable state of the machine. *)
Record invariant (m : machine) : Prop := mkInvariant {
  inv_exclusive : ∀ t1 t2,
    in_window t1 (m_trace m) = true → in_window t2 (m_trace m) = true →
    t1 = t2;
  inv_lock :
    st_locked (m_store m) = true ↔ ∃ t, in_window t (m_trace m) = true;
  inv_poller :
    disciplined (in_window Poller (m_trace m)) (m_poller m);
  inv_announces : ∃ added,
    (∀ v, v ∈ added → v ∈ st_processed (m_store m))
    ∧ announces added (m_poller m);
  inv_workers : ∀ i pr p, m_pool m !! i = Some (pr, p) →
    disciplined (in_window (Worker i) (m_trace m)) p
    ∧ commands worker_command p
    ∧ ∃ num, pr !! "number" = Some num ∧ num ∈ st_processed (m_store m);
  inv_unborn : ∀ i, (length (m_pool m) ≤ i)%nat →
    in_window (Worker i) (m_trace m) = false;
  inv_past_exclusive : ∀ tr1 tr2 t1 t2, m_trace m = tr1 ++ tr2 →
    in_window t1 tr1 = true → in_window t2 tr1 = true → t1 = t2;
  inv_past_guarded : ∀ tr1 t ev tr2, m_trace m = tr1 ++ (t, ev) :: tr2 →
    integration_event ev → in_window t tr1 = true;
}.

End Logic.

(** ** Predicates on histories *)

Section Predicates.

Context `{Host} `{World}.

Local Open Scope list_scope.

(** A history of [print]s alone. *)
Definition only_prints (h : history) : Prop :=
  Forall (λ e, ∃ line, e.1 = EPrint line) h.

(** Neither cleanup nor the undoing of a merge. *)
Definition harmless (e : event * store) : Prop :=
  ¬ (branch_deletion e.1 ∨ merge_abort e.1).

(** Not a launch of the delegate. *)
Definition undelegated (e : event * store) : Prop := ¬ delegation e.1.

(** What [_resolve_conflict_with_claude] prints of the delegate's output. *)
Definition echoed (r : CompletedProcess) : list string :=
  (if negb (stdout r =? "") then [stdout r] else [])
  ++ (if negb (stderr r =? "") then [stderr r] else []).

(** A record that the filter of [main] lets through: it has a number,
    and the number is not in the set [R]. *)
Definition unseen (R : gset value) (pr : dict) : Prop :=
  ∃ num, pr !! "number" = Some num ∧ num ∉ R.

(** The two events of the poller that the registry is about. *)
Definition is_submit (e : event * store) : Prop := ∃ pr, e.1 = ESubmit pr.

Definition is_listing (e : event * store) : Prop :=
  ∃ r, e.1 = ERun gh_argv r.

(** Each submission comes right after the [add] of its number. *)
Definition announced (h : history) : Prop :=
  ∀ pre pr s_x post, h = pre ++ (ESubmit pr, s_x) :: post →
    ∃ num pre', pr !! "number" = Some num
                ∧ pre = pre' ++ [(EAdd num, s_x)]
                ∧ num ∈ st_processed s_x.

(** Every submitted record is unseen with respect to [R]. *)
Definition submits_unseen (R : gset value) (h : history) : Prop :=
  ∀ pr s_x, (ESubmit pr, s_x) ∈ h → unseen R pr.

(** A record submitted after a listing was unseen when the listing was
    taken. *)
Definition listing_guard (h : history) : Prop :=
  ∀ pre r s_l post pr s_x,
    h = pre ++ (ERun gh_argv r, s_l) :: post →
    (ESubmit pr, s_x) ∈ post → unseen (st_processed s_l) pr.

(** What a piece of the poller's history has to satisfy. *)
Definition poller_ok (s : store) (h : history) : Prop :=
  announced h ∧ submits_unseen (st_processed s) h ∧ listing_guard h.

(** A run from a store in [Pre] is fine for the registry and, when it
    returns, ends in [Post]. *)
Definition safe {A} (Pre : store → Prop) (p : prog A)
    (Post : A → store → Prop) : Prop :=
  ∀ s o s' h, Pre s → run p s = (o, s', h) →
    poller_ok s h ∧ ∀ a, o = Returns a → Post a s'.

(** An [executor.submit]. *)
Definition submission (e : event) : Prop := ∃ pr, e = ESubmit pr.

(** The window of the thread that moves, after its event. *)
Definition window_after (held : bool) (ev : event) : bool :=
  match ev with
  | EAcquire => true
  | ERelease => false
  | _ => held
  end.

(** The registry rule: once a record has been submitted and its number
    is in [processed], no later submission of the history carries that
    number. *)
Definition never_resubmitted (h : history) : Prop :=
  ∀ pre pr1 s1 mid pr2 s2 post num,
    h = pre ++ (ESubmit pr1, s1) :: mid ++ (ESubmit pr2, s2) :: post →
    pr1 !! "number" = Some num → num ∈ st_processed s1 →
    pr2 !! "number" ≠ Some num.

(** The numbers of the records of a listing, in listing order. *)
Definition numbers (prs : list dict) : list value :=
  omap (λ pr, pr !! "number") prs.

(** Every listing that [gh pr list] delivered in [h] names each change
    once: a change has one number, and an open change is listed once. *)
Definition listings_unique (h : history) : Prop :=
  ∀ r s_r prs, (ERun gh_argv r, s_r) ∈ h → returncode r = 0%Z →
    json_loads (stdout r) = Some prs → NoDup (numbers prs).

(** What [pr["number"]] is for each submitted record, in the order of
    the submissions. *)
Definition submitted (h : history) : list (option value) :=
  omap (λ e, match e.1 with
             | ESubmit pr => Some (pr !! "number")
             | _ => None
             end) h.

(** No two submissions of [h] carry the same number, in the same turn
    of the loop or in different ones. *)
Definition submitted_once (h : history) : Prop :=
  ∀ pre pr1 s1 mid pr2 s2 post,
    h = pre ++ (ESubmit pr1, s1) :: mid ++ (ESubmit pr2, s2) :: post →
    pr1 !! "number" ≠ pr2 !! "number".

End Predicates.

(** ** Faults of a record, turns of the loop, the registry *)

Section MorePredicates.

Context `{Host} `{World}.

Local Open Scope list_scope.

(** What is wrong with a record as [auto_merge_pr] finds out: the first
    of the three subscripts that fails, in the order of the source, or a
    branch name that is not a string and so cannot stand in the argument
    list of [git fetch]. *)
Definition record_fault (pr : dict) : option exn :=
  match pr !! "number" with
  | None => Some (KeyError "number")
  | Some _ =>
      match pr !! "headRefName" with
      | None => Some (KeyError "headRefName")
      | Some branch =>
          match pr !! "title" with
          | None => Some (KeyError "title")
          | Some _ =>
              match branch with
              | VInt _ => Some TypeError
              | VStr _ => None
              end
          end
      end
  end.

(** The status line of [_resolve_conflict_with_claude]; [still] says
    whether [MERGE_HEAD] is still there. *)
Definition resolve_status (num : value) (still : bool) : string :=
  "[INFO] PR #" +:+ str num +:+ " コンフリクト"
  +:+ (if negb still then "解決成功" else "解決失敗").

(** [pr["number"]] and [pr["title"]] of a record that has them. *)
Definition number_of (pr : dict) : value := default (VStr "") (pr !! "number").
Definition title_of (pr : dict) : value := default (VStr "") (pr !! "title").

(** A record with the two fields that [main] reads. *)
Definition well_formed (pr : dict) : Prop :=
  is_Some (pr !! "number") ∧ is_Some (pr !! "title").

(** The test of the list comprehension of [main], against the registry
    [R]. *)
Definition unregistered (R : gset value) (pr : dict) : bool :=
  negb (bool_decide (number_of pr ∈ R)).

(** What the loop over [new_prs] does for one record. *)
Definition queued (pr : dict) : list event :=
  [EAdd (number_of pr); ESubmit pr;
   EPrint ("[INFO] PR #" +:+ str (number_of pr) +:+ " をキューに追加: "
           +:+ str (title_of pr))].

Definition idle_line : string :=
  "[INFO] 未処理PRなし - " +:+ pretty POLL_INTERVAL_SEC +:+ "秒後に再確認".

(** The events of one turn of the loop that lists [prs] against the
    registry [R] and finds [new] among them. *)
Definition cycle_events (r : CompletedProcess) (R : gset value)
    (prs new : list dict) : list event :=
  ERun gh_argv r
  :: ((λ pr, EContains (number_of pr) (bool_decide (number_of pr ∈ R)))
      <$> prs)
  ++ match new with
     | [] => [EPrint idle_line]
     | _ => new ≫= queued
     end
  ++ [ESleep POLL_INTERVAL_SEC].

(** What [main] prints before its first listing. *)
Definition banner_lines : list string :=
  ["[INFO] PRウォッチャー起動 (間隔: " +:+ pretty POLL_INTERVAL_SEC +:+ "秒)";
   "[INFO] 対象リポジトリ: " +:+ REPO;
   "[INFO] 最大並行処理数: " +:+ pretty MAX_PARALLEL_MERGES;
   "[INFO] gh: " +:+ GH_CMD;
   "[INFO] 停止するには Ctrl+C を押してください"].


End MorePredicates.

(** ** Concrete hosts and worlds *)

(** A world whose answers depend on the command line alone. *)
Definition scripted (answer : list string → CompletedProcess) (marker : bool)
  : World :=
  {| world := unit;
     subprocess_run := λ argv w, (answer argv, w);
     path_exists := λ _ _, marker |}.

Definition ok : CompletedProcess := mkCompleted 0 "" "".
Definition failed (err : string) : CompletedProcess := mkCompleted 1 "" err.

Definition pr12 : dict :=
  <["number" := VInt 12]> (<["title" := VStr "Add feature"]>
    (<["headRefName" := VStr "feature"]> ∅)).

Definition pr14 : dict :=
  <["number" := VInt 14]> (<["title" := VStr "Fix typo"]>
    (<["headRefName" := VStr "typo"]> ∅)).

(** A record without its branch name. *)
Definition pr13_no_branch : dict :=
  <["number" := VInt 13]> (<["title" := VStr "Broken"]> ∅).

(** [json.loads] on the texts that the worlds below let [gh] print. *)
Definition demo_host : Host :=
  {| GH_CMD := "gh";
     CLAUDE_CMD := "claude";
     PROJECT_DIR := "/srv/repo";
     json_loads := λ text,
       if String.eqb text "twice" then Some [pr12; pr12]
       else if String.eqb text "two" then Some [pr12; pr14]
       else if String.eqb text "broken" then Some [pr13_no_branch]
       else Some [pr12] |}.

(** Every command succeeds, except that the named one fails. *)
Definition fails_at (argv0 : list string) (err : string) (argv : list string)
  : CompletedProcess :=
  if bool_decide (argv = argv0) then failed err else ok.

(** Every command succeeds, except that the [git] subcommand [sub]
    fails. *)
Definition git_fails (sub : string) (err : string) (argv : list string)
  : CompletedProcess :=
  if bool_decide (take 2 argv = ["git"; sub]) then failed err else ok.

(** Every command succeeds; [gh pr list] prints [text]. *)
Definition gh_prints (text : string) (argv : list string)
  : CompletedProcess :=
  if bool_decide (head argv = Some "gh") then mkCompleted 0 text "" else ok.

Definition idle (W : World) (w : @world W) : @store W := mkStore w false ∅.

(** The local branch is already gone when cleanup reaches it. *)
Definition branch_gone : World :=
  scripted (fails_at (local_delete "feature")
              "error: branch 'feature' not found.") false.

(** The remote refuses to delete the branch. *)
Definition remote_refuses : World :=
  scripted (fails_at (remote_delete "feature") "remote: permission denied")
           false.

(** The push of main is rejected. *)
Definition push_rejected : World :=
  scripted (fails_at ["git"; "push"; "origin"; "main"] "! [rejected] main")
           false.

(** The merge fails for a reason other than a conflict. *)
Definition merge_refused : World :=
  scripted (git_fails "merge" "fatal: refusing to merge unrelated histories")
           false.

(** The diff fails and prints nothing on its standard output. *)
Definition diff_broken : World :=
  scripted (git_fails "diff" "fatal: bad revision") false.

(** The delegate exits with an error, and the merge is no longer in
    progress afterwards. *)
Definition delegate_fails_marker_gone : World :=
  scripted (λ _, failed "delegate crashed") false.

(** GitHub cannot be reached. *)
Definition gh_down : World :=
  scripted (λ argv, if bool_decide (head argv = Some "gh")
                    then failed "error connecting to api.github.com"
                    else ok) false.

(** What [gh pr list] prints is always the same text. *)
Definition listing (text : string) : World := scripted (gh_prints text) false.

(** The poller until it has submitted two records, then the steps of
    the two workers up to the lock. *)
Definition two_workers : schedule :=
  (replicate 13 Poller ++ replicate 4 (Worker 0)
   ++ replicate 4 (Worker 1))%list.

(** The run of one worker for change 12 in a world, from a free lock and
    an empty registry. *)
Definition worker_run (W : World) (w : @world W) :=
  @run W _ (@auto_merge_pr demo_host pr12) (idle W w).

(** The run of the poller over [cycles] turns. *)
Definition poller_run (W : World) (w : @world W) (cycles : nat) :=
  @run W _ (@main demo_host cycles) (idle W w).

(** The poller and its workers under a schedule. *)
Definition pool_run (W : World) (w : @world W) (cycles : nat)
    (sched : schedule) : @machine W :=
  @run_schedule demo_host W sched (@boot demo_host W cycles w).

(** ** More records, hosts and worlds *)

(** A record whose branch name is a number. *)
Definition pr15_int_branch : dict :=
  <["number" := VInt 15]> (<["title" := VStr "Odd"]>
    (<["headRefName" := VInt 7]> ∅)).

(** A record without its title. *)
Definition pr16_no_title : dict :=
  <["number" := VInt 16]> (<["headRefName" := VStr "untitled"]> ∅).

(** A record without its number. *)
Definition pr_no_number : dict :=
  <["title" := VStr "Nameless"]> (<["headRefName" := VStr "nameless"]> ∅).

(** A host whose [json.loads] rejects what it does not know. *)
Definition strict_host : Host :=
  {| GH_CMD := "gh";
     CLAUDE_CMD := "claude";
     PROJECT_DIR := "/srv/repo";
     json_loads := λ text,
       if String.eqb text "[]" then Some []
       else if String.eqb text "untitled"
            then Some [pr12; pr16_no_title; pr14]
       else if String.eqb text "nameless" then Some [pr12; pr_no_number]
       else None |}.

(** Every command succeeds. *)
Definition all_fine : World := scripted (λ _, ok) false.

(** The branch of the change cannot be fetched. *)
Definition fetch_fails : World :=
  scripted (git_fails "fetch" "fatal: couldn't find remote ref feature")
           false.

(** Main cannot be fast-forwarded. *)
Definition pull_fails : World :=
  scripted (git_fails "pull" "fatal: Not possible to fast-forward, aborting.")
           false.

(** The merge stops on a conflict that the delegate leaves unresolved:
    [MERGE_HEAD] stays. *)
Definition conflict_stays : World :=
  scripted (git_fails "merge" "Automatic merge failed; fix conflicts")
           true.

(** The run of one worker for the record [pr]. *)
Definition worker_run_of (W : World) (w : @world W) (pr : dict) :=
  @run W _ (@auto_merge_pr demo_host pr) (idle W w).

(** The loop of the strict host over [cycles] turns. *)
Definition strict_loop_run (W : World) (w : @world W) (cycles : nat) :=
  @run W _ (@main_loop strict_host cycles) (idle W w).

(** ** Proofs *)

Section Proofs.

Context `{Host} `{World}.

Local Open Scope list_scope.

Implicit Types (P : ∀ X, cmd X → Prop) (Q : event → Prop).
Implicit Types (s : store) (h pre post : history) (ev : event).

(** *** Sequential runs *)

Lemma run_bind {A B} (p : prog A) (f : A → prog B) s :
  run (p ≫= f) s =
    let '(o1, s1, h1) := run p s in
    let '(o2, s2, h2) := continue f o1 s1 in
    (o2, s2, h1 ++ h2).
Proof.
  revert s. induction p as [a|e|X c k IH]; intros s; cbn.
  - by destruct (run (f a) s) as [[??]?].
  - done.
  - destruct (exec c s) as [x s1| |]; cbn; try done.
    change (bind (k x) f) with (k x ≫= f). rewrite IH.
    destruct (run (k x) s1) as [[o1 s2] h1].
    by destruct (continue f o1 s2) as [[??]?].
Qed.

Lemma run_call_bind {X B} (c : cmd X) (f : X → prog B) s :
  run (call c ≫= f) s =
    match exec c s with
    | Answer x s1 =>
        let '(o, s2, h) := run (f x) s1 in (o, s2, (event_of c x, s1) :: h)
    | Throw e => (Raises e, s, [])
    | Wait => (Blocked, s, [])
    end.
Proof. reflexivity. Qed.

Lemma run_print_bind {B} line (f : unit → prog B) s :
  run (print line ≫= f) s =
    let '(o, s2, h) := run (f tt) s in (o, s2, (EPrint line, s) :: h).
Proof. reflexivity. Qed.

Lemma run_print line s : run (print line) s = (Returns tt, s, [(EPrint line, s)]).
Proof. reflexivity. Qed.

(** Commands other than the two of the lock always answer, and leave
    the lock as it is. *)
Lemma exec_lock_free {X} (c : cmd X) s :
  lock_effect c = None →
  ∃ x s1, exec c s = Answer x s1 ∧ st_locked s1 = st_locked s.
Proof.
  destruct c; cbn; try done; intros _; try by eauto.
  destruct (subprocess_run argv (st_world s)); by eauto.
Qed.

(** No command takes an identifier out of [processed]. *)
Lemma exec_processed {X} (c : cmd X) s x s1 :
  exec c s = Answer x s1 → st_processed s ⊆ st_processed s1.
Proof.
  destruct c; cbn; intros Hx; try (by simplify_eq).
  - destruct (subprocess_run argv (st_world s)). by simplify_eq.
  - destruct (st_locked s); by simplify_eq.
  - destruct (st_locked s); by simplify_eq.
  - simplify_eq. cbn. set_solver.
Qed.

Lemma exec_processed_worker {X} (c : cmd X) s x s1 :
  poller_only c = false → exec c s = Answer x s1 →
  st_processed s1 = st_processed s.
Proof.
  destruct c; cbn; intros Hc Hx; try done; try (by simplify_eq).
  - destruct (subprocess_run argv (st_world s)). by simplify_eq.
  - destruct (st_locked s); by simplify_eq.
  - destruct (st_locked s); by simplify_eq.
Qed.

(** *** Commands of a program *)

Lemma commands_mono {A} P P' (p : prog A) :
  (∀ X c, P X c → P' X c) → commands P p → commands P' p.
Proof. intros HPQ. induction p; cbn; naive_solver. Qed.

Lemma commands_bind {A B} P (p : prog A) (f : A → prog B) :
  commands P p → (∀ a, commands P (f a)) → commands P (p ≫= f).
Proof. intros Hp Hf. induction p; cbn in *; naive_solver. Qed.

Lemma commands_call {X} P (c : cmd X) : P X c → commands P (call c).
Proof. by cbn. Qed.

Lemma commands_release_after {A} P (p : prog A) :
  P _ Release → commands P p → commands P (release_after p).
Proof. intros HR. induction p; cbn; naive_solver. Qed.

Lemma commands_with_lock {A} P (p : prog A) :
  P _ Acquire → P _ Release → commands P p → commands P (with_lock p).
Proof.
  intros ???. split; [done|]. intros _. by apply commands_release_after.
Qed.

(** Every event of a run answers a command of the program. *)
Lemma commands_history {A} P (p : prog A) s o s' h :
  commands P p → run p s = (o, s', h) →
  Forall (λ e, ∃ X (c : cmd X) x, P X c ∧ e.1 = event_of c x) h.
Proof.
  revert s h. induction p as [a|e|X c k IH]; intros s h Hc Hr; cbn in *.
  - by simplify_eq.
  - by simplify_eq.
  - destruct Hc as [HP Hk].
    destruct (exec c s) as [x s1| |]; [|by simplify_eq..].
    destruct (run (k x) s1) as [[o2 s2] h2] eqn:E. simplify_eq.
    constructor; [by eauto 6|]. by eapply IH.
Qed.

Lemma avoids_history {A} Q (p : prog A) s o s' h :
  commands (avoids Q) p → run p s = (o, s', h) →
  Forall (λ e, ¬ Q e.1) h.
Proof.
  intros Hc Hr. eapply commands_history in Hr; [|done].
  eapply Forall_impl; [done|]. intros e (X & c & x & Hq & ->). apply Hq.
Qed.

(** A program without lock commands runs to its end and leaves the lock
    as it found it. *)
Lemma run_lock_free {A} (p : prog A) s o s' h :
  commands lock_free p → run p s = (o, s', h) →
  o ≠ Blocked ∧ st_locked s' = st_locked s.
Proof.
  revert s h. induction p as [a|e|X c k IH]; intros s h Hc Hr; cbn in *.
  - by simplify_eq.
  - by simplify_eq.
  - destruct Hc as [Hfree Hk].
    destruct (exec_lock_free c s Hfree) as (x & s1 & Hx & Hl).
    rewrite Hx in Hr.
    destruct (run (k x) s1) as [[o2 s2] h2] eqn:E. simplify_eq.
    destruct (IH _ _ _ (Hk x) E) as [? ?]. split; [done|congruence].
Qed.

(** [with] releases the lock after the block, however the block ends. *)
Lemma run_release_after {A} (body : prog A) s :
  commands lock_free body → st_locked s = true →
  run (release_after body) s =
    let '(o, s1, h) := run body s in
    (o, set_locked false s1, h ++ [(ERelease, set_locked false s1)]).
Proof.
  revert s. induction body as [a|e|X c k IH]; intros s Hc Hl; cbn.
  - by rewrite Hl.
  - by rewrite Hl.
  - destruct Hc as [Hfree Hk].
    destruct (exec_lock_free c s Hfree) as (x & s1 & Hx & Hl1).
    rewrite Hx. rewrite IH; [|done|congruence].
    by destruct (run (k x) s1) as [[o2 s2] h2].
Qed.

Lemma run_with_lock {A} (body : prog A) s :
  commands lock_free body →
  run (with_lock body) s =
    if st_locked s then (Blocked, s, [])
    else
      let '(o, s1, h) := run body (set_locked true s) in
      (o, set_locked false s1,
       (EAcquire, set_locked true s) :: h ++ [(ERelease, set_locked false s1)]).
Proof.
  intros Hc. cbn. destruct (st_locked s) eqn:Hl; [done|].
  rewrite run_release_after; [|done..].
  by destruct (run body (set_locked true s)) as [[o s1] h].
Qed.

(** The [processed] sets along a run never shrink. *)
Lemma run_growing {A} (p : prog A) s o s' h :
  run p s = (o, s', h) →
  growing s h ∧ st_processed s ⊆ st_processed s'
  ∧ Forall (λ e, st_processed s ⊆ st_processed e.2
                 ∧ st_processed e.2 ⊆ st_processed s') h.
Proof.
  revert s h. induction p as [a|e|X c k IH]; intros s h Hr; cbn in *.
  - by simplify_eq.
  - by simplify_eq.
  - destruct (exec c s) as [x s1| |] eqn:Hx; [|by simplify_eq..].
    destruct (run (k x) s1) as [[o2 s2] h2] eqn:E. simplify_eq.
    apply exec_processed in Hx.
    destruct (IH _ _ _ E) as (Hg & Hsub & Hall). cbn.
    split_and!; [done|done|set_solver|].
    constructor; [done|].
    eapply Forall_impl; [done|]. cbn. set_solver.
Qed.

(** *** Locating an event in a run *)

Lemma locates_absent {A} ev ψ (p : prog A) :
  commands (avoids (eq ev)) p → locates ev ψ p.
Proof.
  intros Hc s o s' h pre s_e post Hr ->.
  eapply avoids_history in Hr; [|done].
  rewrite Forall_app, Forall_cons in Hr. by destruct Hr as (_ & [] & _).
Qed.

Lemma locates_ret {A} ev ψ (a : A) : locates ev ψ (Ret a).
Proof. by apply locates_absent. Qed.

Lemma locates_raise {A} ev
    (ψ : history → store → history → outcome A → store → Prop) e :
  locates ev ψ (Raise e).
Proof. by apply locates_absent. Qed.

Lemma locates_mono {A} ev (ψ ψ' : _ → _ → _ → outcome A → _ → Prop) p :
  (∀ pre s_e post o s', ψ pre s_e post o s' → ψ' pre s_e post o s') →
  locates ev ψ p → locates ev ψ' p.
Proof. intros Hψ Hp s o s' h pre s_e post Hr Hh. eapply Hψ, Hp; eauto. Qed.

(** The event is found in [p] or in what follows it. *)
Lemma locates_bind {A B} ev ψp ψ (p : prog A) (f : A → prog B) :
  locates ev ψp p →
  (∀ pre s_e post o1 s1 o s' h2,
      ψp pre s_e post o1 s1 → continue f o1 s1 = (o, s', h2) →
      ψ pre s_e (post ++ h2) o s') →
  (∀ a s s1 h1, run p s = (Returns a, s1, h1) →
      locates ev (λ pre, ψ (h1 ++ pre)) (f a)) →
  locates ev ψ (p ≫= f).
Proof.
  intros Hp Hctx Hf s o s' h pre s_e post Hr Hh.
  rewrite run_bind in Hr.
  destruct (run p s) as [[o1 s1] h1] eqn:E1.
  destruct (continue f o1 s1) as [[o2 s2] h2] eqn:E2.
  injection Hr as -> -> <-.
  apply app_eq_inv in Hh as [(k & -> & Hk)|(k & -> & Hk)].
  - destruct k as [|e0 k]; cbn in Hk.
    + subst h2. destruct o1; cbn in E2; [|by simplify_eq..].
      rewrite app_nil_r in E1.
      pose proof (Hf _ _ _ _ E1 _ _ _ _ [] _ _ E2 eq_refl) as Hψ.
      cbn beta in Hψ. by rewrite app_nil_r in Hψ.
    + injection Hk as <- ->. eapply Hctx; [|done]. by eapply Hp.
  - subst h2. destruct o1; cbn in E2; [|by destruct k; simplify_eq..].
    by eapply (Hf _ _ _ _ E1 _ _ _ _ _ _ _ E2).
Qed.

Lemma locates_skip {A B} ev ψ (p : prog A) (f : A → prog B) :
  commands (avoids (eq ev)) p →
  (∀ a s s1 h1, run p s = (Returns a, s1, h1) →
      locates ev (λ pre, ψ (h1 ++ pre)) (f a)) →
  locates ev ψ (p ≫= f).
Proof.
  intros Hc Hf. eapply (locates_bind ev (λ _ _ _ _ _, False)); [|done..].
  by apply locates_absent.
Qed.

(** The event is this very command, or comes later. *)
Lemma locates_call {X B} ev ψ (c : cmd X) (f : X → prog B) :
  (∀ s x s1 o s' h, exec c s = Answer x s1 → event_of c x = ev →
      run (f x) s1 = (o, s', h) → ψ [] s1 h o s') →
  (∀ x s1, locates ev (λ pre, ψ ((event_of c x, s1) :: pre)) (f x)) →
  locates ev ψ (call c ≫= f).
Proof.
  intros Hhit Hrest s o s' h pre s_e post Hr Hh. rewrite run_call_bind in Hr.
  destruct (exec c s) as [x s1| |] eqn:E; [|by destruct pre; simplify_eq..].
  destruct (run (f x) s1) as [[o2 s2] h2] eqn:E2. simplify_eq.
  destruct pre as [|e0 pre]; simplify_eq/=.
  - by eapply Hhit.
  - by eapply Hrest.
Qed.

(** The event is inside a [with _merge_lock:] block. *)
Lemma locates_with_lock {A} ev ψb ψ (body : prog A) :
  commands lock_free body → ev ≠ EAcquire → ev ≠ ERelease →
  locates ev ψb body →
  (∀ s0 pre s_e post o s1,
      ψb pre s_e post o s1 → o ≠ Blocked → st_locked s1 = true →
      ψ ((EAcquire, s0) :: pre) s_e
        (post ++ [(ERelease, set_locked false s1)]) o (set_locked false s1)) →
  locates ev ψ (with_lock body).
Proof.
  intros Hc Hna Hnr Hb Hψ s o s' h pre s_e post Hr Hh.
  rewrite run_with_lock in Hr by done.
  destruct (st_locked s) eqn:Hl; [by destruct pre; simplify_eq|].
  destruct (run body (set_locked true s)) as [[o1 s1] h1] eqn:E.
  injection Hr as -> <- <-.
  destruct (run_lock_free _ _ _ _ _ Hc E) as [Hnb Hl1].
  destruct pre as [|e0 pre]; cbn in Hh; [injection Hh; congruence|].
  injection Hh as <- Hh.
  apply app_eq_inv in Hh as [(k & -> & Hk)|(k & -> & Hk)].
  - destruct k as [|e1 k]; cbn in Hk; [injection Hk; congruence|].
    injection Hk as <- ->.
    apply Hψ; [|done..]. by eapply Hb.
  - destruct k as [|e1 k]; cbn in Hk; [injection Hk; congruence|].
    by destruct k.
Qed.


(** *** Walking a program *)

Lemma run_getitem (d : dict) key s o s' h :
  run (getitem d key) s = (o, s', h) →
  s' = s ∧ h = []
  ∧ match o with
    | Returns v => d !! key = Some v
    | Raises e => d !! key = None ∧ e = KeyError key
    | Blocked => False
    end.
Proof. unfold getitem. destruct (d !! key); cbn; intros; by simplify_eq. Qed.

Ltac prog_unfold :=
  progress unfold getitem, _git, print, integrate, on_merge_failure,
    _resolve_conflict_with_claude, _is_merge_in_progress.

Ltac prog_args := progress cbn [argv_of].

Ltac destruct_scrutinee x :=
  lazymatch x with
  | match ?y with _ => _ end => destruct_scrutinee y
  | _ => destruct x eqn:?
  end.

Ltac solve_avoids :=
  let Hq := fresh "Hq" in
  intros ? Hq;
  cbv [delegation branch_deletion merge_abort integration_event
       remote_delete local_delete claude_argv gh_argv event_of] in Hq;
  repeat match type of Hq with
    | ∃ _, _ => destruct Hq as [? Hq]
    | _ ∨ _ => destruct Hq as [Hq|Hq]
    end;
  discriminate Hq.

Ltac solve_commands :=
  repeat lazymatch goal with
    | |- commands _ (Ret _) => exact I
    | |- commands _ (Raise _) => exact I
    | |- commands _ (call _) => apply commands_call
    | |- commands _ (with_lock _) => apply commands_with_lock
    | |- commands _ (_ ≫= _) => apply commands_bind; [|intros ?]
    | |- commands _ (match ?x with _ => _ end) =>
        first [prog_args | destruct_scrutinee x]
    | |- commands _ _ => first [prog_args | prog_unfold]
    | |- avoids _ _ _ => solve_avoids
    | |- lock_free _ _ => reflexivity
    | |- worker_command _ _ => reflexivity
    | |- quiet _ _ => split; [reflexivity|solve_avoids]
    end.

Ltac walk :=
  repeat lazymatch goal with
    | |- locates _ _ (Ret _) => apply locates_ret
    | |- locates _ _ (Raise _) => apply locates_raise
    | |- locates _ _ (Raise _ ≫= _) => apply locates_raise
    | |- locates _ _ (match ?x with _ => _ end) =>
        first [prog_args | destruct_scrutinee x]
    | |- locates _ _ (?p ≫= _) =>
        first
          [ apply locates_skip; [solve [solve_commands]|intros ? ? ? ? ?]
          | lazymatch p with
            | match ?x with _ => _ end =>
                first [prog_args | destruct_scrutinee x]
            | _git _ => unfold _git at 1
            end ]
    | |- locates _ _ _ => apply locates_absent; solve [solve_commands]
    end.

Lemma locates_elim {A} ev ψ (p : prog A) s o s' h pre s_e post :
  locates ev ψ p → run p s = (o, s', h) → h = pre ++ (ev, s_e) :: post →
  ψ pre s_e post o s'.
Proof. intros Hp. apply Hp. Qed.

(** Turn a goal about one occurrence of an event in a run into a
    [locates] goal about the program. *)
Tactic Notation "locate" ident(pre) ident(s_e) ident(post) ident(o)
    ident(s') :=
  let Hr := fresh "Hr" in
  let Hh := fresh "Hh" in
  intros Hr Hh;
  pattern pre, s_e, post, o, s';
  lazymatch goal with
  | |- ?ψ pre s_e post o s' =>
      refine (locates_elim _ ψ _ _ _ _ _ _ _ _ _ Hr Hh);
      clear Hr Hh
  end.

(** Membership in an explicit concatenation. *)
Ltac solve_elem :=
  repeat first
    [ apply list_elem_of_here
    | apply elem_of_app; right
    | apply list_elem_of_further ].

(** *** Branch cleanup *)

(** C9: in a worker run, what follows the forced deletion of the local
    branch is a [[WARN]] line exactly when the deletion failed and its
    error output does not contain "not found", and then the closing info
    line; a failure whose error output contains "not found" leaves no
    warning and ends like a success. *)
Theorem local_delete_not_found_silent pr s o s' h pre b r s_l post :
  run (auto_merge_pr pr) s = (o, s', h) →
  h = pre ++ (ERun (local_delete b) r, s_l) :: post →
  ∃ num title,
    pr !! "number" = Some num ∧ pr !! "title" = Some title
    ∧ o = Returns tt
    ∧ events post =
        (if negb (returncode r =? 0)%Z
            && negb (str_in "not found" (stderr r))
         then [EPrint ("[WARN] PR #" +:+ str num
                       +:+ " ローカルブランチ削除失敗: " +:+ stderr r)]
         else [])
        ++ [EPrint ("[INFO] PR #" +:+ str num +:+ " マージ完了: "
                    +:+ str title)]
    ∧ (returncode r ≠ 0%Z → str_in "not found" (stderr r) = true →
       warnings (events post) = [])
    ∧ (warnings (events post) ≠ []
       ↔ returncode r ≠ 0%Z ∧ str_in "not found" (stderr r) = false).
Proof.
  locate pre s_l post o s'.
  unfold auto_merge_pr, local_delete. walk.
  apply locates_call; [|intros; walk].
  intros st x st1 o' st' h' _ [= -> ->] Hr.
  repeat match goal with
    | Hg : run (getitem _ _) _ = _ |- _ =>
        apply run_getitem in Hg as (_ & _ & Hg)
    end.
  exists a, a1. split; [done|]. split; [done|].
  cbn in Hr.
  destruct (returncode r =? 0)%Z eqn:Hz;
    destruct (str_in "not found" (stderr r)) eqn:Hnf;
    cbn in Hr; injection Hr as <- <- <-; cbn;
    (split_and!; [done|done|done|]); split; try done; try lia;
    intros _; split; try done; lia.
Qed.

Lemma run_git_inv args argv s o s' h :
  argv_of args = Some argv →
  run (_git args) s = (o, s', h) →
  ∃ r, o = Returns r ∧ h = [(ERun ("git" :: argv) r, s')]
       ∧ subprocess_run ("git" :: argv) (st_world s)
         = (r, st_world s')
       ∧ s' = set_world (st_world s') s.
Proof.
  intros Ha. unfold _git. rewrite Ha. cbn.
  destruct (subprocess_run _ _) as [r w]. intros [= <- <- <-]. by exists r.
Qed.

(** C7: in a worker run, whatever the deletion of the remote branch
    answers, the deletion of the local branch is attempted next, with at
    most a warning line in between; the local deletion is only ever
    attempted after the remote one; after either of them the worker only
    prints (and runs the other deletion), so nothing it does afterwards
    can take back the merge. *)
Theorem cleanup_steps_independent pr s o s' h :
  run (auto_merge_pr pr) s = (o, s', h) →
  (∀ pre b r s_d post,
      h = pre ++ (ERun (remote_delete b) r, s_d) :: post →
      ∃ r2 s2 tail,
        post = (if negb (returncode r =? 0)%Z
                then [(EPrint ("[WARN] PR #"
                               +:+ str (default (VStr "") (pr !! "number"))
                               +:+ " リモートブランチ削除失敗: " +:+ stderr r),
                       s_d)]
                else [])
               ++ (ERun (local_delete b) r2, s2) :: tail
        ∧ only_prints tail ∧ o = Returns tt)
  ∧ (∀ pre b r2 s_l post,
      h = pre ++ (ERun (local_delete b) r2, s_l) :: post →
      (∃ r s_d, (ERun (remote_delete b) r, s_d) ∈ pre)
      ∧ only_prints post ∧ o = Returns tt).
Proof.
  intros Hrun. split.
  - intros pre b r s_d post. revert Hrun. locate pre s_d post o s'.
    unfold auto_merge_pr, remote_delete. walk.
    apply locates_call; [|intros; walk].
    intros st x st1 o' st' h' Hx [= -> ->] Hr.
    repeat match goal with
      | Hg : run (getitem _ _) _ = _ |- _ =>
          apply run_getitem in Hg as (_ & _ & Hg)
      end.
    match goal with Hn : pr !! "number" = Some _ |- _ => rewrite Hn end.
    cbn [default from_option id].
    rewrite run_bind in Hr.
    destruct (run (if negb _ then _ else _) st1) as [[oa sa] ha] eqn:Ea.
    assert (oa = Returns tt ∧ sa = st1 ∧
            ha = if negb (returncode r =? 0)%Z
                 then [(EPrint ("[WARN] PR #" +:+ str a
                                +:+ " リモートブランチ削除失敗: " +:+ stderr r),
                        st1)]
                 else []) as (-> & -> & ->).
    { revert Ea. destruct (negb (returncode r =? 0)%Z); cbn; intros;
        by simplify_eq. }
    cbn [continue] in Hr. rewrite run_call_bind in Hr.
    cbn [exec event_of] in Hr.
    destruct (subprocess_run _ _) as [r2 w2].
    destruct (run _ (set_world w2 st1)) as [[oc sc] hc] eqn:Ec.
    injection Hr as <- <- <-.
    exists r2, (set_world w2 st1), hc. split; [done|].
    revert Ec. cbn.
    destruct (negb (returncode r2 =? 0)%Z && _); cbn; intros; simplify_eq;
      (split; [|done]); repeat constructor; by eexists.
  - intros pre b r2 s_l post. revert Hrun. locate pre s_l post o s'.
    unfold auto_merge_pr, local_delete. walk.
    apply locates_call; [|intros; walk].
    intros st x st1 o' st' h' Hx [= -> ->] Hr.
    match goal with
    | Hd : run (_git [VStr "push"; VStr "origin"; VStr "--delete"; _]) _ = _
      |- _ => eapply run_git_inv in Hd as (r & _ & -> & _ & _); [|done]
    end.
    split; [eexists r, _; solve_elem|].
    cbn in Hr. destruct (_ && _); cbn in Hr; simplify_eq;
      (split; [|done]); repeat constructor; by eexists.
Qed.

(** *** The block under the lock *)

Lemma integrate_lock_free num branch title :
  commands lock_free (integrate num branch title).
Proof. solve_commands. Qed.

Lemma harmless_history {A} (p : prog A) s o s' h :
  commands (avoids (λ e, branch_deletion e ∨ merge_abort e)) p →
  run p s = (o, s', h) → Forall harmless h.
Proof. apply avoids_history. Qed.

(** The histories gathered while walking to an event are harmless. *)
Ltac solve_harmless :=
  repeat first
    [ assumption
    | apply Forall_nil_2
    | apply Forall_app_2
    | apply Forall_cons_2
    | match goal with
      | Hr : run ?p _ = (_, _, ?h) |- Forall harmless ?h =>
          eapply harmless_history; [|exact Hr]; solve [solve_commands]
      end
    | by (intros [Hq|Hq];
          cbv [branch_deletion merge_abort remote_delete local_delete] in Hq;
          repeat match type of Hq with
            | ∃ _, _ => destruct Hq as [? Hq]
            | _ ∨ _ => destruct Hq as [Hq|Hq]
            end; discriminate Hq) ].

(** How the block after a failed merge ends. *)
Lemma on_merge_failure_run num title r s o s' h :
  run (on_merge_failure num title r) s = (o, s', h) →
  (o = Returns Return ∨ o = Returns Continue)
  ∧ st_locked s' = st_locked s
  ∧ (conflict_signal r (path_exists MERGE_HEAD (st_world s)) = false →
       o = Returns Return
       ∧ ∃ r' w',
           h = [(EExists MERGE_HEAD false, s);
                (EPrint ("[ERROR] PR #" +:+ str num +:+ " merge失敗: "
                         +:+ stderr r), s);
                (ERun ["git"; "merge"; "--abort"] r', set_world w' s)]
           ∧ s' = set_world w' s)
  ∧ (conflict_signal r (path_exists MERGE_HEAD (st_world s)) = true →
       Exists (λ e, delegation e.1) h)
  ∧ (o = Returns Continue → Forall harmless h).
Proof.
  unfold on_merge_failure, _resolve_conflict_with_claude,
    _is_merge_in_progress, _git, conflict_signal.
  cbn [argv_of].
  set (prompt := CONFLICT_RESOLVE_PROMPT _ _ _).
  destruct (str_in "CONFLICT" (stdout r));
    [|destruct (str_in "Automatic merge failed" (stderr r));
      [|destruct (path_exists MERGE_HEAD (st_world s)) eqn:Hm]];
    cbn; rewrite ?Hm; cbn;
    try (destruct (subprocess_run (claude_argv prompt) (st_world s))
           as [rc wc]; cbn;
         destruct (negb (stdout rc =? "")); cbn;
         destruct (negb (stderr rc =? "")); cbn;
         destruct (path_exists MERGE_HEAD wc); cbn);
    try (destruct (subprocess_run ["git"; "merge"; "--abort"] _)
           as [ra wa]; cbn);
    intros [= <- <- <-]; cbn;
    (split_and!;
     [ by auto
     | done
     | try done; by (intros _; split; [done|eexists _, _])
     | try done; intros _;
       repeat first
         [ apply Exists_cons_hd; by eexists _, _
         | apply Exists_cons_tl ]
     | try done; intros _; solve_harmless ]).
Qed.

Lemma run_with_lock_inv {A} (body : prog A) s o s' h :
  commands lock_free body →
  run (with_lock body) s = (o, s', h) →
  (o = Blocked ∧ h = [] ∧ st_locked s = true)
  ∨ (∃ s1 hb,
       run body (set_locked true s) = (o, s1, hb)
       ∧ s' = set_locked false s1
       ∧ h = (EAcquire, set_locked true s) :: hb
             ++ [(ERelease, set_locked false s1)]
       ∧ st_locked s = false).
Proof.
  intros Hc. rewrite run_with_lock by done.
  destruct (st_locked s); [intros [= <- <- <-]; by left|].
  destruct (run body _) as [[o1 s1] hb]. intros [= <- <- <-].
  right. by eexists _, _.
Qed.

(** C5: in a worker run in which the push of main fails, the worker
    prints the error, releases the lock and returns: it runs no command
    afterwards, so the final store is the one the push left, with the
    lock free; neither before nor after the push does it delete a branch
    or abort the merge. *)
Theorem push_failure_keeps_merge pr s o s' h pre r s_p post :
  run (auto_merge_pr pr) s = (o, s', h) →
  h = pre ++ (ERun ["git"; "push"; "origin"; "main"] r, s_p) :: post →
  returncode r ≠ 0%Z →
  o = Returns tt
  ∧ post =
      [(EPrint ("[ERROR] PR #" +:+ str (default (VStr "") (pr !! "number"))
                +:+ " push失敗: " +:+ stderr r), s_p);
       (ERelease, set_locked false s_p)]
  ∧ s' = set_locked false s_p
  ∧ st_world s' = st_world s_p
  ∧ Forall harmless h.
Proof.
  intros Hrun Hh Hrc.
  cut (o = Returns tt
       ∧ post =
           [(EPrint ("[ERROR] PR #"
                     +:+ str (default (VStr "") (pr !! "number"))
                     +:+ " push失敗: " +:+ stderr r), s_p);
            (ERelease, set_locked false s_p)]
       ∧ s' = set_locked false s_p
       ∧ Forall harmless pre).
  { intros (-> & -> & -> & Hpre). split_and!; try done. subst h.
    solve_harmless. }
  revert Hrun Hh. locate pre s_p post o s'.
  unfold auto_merge_pr. walk.
  repeat match goal with
    | Hg : run (getitem _ _) _ = _ |- _ =>
        apply run_getitem in Hg as (_ & -> & Hg)
    end.
  match goal with Hn : pr !! "number" = Some _ |- _ => rewrite Hn end.
  cbn [default from_option id].
  eapply (locates_bind _
    (λ pre s_p post o1 s1,
       o1 = Returns Return
       ∧ post = [(EPrint ("[ERROR] PR #" +:+ str a +:+ " push失敗: "
                          +:+ stderr r), s_p);
                 (ERelease, set_locked false s_p)]
       ∧ s1 = set_locked false s_p
       ∧ Forall harmless pre)).
  - eapply (locates_with_lock _
      (λ pre s_p post o1 s1,
         o1 = Returns Return
         ∧ post = [(EPrint ("[ERROR] PR #" +:+ str a +:+ " push失敗: "
                            +:+ stderr r), s_p)]
         ∧ s1 = s_p
         ∧ Forall harmless pre));
      [apply integrate_lock_free|done|done| |].
    + unfold integrate. walk.
      apply locates_call; [|intros; walk].
      intros st x st1 o' st' h' Hx [= ->] Hr.
      apply Z.eqb_neq in Hrc. rewrite Hrc in Hr. cbn in Hr.
      injection Hr as <- <- <-. split_and!; try done.
      rewrite app_nil_r.
      match goal with
      | Hm : run (if negb ?c then on_merge_failure _ _ _ else _) _ = _ |- _ =>
          revert Hm; destruct (negb c); intros Hm;
          [apply on_merge_failure_run in Hm as (_ & _ & _ & _ & Hm);
           specialize (Hm eq_refl)
          |cbn in Hm; injection Hm as <- <-]
      end; solve_harmless.
    + intros ? ? ? ? ? ? (-> & -> & -> & Hpre) _ _.
      split_and!; try done. solve_harmless.
  - intros ? ? ? ? ? ? ? ? (-> & -> & -> & Hpre) Hc.
    cbn in Hc. injection Hc as <- <- <-. rewrite app_nil_r.
    split_and!; try done. solve_harmless.
  - intros; walk.
Qed.

Lemma undelegated_history {A} (p : prog A) s o s' h :
  commands (avoids delegation) p →
  run p s = (o, s', h) → Forall undelegated h.
Proof. apply avoids_history. Qed.

Ltac solve_undelegated :=
  repeat first
    [ assumption
    | apply Forall_nil_2
    | apply Forall_app_2
    | apply Forall_cons_2
    | match goal with
      | Hr : run ?p _ = (_, _, ?h) |- Forall undelegated ?h =>
          eapply undelegated_history; [|exact Hr]; solve [solve_commands]
      end
    | by (intros Hq; cbv [delegation claude_argv] in Hq;
          repeat match type of Hq with
            | ∃ _, _ => destruct Hq as [? Hq]
            end; discriminate Hq) ].

(** C4: in a worker run, a merge attempt that fails is followed by the
    launch of the delegate exactly when the merge output contains
    "CONFLICT", or its error output contains "Automatic merge failed", or
    [MERGE_HEAD] exists once the merge has returned.  When none of the
    three holds, the worker finds [MERGE_HEAD] absent, prints the merge
    error, runs [git merge --abort], releases the lock and returns, and
    the delegate is launched nowhere in the run. *)
Theorem merge_failure_classified pr s o s' h pre args r s_m post :
  run (auto_merge_pr pr) s = (o, s', h) →
  h = pre ++ (ERun ("git" :: "merge" :: "--no-ff" :: args) r, s_m) :: post →
  returncode r ≠ 0%Z →
  (Exists (λ e, delegation e.1) post
   ↔ conflict_signal r (path_exists MERGE_HEAD (st_world s_m)) = true)
  ∧ (conflict_signal r (path_exists MERGE_HEAD (st_world s_m)) = false →
     o = Returns tt
     ∧ (∃ r' w',
          post =
            [(EExists MERGE_HEAD false, s_m);
             (EPrint ("[ERROR] PR #"
                      +:+ str (default (VStr "") (pr !! "number"))
                      +:+ " merge失敗: " +:+ stderr r), s_m);
             (ERun ["git"; "merge"; "--abort"] r', set_world w' s_m);
             (ERelease, set_locked false (set_world w' s_m))]
          ∧ s' = set_locked false (set_world w' s_m))
     ∧ st_locked s' = false
     ∧ Forall undelegated h).
Proof.
  intros Hrun Hh Hrc.
  set (signal := conflict_signal r (path_exists MERGE_HEAD (st_world s_m))).
  cut ((signal = true → Exists (λ e, delegation e.1) post)
       ∧ (signal = false →
          o = Returns tt
          ∧ ∃ r' w',
              post =
                [(EExists MERGE_HEAD false, s_m);
                 (EPrint ("[ERROR] PR #"
                          +:+ str (default (VStr "") (pr !! "number"))
                          +:+ " merge失敗: " +:+ stderr r), s_m);
                 (ERun ["git"; "merge"; "--abort"] r', set_world w' s_m);
                 (ERelease, set_locked false (set_world w' s_m))]
              ∧ s' = set_locked false (set_world w' s_m))
       ∧ Forall undelegated pre).
  { intros (Hyes & Hno & Hpre). split.
    - split; [|done]. intros Hex. destruct signal; [done|].
      destruct Hno as (_ & r' & w' & -> & _); [done|].
      exfalso. revert Hex. rewrite !Exists_cons, Exists_nil.
      cbv [delegation claude_argv]. cbn. naive_solver.
    - intros Hsig. destruct (Hno Hsig) as (-> & r' & w' & -> & ->).
      split_and!; [done|by eexists _, _|done|]. subst h.
      solve_undelegated. }
  subst signal. revert Hrun Hh. locate pre s_m post o s'.
  unfold auto_merge_pr. walk.
  repeat match goal with
    | Hg : run (getitem _ _) _ = _ |- _ =>
        apply run_getitem in Hg as (_ & -> & Hg)
    end.
  match goal with Hn : pr !! "number" = Some _ |- _ => rewrite Hn end.
  cbn [default from_option id].
  eapply (locates_bind _
    (λ pre s_m post o1 s1,
       let signal :=
         conflict_signal r (path_exists MERGE_HEAD (st_world s_m)) in
       (signal = true → Exists (λ e, delegation e.1) post)
       ∧ (signal = false →
          o1 = Returns Return
          ∧ ∃ r' w',
              post =
                [(EExists MERGE_HEAD false, s_m);
                 (EPrint ("[ERROR] PR #" +:+ str a +:+ " merge失敗: "
                          +:+ stderr r), s_m);
                 (ERun ["git"; "merge"; "--abort"] r', set_world w' s_m);
                 (ERelease, set_locked false (set_world w' s_m))]
              ∧ s1 = set_locked false (set_world w' s_m))
       ∧ Forall undelegated pre)).
  - eapply (locates_with_lock _
      (λ pre s_m post o1 s1,
         let signal :=
           conflict_signal r (path_exists MERGE_HEAD (st_world s_m)) in
         (signal = true → Exists (λ e, delegation e.1) post)
         ∧ (signal = false →
            o1 = Returns Return
            ∧ ∃ r' w',
                post =
                  [(EExists MERGE_HEAD false, s_m);
                   (EPrint ("[ERROR] PR #" +:+ str a +:+ " merge失敗: "
                            +:+ stderr r), s_m);
                   (ERun ["git"; "merge"; "--abort"] r', set_world w' s_m)]
                ∧ s1 = set_world w' s_m)
         ∧ Forall undelegated pre));
      [apply integrate_lock_free|done|done| |].
    + unfold integrate. walk.
      apply locates_call; [|intros; walk].
      intros st x st1 o' st' h' Hx [= <- ->] Hr.
      apply Z.eqb_neq in Hrc. rewrite Hrc in Hr. cbn [negb] in Hr.
      rewrite run_bind in Hr.
      destruct (run (on_merge_failure _ _ _) st1) as [[o1 s1'] h1'] eqn:Em.
      apply on_merge_failure_run in Em as (Ho & _ & Hno & Hyes & _).
      destruct (continue _ o1 s1') as [[o2 s2'] h2'] eqn:Ec.
      injection Hr as <- <- <-. cbn zeta. split_and!.
      * intros Hsig. apply Exists_app. left. by apply Hyes.
      * intros Hsig. destruct (Hno Hsig) as (-> & r' & w' & -> & ->).
        cbn in Ec. injection Ec as <- <- <-. split; [done|].
        by eexists _, _.
      * rewrite app_nil_r. solve_undelegated.
    + intros ? ? ? ? ? ? (Hyes & Hno & Hpre) _ _. cbn zeta. split_and!.
      * intros Hsig. apply Exists_app. left. by apply Hyes.
      * intros Hsig. destruct (Hno Hsig) as (-> & r' & w' & -> & ->).
        split; [done|]. by eexists _, _.
      * solve_undelegated.
  - intros ? ? ? ? ? ? ? ? (Hyes & Hno & Hpre) Hc. cbn zeta in *.
    split_and!.
    + intros Hsig. apply Exists_app. left. by apply Hyes.
    + intros Hsig. destruct (Hno Hsig) as (-> & r' & w' & -> & ->).
      cbn in Hc. injection Hc as <- <- <-. rewrite app_nil_r.
      split; [done|]. by eexists _, _.
    + solve_undelegated.
  - intros; walk.
Qed.

(** *** The delegate *)

(** C3: whatever the delegate answers (exit status, output) and whatever
    world [w] it leaves behind, [_resolve_conflict_with_claude] looks at
    [MERGE_HEAD] in [w] right after the delegate has returned (only the
    echo of the delegate's output lies in between) and returns [True]
    exactly when [MERGE_HEAD] does not exist there. *)
Theorem resolve_judged_by_marker num title s r w :
  subprocess_run
    (claude_argv (CONFLICT_RESOLVE_PROMPT (str num) (str title) PROJECT_DIR))
    (st_world s) = (r, w) →
  ∃ o h,
    run (_resolve_conflict_with_claude num title) s = (o, set_world w s, h)
    ∧ o = Returns (negb (path_exists MERGE_HEAD w))
    ∧ (o = Returns true ↔ path_exists MERGE_HEAD w = false)
    ∧ events h =
        [EPrint ("[INFO] PR #" +:+ str num
                 +:+ " コンフリクト検出 - Claudeに解決を委譲");
         ERun (claude_argv
                 (CONFLICT_RESOLVE_PROMPT (str num) (str title) PROJECT_DIR))
              r]
        ++ (EPrint <$> echoed r)
        ++ [EExists MERGE_HEAD (path_exists MERGE_HEAD w);
            EPrint ("[INFO] PR #" +:+ str num +:+ " コンフリクト"
                    +:+ (if negb (path_exists MERGE_HEAD w)
                         then "解決成功" else "解決失敗"))].
Proof.
  intros Hrun. unfold _resolve_conflict_with_claude, _is_merge_in_progress.
  set (prompt := CONFLICT_RESOLVE_PROMPT _ _ _) in *.
  rewrite run_print_bind, run_call_bind. cbn [exec]. rewrite Hrun.
  unfold echoed.
  destruct (negb (stdout r =? "")); destruct (negb (stderr r =? ""));
    cbn; (eexists _, _; split_and!; [done|done| |done]);
    destruct (path_exists MERGE_HEAD w); cbn; split; congruence.
Qed.

(** *** The diff summary *)

Lemma run_git_bind {B} args argv (f : CompletedProcess → prog B) s :
  argv_of args = Some argv →
  run (_git args ≫= f) s =
    let '(r, w) := subprocess_run ("git" :: argv) (st_world s) in
    let '(o, s2, h) := run (f r) (set_world w s) in
    (o, s2, (ERun ("git" :: argv) r, set_world w s) :: h).
Proof.
  intros Ha. unfold _git. rewrite Ha, run_call_bind. cbn [exec].
  by destruct (subprocess_run _ _).
Qed.


(** Strict decoding: the literals of this file are text; a stray byte
    [FF] and the overlong form [C0 80] are not. *)
Example utf8_strict :
  utf8_valid "差分 →" = true
  ∧ utf8_valid (String (ascii_of_nat 255) "") = false
  ∧ utf8_valid (String (ascii_of_nat 192) (String (ascii_of_nat 128) ""))
    = false.
Proof. by split_and!. Qed.

(** Blank text: ASCII blanks, the ideographic space U+3000 and the
    no-break space U+00A0 are stripped; an arrow is not. *)
Example strip_blank :
  strip_nonempty " 　 	" = false ∧ strip_nonempty " 　→" = true.
Proof. by split. Qed.

(** C8, as the code has it: in a worker run, whatever the diff command
    answers in text that decodes, the worker reads its standard output
    and nothing else: the exit status and the error output play no part,
    so a failure of the diff leaves no line on the console.  The summary
    line is printed exactly when the output is not blank, and then the
    worker goes on to the lock: it acquires it and runs the fast-forward
    pull, or waits for it when it is held.  The run never ends at the
    diff. *)
Theorem diff_failure_tolerated pr s o s' h pre args r s_d post :
  run (auto_merge_pr pr) s = (o, s', h) →
  h = pre ++ (ERun ("git" :: "diff" :: args) r, s_d) :: post →
  decodes r = true →
  ∃ rest,
    post =
      (if strip_nonempty (stdout r)
       then [(EPrint ("[INFO] PR #"
                      +:+ str (default (VStr "") (pr !! "number"))
                      +:+ " 差分:
" +:+ stdout r), s_d)]
       else [])
      ++ rest
    ∧ if st_locked s_d then rest = [] ∧ o = Blocked
      else ∃ r_pull s_pull rest',
          rest = (EAcquire, set_locked true s_d)
                 :: (ERun ["git"; "pull"; "--ff-only"; "origin"; "main"]
                          r_pull, s_pull)
                 :: rest'.
Proof.
  intros Hrun Hh _. revert Hrun Hh. locate pre s_d post o s'.
  unfold auto_merge_pr. walk.
  repeat match goal with
    | Hg : run (getitem _ _) _ = _ |- _ =>
        apply run_getitem in Hg as (_ & -> & Hg)
    end.
  match goal with Hn : pr !! "number" = Some _ |- _ => rewrite Hn end.
  cbn [default from_option id].
  apply locates_call; [|intros; walk].
  intros st x st1 o' st' h' Hx [= <- ->] Hr.
  rewrite run_bind in Hr.
  destruct (run (if strip_nonempty _ then _ else _) st1)
    as [[oa sa] ha] eqn:Ea.
  assert (oa = Returns tt ∧ sa = st1 ∧
          ha = if strip_nonempty (stdout r)
               then [(EPrint ("[INFO] PR #" +:+ str a +:+ " 差分:
" +:+ stdout r), st1)]
               else []) as (-> & -> & ->).
  { revert Ea. destruct (strip_nonempty (stdout r)); cbn; intros;
      by simplify_eq. }
  cbn [continue] in Hr. rewrite run_bind in Hr.
  rewrite run_with_lock in Hr by apply integrate_lock_free.
  destruct (st_locked st1).
  - cbn in Hr. injection Hr as <- <- <-. exists []. by rewrite !app_nil_r.
  - unfold integrate at 1 in Hr.
    erewrite run_git_bind in Hr by reflexivity.
    destruct (subprocess_run _ (st_world (set_locked true st1)))
      as [rp wp].
    destruct (run _ (set_world wp (set_locked true st1)))
      as [[ob sb] hb].
    destruct (continue _ ob (set_locked false sb)) as [[oc sc] hc].
    injection Hr as <- <- <-.
    eexists. split; [done|]. cbn. by eexists _, _, _.
Qed.

(** *** The poller *)

Lemma run_get_open_prs s :
  run get_open_prs s =
    let '(r, w) := subprocess_run gh_argv (st_world s) in
    let s1 := set_world w s in
    if negb (returncode r =? 0)%Z then
      (Returns [], s1,
       [(ERun gh_argv r, s1);
        (EPrint ("[ERROR] gh pr list 失敗: " +:+ stderr r), s1)])
    else
      match json_loads (stdout r) with
      | Some prs => (Returns prs, s1, [(ERun gh_argv r, s1)])
      | None => (Raises JSONDecodeError, s1, [(ERun gh_argv r, s1)])
      end.
Proof.
  unfold get_open_prs. rewrite run_call_bind. cbn [exec].
  destruct (subprocess_run gh_argv (st_world s)) as [r w]. cbn.
  destruct (negb (returncode r =? 0)%Z); [done|].
  by destruct (json_loads (stdout r)).
Qed.

Lemma unseen_mono R R' pr : R' ⊆ R → unseen R pr → unseen R' pr.
Proof. intros HR (num & Hn & Hnot). exists num. set_solver. Qed.

Lemma poller_ok_quiet s h : Forall (λ e, ¬ is_submit e) h → poller_ok s h.
Proof.
  rewrite Forall_forall. intros Hq. split_and!.
  - intros pre pr s_x post ->. exfalso.
    eapply (Hq (ESubmit pr, s_x)); [solve_elem|by eexists].
  - intros pr s_x Hin. exfalso. eapply Hq; [done|by eexists].
  - intros pre r s_l post pr s_x -> Hin. exfalso.
    eapply (Hq (ESubmit pr, s_x)); [|by eexists].
    apply elem_of_app; right. by apply list_elem_of_further.
Qed.

Lemma poller_ok_app s h1 s1 h2 :
  poller_ok s h1 → poller_ok s1 h2 →
  st_processed s ⊆ st_processed s1 →
  Forall (λ e, st_processed e.2 ⊆ st_processed s1) h1 →
  poller_ok s (h1 ++ h2).
Proof.
  intros (Ha1 & Hu1 & Hg1) (Ha2 & Hu2 & Hg2) Hsub Hall.
  rewrite Forall_forall in Hall. split_and!.
  - intros pre pr s_x post Hh.
    apply app_eq_inv in Hh as [(k & -> & Hk)|(k & -> & Hk)].
    + destruct k as [|e0 k]; cbn in Hk.
      * destruct (Ha2 [] pr s_x post) as (num & pre' & _ & Hpre & _);
          [done|]. by destruct pre'.
      * injection Hk as <- ->. by eapply Ha1.
    + destruct (Ha2 _ _ _ _ Hk) as (num & pre' & ? & -> & ?).
      exists num, (h1 ++ pre'). by rewrite <-(assoc_L (++)).
  - intros pr s_x [Hin|Hin]%elem_of_app; [by eapply Hu1|].
    eapply unseen_mono; [done|]. by eapply Hu2.
  - intros pre r s_l post pr s_x Hh Hin.
    apply app_eq_inv in Hh as [(k & -> & Hk)|(k & -> & Hk)].
    + destruct k as [|e0 k]; cbn in Hk.
      * subst h2. by eapply (Hg2 []).
      * injection Hk as <- ->.
        apply elem_of_app in Hin as [Hin|Hin]; [by eapply Hg1|].
        eapply unseen_mono; [|by eapply Hu2].
        apply (Hall (ERun gh_argv r, s_l)). solve_elem.
    + by eapply Hg2.
Qed.

Lemma run_select_new prs s o s' h :
  run (select_new prs) s = (o, s', h) →
  s' = s
  ∧ Forall (λ e, ¬ is_submit e ∧ ¬ is_listing e ∧ e.2 = s) h
  ∧ match o with
    | Returns new_prs =>
        Forall (unseen (st_processed s)) new_prs ∧ sublist new_prs prs
    | _ => True
    end.
Proof.
  revert o s' h. induction prs as [|pr rest IH]; intros o s' h; cbn.
  - intros [= <- <- <-]. by split_and!.
  - unfold getitem. destruct (pr !! "number") as [num|] eqn:Hn; cbn;
      [|intros [= <- <- <-]; by split_and!].
    change (bind (select_new rest) ?f) with (select_new rest ≫= f).
    rewrite run_bind.
    destruct (run (select_new rest) s) as [[o1 s1] h1] eqn:E.
    destruct (IH _ _ _ eq_refl) as (-> & Hall & Ho).
    assert (Hc : ¬ is_submit (EContains num (bool_decide (num ∈ st_processed s)), s)
                 ∧ ¬ is_listing (EContains num (bool_decide (num ∈ st_processed s)), s)
                 ∧ (EContains num (bool_decide (num ∈ st_processed s)), s).2 = s).
    { split_and!; [intros [? [=]]|intros [? [=]]|done]. }
    destruct o1 as [new_rest| |]; cbn; intros [= <- <- <-];
      (split; [done|split; [rewrite ?app_nil_r; by constructor|]]);
      [|done..].
    destruct Ho as [Hu Hs]. case_bool_decide.
    + split; [done|]. by apply sublist_cons.
    + split; [|by apply sublist_skip]. constructor; [|done]. by exists num.
Qed.

Lemma run_submit_all R new_prs s o s' h :
  Forall (unseen R) new_prs →
  run (submit_all new_prs) s = (o, s', h) →
  announced h ∧ submits_unseen R h ∧ Forall (λ e, ¬ is_listing e) h.
Proof.
  revert s o s' h. induction new_prs as [|pr rest IH]; intros s o s' h Hnew.
  - cbn. intros [= <- <- <-]. split_and!; [|by intros ?? ?%elem_of_nil|done].
    intros pre ???. by destruct pre.
  - apply Forall_cons in Hnew as [Hpr Hrest]. cbn.
    unfold getitem. destruct Hpr as (num & Hn & Hnot). rewrite Hn. cbn.
    set (s1 := add_processed num s).
    assert (Hhead : ∀ tail,
      announced tail → submits_unseen R tail →
      Forall (λ e, ¬ is_listing e) tail →
      announced tail →
      ∀ mid, Forall (λ e, ¬ is_submit e ∧ ¬ is_listing e) mid →
      announced ((EAdd num, s1) :: (ESubmit pr, s1) :: mid ++ tail)
      ∧ submits_unseen R ((EAdd num, s1) :: (ESubmit pr, s1) :: mid ++ tail)
      ∧ Forall (λ e, ¬ is_listing e)
          ((EAdd num, s1) :: (ESubmit pr, s1) :: mid ++ tail)).
    { intros tail Ha Hu Hl _ mid Hmid. rewrite Forall_forall in Hmid.
      split_and!.
      - intros pre pr' s_x post Hh.
        destruct pre as [|e0 pre]; [by simplify_eq|]. injection Hh as <- Hh.
        destruct pre as [|e1 pre].
        { injection Hh as <- <- <-. exists num, []. split_and!; [done..|].
          subst s1. cbn. set_solver. }
        injection Hh as <- Hh.
        apply app_eq_inv in Hh as [(k & ? & Hk)|(k & -> & Hk)].
        + destruct k as [|e0 k]; cbn in Hk.
          * destruct (Ha [] pr' s_x post) as (? & pre' & _ & Hp & _);
              [done|]. by destruct pre'.
          * injection Hk as <- ->. subst mid.
            destruct (Hmid (ESubmit pr', s_x)) as [Hns _]; [solve_elem|].
            destruct Hns. by eexists.
        + destruct (Ha _ _ _ _ Hk) as (num' & pre' & ? & -> & ?).
          exists num', ((EAdd num, s1) :: (ESubmit pr, s1) :: mid ++ pre').
          split_and!; [done| |done]. cbn. by rewrite <-(assoc_L (++)).
      - intros pr' s_x Hin.
        apply elem_of_cons in Hin as [[=]|Hin].
        apply elem_of_cons in Hin as [[= -> ->]|Hin]; [by exists num|].
        apply elem_of_app in Hin as [Hin|Hin]; [|by eapply Hu].
        destruct (Hmid _ Hin) as [Hns _]. destruct Hns. by eexists.
      - constructor; [intros [? [=]]|]. constructor; [intros [? [=]]|].
        apply Forall_app. split; [|done].
        apply Forall_forall. intros e He. by destruct (Hmid _ He). }
    assert (Hnil : announced [] ∧ submits_unseen R []
                   ∧ Forall (λ e, ¬ is_listing e) ([] : history)).
    { split_and!; [|by intros ?? ?%elem_of_nil|done].
      intros pre ???. by destruct pre. }
    destruct Hnil as (Ha0 & Hu0 & Hl0).
    destruct (pr !! "title") as [title|] eqn:Ht; cbn.
    + change (bind (submit_all rest) ?f) with (submit_all rest ≫= f).
      destruct (run (submit_all rest) s1) as [[o1 s2] h1] eqn:E.
      destruct (IH _ _ _ _ Hrest E) as (Ha & Hu & Hl).
      intros [= <- <- <-].
      apply (Hhead h1 Ha Hu Hl Ha
               [(EPrint ("[INFO] PR #" +:+ str num +:+ " をキューに追加: "
                         +:+ str title), s1)]).
      repeat constructor; intros [? [=]].
    + intros [= <- <- <-].
      apply (Hhead [] Ha0 Hu0 Hl0 Ha0 []). constructor.
Qed.

Lemma listing_guard_none h :
  Forall (λ e, ¬ is_listing e) h → listing_guard h.
Proof.
  rewrite Forall_forall. intros Hno pre r s_l post pr s_x -> _. exfalso.
  eapply (Hno (ERun gh_argv r, s_l)); [solve_elem|by eexists].
Qed.

Lemma safe_bind {A B} Pre Mid Post (p : prog A) (f : A → prog B) :
  safe Pre p Mid → (∀ a, safe (Mid a) (f a) Post) →
  safe Pre (p ≫= f) Post.
Proof.
  intros Hp Hf s o s' h HPre. rewrite run_bind.
  destruct (run p s) as [[o1 s1] h1] eqn:E1.
  destruct (Hp _ _ _ _ HPre E1) as [Hok1 HMid].
  destruct (run_growing _ _ _ _ _ E1) as (_ & Hsub & Hall).
  destruct o1 as [a| |]; cbn;
    [|intros [= <- <- <-]; by rewrite app_nil_r..].
  destruct (run (f a) s1) as [[o2 s2] h2] eqn:E2. intros [= <- <- <-].
  destruct (Hf a _ _ _ _ (HMid _ eq_refl) E2) as [Hok2 HPost].
  split; [|done]. eapply poller_ok_app; [done..|].
  eapply Forall_impl; [done|]. naive_solver.
Qed.

Lemma safe_weaken {A} (Pre Pre' : store → Prop) (p : prog A)
    (Post Post' : A → store → Prop) :
  safe Pre p Post → (∀ s, Pre' s → Pre s) →
  (∀ a s, Post a s → Post' a s) → safe Pre' p Post'.
Proof.
  intros Hp HPre HPost s o s' h Hs Hr.
  destruct (Hp _ _ _ _ (HPre _ Hs) Hr). naive_solver.
Qed.

Lemma safe_quiet {A} (p : prog A) :
  commands (avoids submission) p → safe (λ _, True) p (λ _ _, True).
Proof.
  intros Hc s o s' h _ Hr. split; [|done]. apply poller_ok_quiet.
  eapply Forall_impl; [by eapply avoids_history|].
  intros e Hne [pr Hpr]. apply Hne. by exists pr.
Qed.

Lemma safe_get_open_prs : safe (λ _, True) get_open_prs (λ _ _, True).
Proof.
  intros s o s' h _. rewrite run_get_open_prs.
  destruct (subprocess_run gh_argv (st_world s)) as [r w]. cbn zeta.
  intros Hr. split; [|done]. apply poller_ok_quiet. revert Hr.
  destruct (negb (returncode r =? 0)%Z);
    [|destruct (json_loads (stdout r))]; intros [= <- <- <-];
    repeat constructor; intros [? [=]].
Qed.

Lemma safe_select_new prs :
  safe (λ _, True) (select_new prs)
       (λ new_prs s, Forall (unseen (st_processed s)) new_prs).
Proof.
  intros s o s' h _ Hr.
  apply run_select_new in Hr as (-> & Hall & Ho). split.
  - apply poller_ok_quiet. eapply Forall_impl; [done|]. naive_solver.
  - intros a ->. by destruct Ho.
Qed.

Lemma safe_submit_all new_prs :
  safe (λ s, Forall (unseen (st_processed s)) new_prs)
       (submit_all new_prs) (λ _ _, True).
Proof.
  intros s o s' h Hnew Hr.
  destruct (run_submit_all _ _ _ _ _ _ Hnew Hr) as (Ha & Hu & Hl).
  split; [|done]. split_and!; [done..|]. by apply listing_guard_none.
Qed.

Ltac solve_submission :=
  let Hq := fresh "Hq" in
  intros ? Hq; destruct Hq as [? Hq]; discriminate Hq.

Lemma safe_poll_once : safe (λ _, True) poll_once (λ _ _, True).
Proof.
  unfold poll_once.
  eapply safe_bind; [apply safe_get_open_prs|]. intros prs.
  eapply safe_bind; [apply safe_select_new|]. intros new_prs.
  eapply (safe_bind _ (λ _ _, True)).
  - destruct new_prs as [|pr rest].
    + eapply safe_weaken; [apply safe_quiet|done..].
      apply commands_call. solve_submission.
    + apply safe_submit_all.
  - intros ?. apply safe_quiet. apply commands_call. solve_submission.
Qed.

Lemma safe_main_loop cycles :
  safe (λ _, True) (main_loop cycles) (λ _ _, True).
Proof.
  induction cycles as [|n IH]; cbn [main_loop].
  - by apply safe_quiet.
  - eapply safe_bind; [apply safe_poll_once|]. intros ?. apply IH.
Qed.

Lemma safe_main cycles : safe (λ _, True) (main cycles) (λ _ _, True).
Proof.
  unfold main. eapply safe_bind; [|intros ?; apply safe_main_loop].
  apply safe_quiet. unfold banner, print.
  repeat (apply commands_bind; [|intros _]);
    apply commands_call; solve_submission.
Qed.

Lemma growing_elem s h e :
  growing s h → e ∈ h → st_processed s ⊆ st_processed e.2.
Proof.
  revert s. induction h as [|[e0 s0] h IH]; intros s Hg Hin.
  { by apply elem_of_nil in Hin. }
  destruct Hg as [Hs Hg].
  apply elem_of_cons in Hin as [->|Hin]; [done|].
  etrans; [done|]. by apply IH.
Qed.

Lemma growing_suffix s pre e h :
  growing s (pre ++ e :: h) → growing e.2 h.
Proof.
  revert s. induction pre as [|[e0 s0] pre IH]; intros s; cbn.
  - destruct e. by intros [_ ?].
  - intros [_ Hg]. by eapply IH.
Qed.

Lemma growing_before s h :
  growing s h →
  ∀ e1 e2, before e1 e2 h → st_processed e1.2 ⊆ st_processed e2.2.
Proof.
  intros Hg e1 e2 (pre & mid & post & ->).
  apply growing_suffix in Hg. eapply growing_elem; [done|]. solve_elem.
Qed.

(** *** One submission for each number *)

Lemma submitted_app h1 h2 :
  submitted (h1 ++ h2) = submitted h1 ++ submitted h2.
Proof. apply omap_app. Qed.

Lemma submitted_cons ev s0 h :
  submitted ((ev, s0) :: h)
  = match ev with
    | ESubmit pr => [pr !! "number"]
    | _ => []
    end ++ submitted h.
Proof. by destruct ev. Qed.

Lemma submitted_quiet h : Forall (λ e, ¬ is_submit e) h → submitted h = [].
Proof.
  induction 1 as [|[ev s0] h Hq _ IH]; [done|].
  rewrite submitted_cons, IH.
  destruct ev; try done. destruct Hq. by eexists.
Qed.

Lemma submitted_avoids {A} (p : prog A) s o s' h :
  commands (avoids submission) p → run p s = (o, s', h) → submitted h = [].
Proof.
  intros Hc Hr. apply submitted_quiet.
  eapply Forall_impl; [by eapply avoids_history|].
  intros e Hne [pr Hpr]. apply Hne. by exists pr.
Qed.

Lemma elem_of_submitted x h :
  x ∈ submitted h ↔ ∃ pr s_x, (ESubmit pr, s_x) ∈ h ∧ x = pr !! "number".
Proof.
  unfold submitted. rewrite list_elem_of_omap. split.
  - intros ([ev s0] & Hin & Hx). destruct ev; try done.
    cbn in Hx. injection Hx as <-. by eexists _, _.
  - intros (pr & s_x & Hin & ->). by exists (ESubmit pr, s_x).
Qed.

(** A list of submitted numbers without repetition is what
    [submitted_once] asks for. *)
Lemma submitted_once_NoDup h : NoDup (submitted h) → submitted_once h.
Proof.
  intros Hnd pre pr1 s1 mid pr2 s2 post -> Heq.
  rewrite submitted_app, submitted_cons in Hnd. cbn [app] in Hnd.
  apply NoDup_app in Hnd as (_ & _ & Hnd).
  apply NoDup_cons in Hnd as [Hnot _]. apply Hnot.
  rewrite submitted_app, submitted_cons. cbn [app]. rewrite Heq.
  set_solver.
Qed.

Lemma listings_unique_app h1 h2 :
  listings_unique (h1 ++ h2) → listings_unique h1 ∧ listings_unique h2.
Proof.
  intros Hu. split; intros r s_r prs Hin; apply (Hu r s_r); set_solver.
Qed.

(** The loop over [new_prs] submits records of [new_prs] only. *)
Lemma run_submit_all_members new_prs s o s' h :
  run (submit_all new_prs) s = (o, s', h) →
  ∀ x, x ∈ submitted h → x ∈ (λ pr : dict, pr !! "number") <$> new_prs.
Proof.
  revert s o s' h. induction new_prs as [|pr rest IH]; intros s o s' h.
  - cbn. intros [= <- <- <-] x Hx. by apply elem_of_nil in Hx.
  - cbn. unfold getitem. destruct (pr !! "number") as [num|] eqn:Hn; cbn;
      [|intros [= <- <- <-] x Hx; by apply elem_of_nil in Hx].
    destruct (pr !! "title") as [title|] eqn:Ht; cbn.
    + change (bind (submit_all rest) ?f) with (submit_all rest ≫= f).
      destruct (run (submit_all rest) (add_processed num s))
        as [[o1 s2] h1] eqn:E.
      intros [= <- <- <-] x. rewrite !submitted_cons. cbn [app].
      rewrite Hn.
      intros [->|Hx]%elem_of_cons; [set_solver|].
      apply elem_of_cons. right. by eapply IH.
    + intros [= <- <- <-] x. rewrite !submitted_cons. cbn [app submitted omap].
      rewrite Hn.
      intros [->|Hx]%elem_of_cons; [set_solver|]. by apply elem_of_nil in Hx.
Qed.

Lemma NoDup_numbers_fmap prs :
  Forall (λ pr : dict, is_Some (pr !! "number")) prs →
  NoDup (numbers prs) → NoDup ((λ pr : dict, pr !! "number") <$> prs).
Proof.
  induction 1 as [|pr prs [num Hn] _ IH]; [constructor|].
  unfold numbers. cbn. rewrite Hn. cbn.
  intros [Hnot Hnd]%NoDup_cons. apply NoDup_cons. split; [|by apply IH].
  intros (pr' & Heq & Hin)%list_elem_of_fmap. apply Hnot.
  apply list_elem_of_omap. by exists pr'.
Qed.

(** The loop over [new_prs] submits each of them at most once. *)
Lemma run_submit_all_once new_prs s o s' h :
  NoDup ((λ pr : dict, pr !! "number") <$> new_prs) →
  run (submit_all new_prs) s = (o, s', h) →
  NoDup (submitted h).
Proof.
  revert s o s' h. induction new_prs as [|pr rest IH]; intros s o s' h Hnd.
  - cbn. intros [= <- <- <-]. constructor.
  - cbn in Hnd. apply NoDup_cons in Hnd as [Hnot Hnd].
    cbn. unfold getitem. destruct (pr !! "number") as [num|] eqn:Hn; cbn;
      [|intros [= <- <- <-]; constructor].
    destruct (pr !! "title") as [title|] eqn:Ht; cbn.
    + change (bind (submit_all rest) ?f) with (submit_all rest ≫= f).
      destruct (run (submit_all rest) (add_processed num s))
        as [[o1 s2] h1] eqn:E.
      intros [= <- <- <-]. rewrite !submitted_cons. cbn [app].
      rewrite Hn. apply NoDup_cons. split.
      * intros Hx. apply Hnot. by eapply run_submit_all_members.
      * by eapply IH.
    + intros [= <- <- <-]. rewrite !submitted_cons. apply NoDup_singleton.
Qed.

(** The filter of [main] keeps the order and adds nothing. *)
Lemma sublist_numbers new_prs prs :
  sublist new_prs prs → NoDup (numbers prs) → NoDup (numbers new_prs).
Proof.
  intros Hs Hnd. eapply sublist_NoDup; [exact Hnd|]. clear Hnd.
  unfold numbers.
  induction Hs as [|pr l1 l2 _ IH|pr l1 l2 _ IH]; cbn; [done| |].
  - destruct (pr !! "number"); cbn; [by apply sublist_skip|done].
  - destruct (pr !! "number"); cbn; [by apply sublist_cons|done].
Qed.

(** One turn of the loop. *)
Lemma once_poll_once s o s' h :
  run poll_once s = (o, s', h) → listings_unique h → NoDup (submitted h).
Proof.
  unfold poll_once. rewrite run_bind, run_get_open_prs.
  destruct (subprocess_run gh_argv (st_world s)) as [r w]. cbn zeta.
  destruct (negb (returncode r =? 0)%Z) eqn:Hrc.
  { cbn. intros [= <- <- <-] _. rewrite !submitted_cons. constructor. }
  apply negb_false_iff, Z.eqb_eq in Hrc.
  destruct (json_loads (stdout r)) as [prs|] eqn:Hj;
    [|cbn; intros [= <- <- <-] _; rewrite submitted_cons; constructor].
  cbn [continue]. rewrite run_bind.
  destruct (run (select_new prs) (set_world w s)) as [[o1 s1] h1] eqn:E1.
  destruct (run_select_new _ _ _ _ _ E1) as (-> & Hq1 & Ho1).
  assert (Hs1 : submitted h1 = []).
  { apply submitted_quiet. eapply Forall_impl; [done|]. naive_solver. }
  destruct o1 as [new_prs| |]; cbn [continue];
    [|intros [= <- <- <-] _;
      rewrite app_nil_r, (submitted_cons (ERun _ _)), Hs1; constructor..].
  destruct Ho1 as [Hnew Hsub]. rewrite run_bind.
  destruct (run (match new_prs return prog unit with
                 | [] => _ | _ => _ end) (set_world w s))
    as [[o2 s2] h2] eqn:E2.
  destruct (continue _ o2 s2) as [[o3 s3] h3] eqn:E3.
  assert (Hs3 : submitted h3 = []).
  { destruct o2; cbn in E3; by simplify_eq. }
  intros [= <- <- <-] Hu.
  rewrite (submitted_cons (ERun _ _)), !submitted_app, Hs1, Hs3, app_nil_r.
  cbn [app]. destruct new_prs as [|pr rest].
  { rewrite run_print in E2. injection E2 as <- <- <-. constructor. }
  eapply run_submit_all_once; [|exact E2].
  apply NoDup_numbers_fmap.
  { eapply Forall_impl; [exact Hnew|]. by intros pr0 (num & -> & _). }
  eapply sublist_numbers; [done|].
  apply (Hu r (set_world w s)); [set_solver|done..].
Qed.

(** The turns together: what an earlier turn submitted is registered
    when the later turn filters its listing. *)
Lemma once_main_loop cycles s o s' h :
  run (main_loop cycles) s = (o, s', h) → listings_unique h →
  NoDup (submitted h).
Proof.
  revert s o s' h. induction cycles as [|n IH]; intros s o s' h; cbn [main_loop].
  { cbn. intros [= <- <- <-] _. constructor. }
  rewrite run_bind.
  destruct (run poll_once s) as [[o1 s1] h1] eqn:E1.
  destruct o1 as [[]| |]; cbn [continue];
    [|intros [= <- <- <-]; rewrite app_nil_r; by eapply once_poll_once..].
  destruct (run (main_loop n) s1) as [[o2 s2] h2] eqn:E2.
  intros [= <- <- <-] [Hu1 Hu2]%listings_unique_app.
  rewrite submitted_app. apply NoDup_app. split_and!.
  - by eapply once_poll_once.
  - intros x (pr1 & s_x & Hin1 & ->)%elem_of_submitted
             (pr2 & s_y & Hin2 & Heq)%elem_of_submitted.
    destruct (safe_poll_once _ _ _ _ I E1) as [(Ha & _ & _) _].
    destruct (safe_main_loop n _ _ _ _ I E2) as [(_ & Hun & _) _].
    destruct (run_growing _ _ _ _ _ E1) as (_ & _ & Hall).
    rewrite Forall_forall in Hall.
    destruct (Hall _ Hin1) as [_ Hle]. cbn in Hle.
    apply list_elem_of_split in Hin1 as (pre & post & ->).
    destruct (Ha _ _ _ _ eq_refl) as (num & pre' & Hn & _ & Hin).
    destruct (Hun _ _ Hin2) as (num2 & Hn2 & Hnot).
    apply Hnot. assert (num2 = num) as -> by congruence. by apply Hle.
  - by eapply IH.
Qed.

Lemma once_main cycles s o s' h :
  run (main cycles) s = (o, s', h) → listings_unique h →
  NoDup (submitted h).
Proof.
  unfold main. rewrite run_bind.
  destruct (run banner s) as [[o1 s1] h1] eqn:E1.
  assert (Hs1 : submitted h1 = []).
  { eapply submitted_avoids; [|exact E1]. unfold banner, print.
    repeat (apply commands_bind; [|intros _]);
      apply commands_call; solve_submission. }
  destruct o1 as [[]| |]; cbn [continue];
    [|intros [= <- <- <-] _; rewrite app_nil_r, Hs1; constructor..].
  destruct (run (main_loop cycles) s1) as [[o2 s2] h2] eqn:E2.
  intros [= <- <- <-] [_ Hu2]%listings_unique_app.
  rewrite submitted_app, Hs1. by eapply once_main_loop.
Qed.

(** C2: in a run of [main] over any number of poll cycles in which
    every listing names each change once, no two submissions carry the
    same number, so a number that is in [processed] after its submission
    is never submitted again, whatever later listings contain; every
    submission comes right after the [add] of the record's number, which
    is therefore in [processed] at that moment, before the worker has
    taken a step; the [processed] sets along the run only grow, from the
    first store to the last; and a record submitted after a listing has
    a number that was not in [processed] when that listing was taken. *)
Theorem dedup_across_listings cycles s o s' h :
  run (main cycles) s = (o, s', h) →
  listings_unique h →
  submitted_once h
  ∧ never_resubmitted h
  ∧ (∀ pre pr s_x post, h = pre ++ (ESubmit pr, s_x) :: post →
       ∃ num pre', pr !! "number" = Some num
                   ∧ pre = pre' ++ [(EAdd num, s_x)]
                   ∧ num ∈ st_processed s_x)
  ∧ (∀ e1 e2, before e1 e2 h → st_processed e1.2 ⊆ st_processed e2.2)
  ∧ (∀ e, e ∈ h → st_processed s ⊆ st_processed e.2
                  ∧ st_processed e.2 ⊆ st_processed s')
  ∧ (∀ pre r s_l post pr s_x num,
       h = pre ++ (ERun gh_argv r, s_l) :: post →
       (ESubmit pr, s_x) ∈ post → pr !! "number" = Some num →
       num ∉ st_processed s_l).
Proof.
  intros Hr Hu.
  destruct (safe_main cycles _ _ _ _ I Hr) as [(Ha & _ & Hg) _].
  destruct (run_growing _ _ _ _ _ Hr) as (Hgrow & Hsub & Hall).
  pose proof (submitted_once_NoDup _ (once_main _ _ _ _ _ Hr Hu)) as Honce.
  split_and!; [done| |done| | |].
  - intros pre pr1 s1 mid pr2 s2 post num Hh Hn _ Hn2.
    apply (Honce _ _ _ _ _ _ _ Hh). congruence.
  - by eapply growing_before.
  - rewrite Forall_forall in Hall. intros e He. by apply Hall.
  - intros pre r s_l post pr s_x num Hh Hin Hn.
    destruct (Hg _ _ _ _ _ _ Hh Hin) as (num' & Hn' & Hnot). congruence.
Qed.

Lemma run_bind_prefix {A B} (p : prog A) (f : A → prog B) s :
  ∃ rest, (run (p ≫= f) s).2 = (run p s).2 ++ rest.
Proof.
  rewrite run_bind. destruct (run p s) as [[o1 s1] h1].
  destruct (continue f o1 s1) as [[o2 s2] h2]. by exists h2.
Qed.

Lemma main_loop_starts_with_listing n s :
  ∃ r s1 rest,
    (run (main_loop (S n)) s).2 = (ERun gh_argv r, s1) :: rest.
Proof.
  cbn [main_loop]. unfold poll_once.
  destruct (run_bind_prefix
              (get_open_prs ≫= λ prs, select_new prs ≫= λ new_prs,
                 match new_prs return prog unit with
                 | [] => print ("[INFO] 未処理PRなし - "
                                +:+ pretty POLL_INTERVAL_SEC
                                +:+ "秒後に再確認")
                 | _ => submit_all new_prs
                 end ≫= λ _, call (Sleep POLL_INTERVAL_SEC))
              (λ _, main_loop n) s) as [rest1 ->].
  destruct (run_bind_prefix get_open_prs
              (λ prs, select_new prs ≫= λ new_prs,
                 match new_prs return prog unit with
                 | [] => print ("[INFO] 未処理PRなし - "
                                +:+ pretty POLL_INTERVAL_SEC
                                +:+ "秒後に再確認")
                 | _ => submit_all new_prs
                 end ≫= λ _, call (Sleep POLL_INTERVAL_SEC)) s)
    as [rest2 ->].
  rewrite run_get_open_prs.
  destruct (subprocess_run gh_argv (st_world s)) as [r w]. cbn zeta.
  destruct (negb (returncode r =? 0)%Z);
    [|destruct (json_loads (stdout r))]; cbn; by eexists _, _, _.
Qed.

(** C6: a poll cycle whose [gh pr list] fails prints the error, finds
    nothing to submit, prints that there is nothing to do, sleeps for the
    poll interval and hands over to the next cycle: the run of the loop
    is these four events followed by the run of the remaining cycles,
    [processed] is what it was, and the next cycle starts with a new
    listing. *)
Theorem list_failure_skips_cycle n s r w :
  subprocess_run gh_argv (st_world s) = (r, w) →
  returncode r ≠ 0%Z →
  run (main_loop (S n)) s =
    (let '(o, s', h) := run (main_loop n) (set_world w s) in
     (o, s',
      [(ERun gh_argv r, set_world w s);
       (EPrint ("[ERROR] gh pr list 失敗: " +:+ stderr r), set_world w s);
       (EPrint ("[INFO] 未処理PRなし - " +:+ pretty POLL_INTERVAL_SEC
                +:+ "秒後に再確認"), set_world w s);
       (ESleep POLL_INTERVAL_SEC, set_world w s)] ++ h))
  ∧ st_processed (set_world w s) = st_processed s
  ∧ (∀ k, n = S k →
       ∃ r2 s2 rest,
         (run (main_loop n) (set_world w s)).2
         = (ERun gh_argv r2, s2) :: rest).
Proof.
  intros Hrun Hrc. split_and!; [|done|].
  - cbn [main_loop]. unfold poll_once. rewrite !run_bind.
    rewrite run_get_open_prs, Hrun. cbn zeta.
    apply Z.eqb_neq in Hrc. rewrite Hrc. cbn.
    by destruct (run (main_loop n) (set_world w s)) as [[??]?].
  - intros k ->. apply main_loop_starts_with_listing.
Qed.

(** *** Lock discipline of the programs *)

Lemma disciplined_bind {A B} (p : prog A) (f : A → prog B) :
  commands quiet p → (∀ a, disciplined false (f a)) →
  disciplined false (p ≫= f).
Proof.
  intros Hp Hf. induction p as [a|e|X c k IH]; cbn in *; [done..|].
  destruct Hp as [[Hfree Hq] Hk]. rewrite Hfree.
  split; [intros x Hi; by destruct (Hq x)|]. intros x. by apply IH.
Qed.

Lemma disciplined_quiet {A} (p : prog A) :
  commands quiet p → disciplined false p.
Proof.
  intros Hp. induction p as [a|e|X c k IH]; cbn in *; [done..|].
  destruct Hp as [[Hfree Hq] Hk]. rewrite Hfree.
  split; [intros x Hi; by destruct (Hq x)|]. intros x. by apply IH.
Qed.

Lemma disciplined_release_after {A B} (body : prog A) (f : A → prog B) :
  commands lock_free body → (∀ a, disciplined false (f a)) →
  disciplined true (release_after body ≫= f).
Proof.
  intros Hb Hf. induction body as [a|e|X c k IH]; cbn in *.
  - split; [done|]. intros _. apply Hf.
  - by split.
  - destruct Hb as [Hfree Hk]. unfold lock_free in Hfree. rewrite Hfree.
    split; [done|]. intros x. by apply IH.
Qed.

Lemma disciplined_with_lock {A B} (body : prog A) (f : A → prog B) :
  commands lock_free body → (∀ a, disciplined false (f a)) →
  disciplined false (with_lock body ≫= f).
Proof.
  intros Hb Hf. cbn. split; [done|]. intros _.
  by apply disciplined_release_after.
Qed.

Ltac solve_disciplined :=
  repeat lazymatch goal with
    | |- disciplined false (Ret _) => reflexivity
    | |- disciplined false (Raise _) => reflexivity
    | |- disciplined false (with_lock _ ≫= _) =>
        apply disciplined_with_lock; [solve [solve_commands]|intros ?]
    | |- disciplined false (match ?x with _ => _ end) => destruct x
    | |- disciplined false (?p ≫= _) =>
        apply disciplined_bind; [solve [solve_commands]|intros ?]
    | |- disciplined false _ =>
        apply disciplined_quiet; solve [solve_commands]
    end.

(** A worker brackets steps 3 to 5 between acquiring and releasing the
    lock, on every path. *)
Lemma worker_disciplined pr : disciplined false (auto_merge_pr pr).
Proof. unfold auto_merge_pr. solve_disciplined. Qed.

Lemma worker_commands pr : commands worker_command (auto_merge_pr pr).
Proof. unfold auto_merge_pr. solve_commands. Qed.

(** The commands of the poller. *)
Lemma poller_commands P cycles :
  (∀ line, P _ (Print line)) → P _ (Subprocess gh_argv) →
  (∀ v, P _ (Contains v)) → (∀ v, P _ (Add v)) →
  (∀ pr, P _ (Submit pr)) → (∀ n, P _ (Sleep n)) →
  commands P (main cycles).
Proof.
  intros HPrint Hgh HContains HAdd HSubmit HSleep.
  assert (Hget : ∀ (d : dict) key, commands P (getitem d key)).
  { intros d key. unfold getitem. by destruct (d !! key). }
  assert (Hprint : ∀ line, commands P (print line)).
  { intros line. by apply commands_call. }
  assert (Hsel : ∀ prs, commands P (select_new prs)).
  { induction prs as [|pr rest IH]; cbn; [done|].
    change (commands P (getitem pr "number" ≫= λ num,
              call (Contains num) ≫= λ seen : bool,
              select_new rest ≫= λ new_rest,
              Ret (if seen then new_rest else pr :: new_rest))).
    repeat (apply commands_bind; [|intros ?]);
      auto using commands_call. done. }
  assert (Hsub : ∀ prs, commands P (submit_all prs)).
  { induction prs as [|pr rest IH]; cbn; [done|].
    change (commands P (getitem pr "number" ≫= λ num,
              call (Add num) ≫= λ _, call (Submit pr) ≫= λ _,
              getitem pr "number" ≫= λ num',
              getitem pr "title" ≫= λ title,
              print ("[INFO] PR #" +:+ str num' +:+ " をキューに追加: "
                     +:+ str title) ≫= λ _,
              submit_all rest)).
    repeat (apply commands_bind; [|intros ?]); auto using commands_call. }
  unfold main. apply commands_bind.
  { unfold banner. repeat (apply commands_bind; [|intros ?]); auto. }
  intros _. induction cycles as [|n IH]; cbn [main_loop]; [done|].
  apply commands_bind; [|done]. unfold poll_once, get_open_prs.
  repeat (apply commands_bind; [|intros ?]); auto using commands_call.
  - destruct (negb _); [by apply commands_bind|].
    by destruct (json_loads _).
  - by destruct a0.
Qed.

Lemma poller_disciplined cycles : disciplined false (main cycles).
Proof.
  apply disciplined_quiet, poller_commands;
    intros; (split; [reflexivity|solve_avoids]).
Qed.

(** *** Submissions are announced *)

Lemma announces_mono {A} added added' (p : prog A) :
  added ⊆ added' → announces added p → announces added' p.
Proof.
  revert added added'. induction p as [a|e|X c k IH];
    intros added added' Hsub; cbn; [done..|].
  destruct c; cbn; intros Hp; try (intros x; by eapply IH).
  - intros x. eapply IH; [|apply Hp]. set_solver.
  - destruct Hp as [(num & Hn & Hin) Hk].
    split; [exists num; set_solver|]. intros x. by eapply IH.
Qed.

Lemma announces_bind {A B} added (p : prog A) (f : A → prog B) :
  announces added p →
  (∀ a added', added ⊆ added' → announces added' (f a)) →
  announces added (p ≫= f).
Proof.
  revert added. induction p as [a|e|X c k IH]; intros added Hp Hf; cbn.
  - by apply Hf.
  - done.
  - destruct c; cbn in *; try (intros x; by apply IH).
    + intros x. apply IH; [done|]. intros a added' Hsub. apply Hf.
      set_solver.
    + destruct Hp as [Hn Hk]. split; [done|]. intros x. by apply IH.
Qed.

Lemma announces_quiet {A} added (p : prog A) :
  commands (avoids submission) p → announces added p.
Proof.
  revert added. induction p as [a|e|X c k IH]; intros added Hp; cbn;
    [done..|].
  destruct Hp as [Hc Hk].
  destruct c; cbn; try (intros x; by apply IH).
  destruct (Hc tt). by eexists.
Qed.

Lemma announces_submit_all added prs : announces added (submit_all prs).
Proof.
  revert added. induction prs as [|pr rest IH]; intros added; cbn; [done|].
  unfold getitem. destruct (pr !! "number") as [num|] eqn:Hn; cbn; [|done].
  intros _. split; [exists num; split; [done|set_solver]|]. intros _.
  destruct (pr !! "title"); cbn; [|done]. intros _. apply IH.
Qed.

Lemma announces_main cycles : announces [] (main cycles).
Proof.
  unfold main. apply announces_bind.
  { apply announces_quiet. unfold banner, print.
    repeat (apply commands_bind; [|intros ?]);
      apply commands_call; solve_submission. }
  intros _ added _. revert added.
  induction cycles as [|n IH]; intros added; cbn [main_loop]; [done|].
  apply announces_bind; [|intros; apply IH].
  unfold poll_once. apply announces_bind.
  { apply announces_quiet. unfold get_open_prs, print.
    apply commands_bind; [apply commands_call; solve_submission|].
    intros r. destruct (negb _).
    - apply commands_bind; [apply commands_call; solve_submission|done].
    - by destruct (json_loads _). }
  intros prs added1 _. apply announces_bind.
  { apply announces_quiet. induction prs as [|pr rest IHp]; cbn; [done|].
    unfold getitem. destruct (pr !! "number"); cbn; [|done].
    split; [solve_submission|]. intros seen.
    change (bind (select_new rest) ?f) with (select_new rest ≫= f).
    by apply commands_bind. }
  intros new_prs added2 _. apply announces_bind.
  - destruct new_prs; [|apply announces_submit_all].
    apply announces_quiet, commands_call. solve_submission.
  - intros. apply announces_quiet, commands_call. solve_submission.
Qed.

(** *** Steps of the machine *)

Lemma in_window_snoc t tr te :
  in_window t (tr ++ [te]) = window_step t (in_window t tr) te.
Proof. unfold in_window. by rewrite foldl_app. Qed.

Lemma in_window_other t t' tr ev :
  t ≠ t' → in_window t (tr ++ [(t', ev)]) = in_window t tr.
Proof.
  intros Hne. rewrite in_window_snoc. unfold window_step. cbn.
  by rewrite decide_False.
Qed.

Lemma in_window_self t tr ev :
  in_window t (tr ++ [(t, ev)]) = window_after (in_window t tr) ev.
Proof.
  rewrite in_window_snoc. unfold window_step. cbn.
  rewrite decide_True by done. by destruct ev.
Qed.

(** What one command of a disciplined thread does.  [held] says whether
    the thread is inside its window; a thread inside its window knows the
    lock to be taken. *)
Lemma advance_disciplined {A} (p p' : prog A) s s' evs held :
  disciplined held p → (held = true → st_locked s = true) →
  advance p s = Some (p', s', evs) →
  ∃ ev, evs = [ev]
    ∧ disciplined (window_after held ev) p'
    ∧ (integration_event ev → held = true)
    ∧ st_processed s ⊆ st_processed s'
    ∧ match ev with
      | EAcquire => held = false ∧ st_locked s = false ∧ st_locked s' = true
      | ERelease => held = true ∧ st_locked s' = false
      | _ => st_locked s' = st_locked s
      end.
Proof.
  intros Hd Hheld. destruct p as [a|e|X c k]; [done..|]. cbn in *.
  destruct (exec c s) as [x s1| |] eqn:Hx; [| |done].
  - intros [= <- <- <-]. exists (event_of c x).
    pose proof (exec_processed _ _ _ _ Hx) as Hsub.
    destruct c; cbn in *;
      try (destruct Hd as [Hi Hk]; split_and!; [done|apply Hk|apply Hi|done|];
           first [by simplify_eq
                 |by destruct (subprocess_run _ _); simplify_eq]).
    + destruct Hd as [-> Hk]. destruct (st_locked s) eqn:Hl; [done|].
      simplify_eq. split_and!; try done.
      intros Hi. exfalso. revert Hi.
      cbv [integration_event delegation claude_argv]. naive_solver.
    + destruct Hd as [-> Hk]. rewrite Hheld in Hx by done. simplify_eq.
      split_and!; try done.
  - intros [= <- <- <-]. exfalso.
    destruct c; cbn in *; try done.
    + by destruct (subprocess_run _ _).
    + by destruct (st_locked s).
    + destruct Hd as [-> _]. by rewrite Hheld in Hx.
Qed.

(** What one command of the poller does for the announcements. *)
Lemma advance_announces {A} (p p' : prog A) s s' evs added :
  announces added p → (∀ v, v ∈ added → v ∈ st_processed s) →
  advance p s = Some (p', s', evs) →
  (∃ added', announces added' p'
             ∧ ∀ v, v ∈ added' → v ∈ st_processed s')
  ∧ ∀ pr, ESubmit pr ∈ evs →
      ∃ num, pr !! "number" = Some num ∧ num ∈ st_processed s'.
Proof.
  intros Ha Hadded. destruct p as [a|e|X c k]; [done..|]. cbn in *.
  destruct (exec c s) as [x s1| |] eqn:Hx; [| |done].
  - intros [= <- <- <-].
    pose proof (exec_processed _ _ _ _ Hx) as Hsub.
    destruct c; cbn in *;
      try (split; [exists added; split; [apply Ha|set_solver]
                  |intros pr [=]%list_elem_of_singleton]).
    + split; [|intros pr [=]%list_elem_of_singleton].
      exists (v :: added). split; [apply Ha|]. simplify_eq. cbn.
      set_solver.
    + destruct Ha as [(num & Hn & Hin) Hk]. split.
      * exists added. split; [apply Hk|set_solver].
      * intros pr' [= ->]%list_elem_of_singleton. exists num. set_solver.
  - intros [= <- <- <-]. split; [|by intros pr ?%elem_of_nil].
    exists added. by split.
Qed.

Lemma advance_commands {A} P (p p' : prog A) s s' evs :
  commands P p → advance p s = Some (p', s', evs) →
  commands P p'
  ∧ ∀ ev, ev ∈ evs → ∃ X (c : cmd X) x, P X c ∧ ev = event_of c x.
Proof.
  intros Hc. destruct p as [a|e|X c k]; [done..|]. cbn in *.
  destruct Hc as [HP Hk].
  destruct (exec c s) as [x s1| |]; [| |done]; intros [= <- <- <-].
  - split; [done|]. intros ev ->%list_elem_of_singleton. by eauto 6.
  - split; [done|]. by intros ev ?%elem_of_nil.
Qed.

(** The windows after one more event. *)
Lemma windows_step t ev tr (locked locked' : bool) :
  (∀ t1 t2, in_window t1 tr = true → in_window t2 tr = true → t1 = t2) →
  (locked = true ↔ ∃ t0, in_window t0 tr = true) →
  match ev with
  | EAcquire => in_window t tr = false ∧ locked = false ∧ locked' = true
  | ERelease => in_window t tr = true ∧ locked' = false
  | _ => locked' = locked
  end →
  (∀ t1 t2, in_window t1 (tr ++ [(t, ev)]) = true →
            in_window t2 (tr ++ [(t, ev)]) = true → t1 = t2)
  ∧ (locked' = true ↔ ∃ t0, in_window t0 (tr ++ [(t, ev)]) = true).
Proof.
  intros Hex Hlock Hev.
  assert (Hw : ∀ t0, in_window t0 (tr ++ [(t, ev)]) =
                     if decide (t0 = t)
                     then window_after (in_window t tr) ev
                     else in_window t0 tr).
  { intros t0. case_decide as Ht; [subst; apply in_window_self|].
    by apply in_window_other. }
  assert (Hnone : locked = false → ∀ t0, in_window t0 tr = false).
  { intros -> t0. destruct (in_window t0 tr) eqn:Ht0; [|done].
    assert (false = true); [apply Hlock; by eauto|done]. }
  assert (Hcases :
    (ev = EAcquire ∧ in_window t tr = false ∧ locked = false
     ∧ locked' = true)
    ∨ (ev = ERelease ∧ in_window t tr = true ∧ locked' = false)
    ∨ ((∀ b, window_after b ev = b) ∧ locked' = locked)).
  { destruct ev; naive_solver. }
  destruct Hcases as [(-> & Ht & Hl & ->)|[(-> & Ht & ->)|(Hsame & ->)]].
  - assert (Hw' : ∀ t0, in_window t0 (tr ++ [(t, EAcquire)]) = true →
                        t0 = t).
    { intros t0. rewrite Hw. case_decide; [done|]. by rewrite Hnone. }
    split.
    + intros t1 t2 H1 H2. by rewrite (Hw' _ H1), (Hw' _ H2).
    + split; [|done]. intros _. exists t. by rewrite in_window_self.
  - assert (Hw' : ∀ t0, in_window t0 (tr ++ [(t, ERelease)]) = false).
    { intros t0. rewrite Hw. case_decide; [done|].
      destruct (in_window t0 tr) eqn:Ht0; [|done].
      by destruct (Hex _ _ Ht0 Ht). }
    split.
    + intros t1 t2 H1. by rewrite Hw' in H1.
    + split; [done|]. intros [t0 Ht0]. by rewrite Hw' in Ht0.
  - assert (Hw' : ∀ t0, in_window t0 (tr ++ [(t, ev)]) = in_window t0 tr).
    { intros t0. rewrite Hw. case_decide; [|done]. subst. apply Hsame. }
    split.
    + intros t1 t2. rewrite !Hw'. apply Hex.
    + rewrite Hlock. by setoid_rewrite Hw'.
Qed.

Lemma past_step {E} (Φ : list E → Prop) (tr : list E) x :
  (∀ tr1 tr2, tr = tr1 ++ tr2 → Φ tr1) → Φ (tr ++ [x]) →
  ∀ tr1 tr2, tr ++ [x] = tr1 ++ tr2 → Φ tr1.
Proof.
  intros Hold Hnew tr1 tr2 Heq.
  apply app_eq_inv in Heq as [(k & -> & _)|(k & -> & Hk)];
    [by eapply Hold|].
  destruct k as [|y k].
  { rewrite app_nil_r. apply (Hold tr []). by rewrite app_nil_r. }
  injection Hk as <- Hk. destruct k; [done|by destruct tr2].
Qed.


Lemma guarded_step {E} (Ψ : list E → E → Prop) (tr : list E) x :
  (∀ tr1 y tr2, tr = tr1 ++ y :: tr2 → Ψ tr1 y) → Ψ tr x →
  ∀ tr1 y tr2, tr ++ [x] = tr1 ++ y :: tr2 → Ψ tr1 y.
Proof.
  intros Hold Hnew tr1 y tr2 Heq.
  apply app_eq_inv in Heq as [(k & Htr & Hk)|(k & Htr & Hk)].
  - destruct k as [|z k]; cbn in Hk.
    + injection Hk as Hy Ht. subst. by rewrite app_nil_r in Hnew.
    + injection Hk as Hy Ht. subst. by eapply Hold.
  - destruct k as [|z k]; cbn in Hk.
    + injection Hk as Hy Ht. subst. by rewrite app_nil_r.
    + injection Hk as Hy Ht. by destruct k.
Qed.

Lemma spawned_worker {X} (c : cmd X) x :
  poller_only c = false → spawned [event_of c x] = [].
Proof. by destruct c. Qed.

Lemma spawned_lookup ev k pr p :
  spawned [ev] !! k = Some (pr, p) →
  ev = ESubmit pr ∧ p = auto_merge_pr pr.
Proof.
  destruct ev; cbn; try by rewrite lookup_nil.
  intros [_ [= <- <-]]%list_lookup_singleton_Some. done.
Qed.

(** *** The invariant *)

Lemma invariant_boot cycles w : invariant (boot cycles w).
Proof.
  split; cbn; try done.
  - split; [done|]. by intros [t ?].
  - apply poller_disciplined.
  - exists []. split; [by intros v ?%elem_of_nil|apply announces_main].
  - intros tr1 tr2 t1 t2 Htr. by destruct tr1.
  - intros tr1 t ev tr2 Htr. by destruct tr1.
Qed.

Lemma invariant_step t m m' : invariant m → step t m = Some m' → invariant m'.
Proof.
  intros [Hex Hlock Hpoll Hann Hwork Hunborn Hpex Hpg] Hstep.
  assert (Hknown : ∀ t0, in_window t0 (m_trace m) = true →
                         st_locked (m_store m) = true).
  { intros t0 Ht0. apply Hlock. by exists t0. }
  destruct t as [|i]; cbn in Hstep.
  - (* the poller moves *)
    destruct (advance (m_poller m) (m_store m)) as [[[p s] evs]|] eqn:Hadv;
      [|done]. injection Hstep as <-.
    destruct (advance_disciplined _ _ _ _ _ _ Hpoll (Hknown Poller) Hadv)
      as (ev & -> & Hd & Hint & Hsub & Hlev).
    destruct Hann as (added & Hadded & Hann).
    destruct (advance_announces _ _ _ _ _ _ Hann Hadded Hadv)
      as [(added' & Hann' & Hadded') Hsubmit].
    destruct (windows_step Poller ev (m_trace m) (st_locked (m_store m))
                (st_locked s) Hex Hlock) as [Hex' Hlock'].
    { by destruct ev. }
    change (pair Poller <$> [ev]) with [(Poller, ev)].
    split; cbn [m_store m_poller m_pool m_trace].
    + done.
    + done.
    + by rewrite in_window_self.
    + by exists added'.
    + intros j pr p0 [Hl|[Hlen Hl]]%lookup_app_Some.
      * destruct (Hwork _ _ _ Hl) as (Hd0 & Hc0 & num & Hn & Hin).
        rewrite in_window_other by done. split_and!; [done..|].
        exists num. split; [done|]. by apply Hsub.
      * apply spawned_lookup in Hl as [-> ->].
        rewrite in_window_other, Hunborn by done.
        split_and!; [apply worker_disciplined|apply worker_commands|].
        apply Hsubmit. by apply list_elem_of_singleton.
    + intros j Hlen. rewrite length_app in Hlen.
      rewrite in_window_other by done. apply Hunborn. lia.
    + intros tr1 tr2 t1 t2 Htr.
      refine (past_step
        (λ tr1, ∀ t1 t2, in_window t1 tr1 = true →
                         in_window t2 tr1 = true → t1 = t2)
        (m_trace m) (Poller, ev) _ Hex' tr1 tr2 Htr t1 t2).
      intros tr1' tr2' Htr' t1' t2'. by eapply Hpex.
    + intros tr1 t ev0 tr2 Htr.
      refine (guarded_step
        (λ tr1 te, integration_event te.2 → in_window te.1 tr1 = true)
        (m_trace m) (Poller, ev) _ Hint tr1 (t, ev0) tr2 Htr).
      intros tr1' [t' ev'] tr2' Htr'. by eapply Hpg.
  - (* a worker moves *)
    destruct (m_pool m !! i) as [[pr p0]|] eqn:Hl; [|done].
    destruct (advance p0 (m_store m)) as [[[p s] evs]|] eqn:Hadv; [|done].
    injection Hstep as <-.
    destruct (Hwork _ _ _ Hl) as (Hd0 & Hc0 & num & Hn & Hin).
    destruct (advance_disciplined _ _ _ _ _ _ Hd0 (Hknown (Worker i)) Hadv)
      as (ev & -> & Hd & Hint & Hsub & Hlev).
    destruct (advance_commands _ _ _ _ _ _ Hc0 Hadv) as [Hc Hevs].
    destruct (Hevs ev) as (X & c & x & Hw & ->);
      [by apply list_elem_of_singleton|].
    rewrite (spawned_worker c x Hw), app_nil_r.
    pose proof (lookup_lt_Some _ _ _ Hl) as Hlt.
    destruct (windows_step (Worker i) (event_of c x) (m_trace m)
                (st_locked (m_store m)) (st_locked s) Hex Hlock)
      as [Hex' Hlock'].
    { by destruct (event_of c x). }
    change (pair (Worker i) <$> [event_of c x])
      with [(Worker i, event_of c x)].
    split; cbn [m_store m_poller m_pool m_trace].
    + done.
    + done.
    + by rewrite in_window_other.
    + destruct Hann as (added & Hadded & Hann). exists added.
      split; [|done]. intros v Hv. by apply Hsub, Hadded.
    + intros j pr1 p1 Hj. destruct (decide (j = i)) as [->|Hne].
      * rewrite list_lookup_insert_eq in Hj by done.
        injection Hj as <- <-. rewrite in_window_self.
        split_and!; [done..|]. exists num. split; [done|]. by apply Hsub.
      * rewrite list_lookup_insert_ne in Hj by done.
        destruct (Hwork _ _ _ Hj) as (Hd1 & Hc1 & num1 & Hn1 & Hin1).
        rewrite in_window_other by congruence.
        split_and!; [done..|]. exists num1. split; [done|]. by apply Hsub.
    + intros j Hlen. rewrite length_insert in Hlen.
      rewrite in_window_other; [by apply Hunborn|]. intros [= ->]. lia.
    + intros tr1 tr2 t1 t2 Htr.
      refine (past_step
        (λ tr1, ∀ t1 t2, in_window t1 tr1 = true →
                         in_window t2 tr1 = true → t1 = t2)
        (m_trace m) (Worker i, event_of c x) _ Hex' tr1 tr2 Htr t1 t2).
      intros tr1' tr2' Htr' t1' t2'. by eapply Hpex.
    + intros tr1 t ev0 tr2 Htr.
      refine (guarded_step
        (λ tr1 te, integration_event te.2 → in_window te.1 tr1 = true)
        (m_trace m) (Worker i, event_of c x) _ Hint tr1 (t, ev0) tr2 Htr).
      intros tr1' [t' ev'] tr2' Htr'. by eapply Hpg.
Qed.

Lemma invariant_run sched m :
  invariant m → invariant (run_schedule sched m).
Proof.
  revert m. induction sched as [|t sched IH]; intros m Hm; [done|].
  cbn. apply IH. unfold perform.
  destruct (step t m) as [m'|] eqn:Hstep; [|done]. by eapply invariant_step.
Qed.

(** *** One worker alone and the lock *)

(** A disciplined thread that starts with the lock in the state it
    assumes never waits, and leaves the lock free however it ends. *)
Lemma disciplined_run {A} (p : prog A) held s o s' h :
  disciplined held p → st_locked s = held → run p s = (o, s', h) →
  o ≠ Blocked ∧ st_locked s' = false.
Proof.
  revert held s o s' h.
  induction p as [a|e|X c k IH]; intros held s o s' h Hd Hs Hr; cbn in *.
  - by simplify_eq.
  - by simplify_eq.
  - destruct (lock_effect c) as [[]|] eqn:Hc.
    + destruct c; try done. destruct Hd as [-> Hk]. cbn in Hr.
      rewrite Hs in Hr.
      destruct (run (k ()) (set_locked true s)) as [[o1 s1] h1] eqn:Hk1.
      injection Hr as <- <- <-.
      by refine (IH _ true _ _ _ _ (Hk _) _ Hk1).
    + destruct c; try done. destruct Hd as [-> Hk]. cbn in Hr.
      rewrite Hs in Hr.
      destruct (run (k ()) (set_locked false s)) as [[o1 s1] h1] eqn:Hk1.
      injection Hr as <- <- <-.
      by refine (IH _ false _ _ _ _ (Hk _) _ Hk1).
    + destruct Hd as [_ Hk].
      destruct (exec_lock_free c s Hc) as (x & s1 & Hx & Hl).
      rewrite Hx in Hr.
      destruct (run (k x) s1) as [[o1 s2] h1] eqn:Hk1.
      injection Hr as <- <- <-. eapply IH; [apply Hk| |exact Hk1]. congruence.
Qed.

(** *** Finished futures *)

Lemma events_of_app t tr1 tr2 :
  events_of t (tr1 ++ tr2) = events_of t tr1 ++ events_of t tr2.
Proof. apply omap_app. Qed.

Lemma events_of_other t t' evs :
  t ≠ t' → events_of t (pair t' <$> evs) = [].
Proof.
  intros Hne. induction evs as [|ev evs IH]; [done|]. cbn.
  by rewrite decide_False.
Qed.

(** A finished future never moves again, keeps its place in the pool,
    and adds nothing to the trace. *)
Lemma step_finished t m m' i pr p :
  finished p → m_pool m !! i = Some (pr, p) → step t m = Some m' →
  m_pool m' !! i = Some (pr, p)
  ∧ events_of (Worker i) (m_trace m') = events_of (Worker i) (m_trace m).
Proof.
  intros Hp Hl. destruct t as [|j]; cbn.
  - destruct (advance _ _) as [[[p1 s1] evs]|]; [|done].
    intros [= <-]. cbn [m_pool m_trace]. split.
    + by apply lookup_app_l_Some.
    + by rewrite events_of_app, events_of_other, app_nil_r.
  - destruct (m_pool m !! j) as [[pr1 p1]|] eqn:Hj; [|done].
    destruct (decide (j = i)) as [->|Hne].
    { simplify_eq. by destruct p. }
    destruct (advance _ _) as [[[p2 s2] evs]|]; [|done].
    intros [= <-]. cbn [m_pool m_trace]. split.
    + apply lookup_app_l_Some. by rewrite list_lookup_insert_ne.
    + rewrite events_of_app, events_of_other, app_nil_r; [done|congruence].
Qed.

Lemma run_schedule_cons t sched m :
  run_schedule (t :: sched) m = run_schedule sched (perform m t).
Proof. reflexivity. Qed.

Lemma perform_step m t :
  (∃ m', step t m = Some m' ∧ perform m t = m')
  ∨ (step t m = None ∧ perform m t = m).
Proof. unfold perform. destruct (step t m); by eauto. Qed.

Lemma run_schedule_finished sched m i pr p :
  finished p → m_pool m !! i = Some (pr, p) →
  m_pool (run_schedule sched m) !! i = Some (pr, p)
  ∧ events_of (Worker i) (m_trace (run_schedule sched m))
    = events_of (Worker i) (m_trace m).
Proof.
  intros Hp. revert m. induction sched as [|t sched IH]; intros m Hl; [done|].
  rewrite run_schedule_cons.
  destruct (perform_step m t) as [(m' & Hstep & ->)|[_ ->]].
  - destruct (step_finished _ _ _ _ _ _ Hp Hl Hstep) as [Hl' Hev].
    rewrite <- Hev. by apply IH.
  - by apply IH.
Qed.

(** How a finished future ended makes no difference to anyone else. *)
Lemma step_with_future t m i pr p q :
  finished p → finished q → m_pool m !! i = Some (pr, p) →
  step t (with_future i (pr, q) m) = with_future i (pr, q) <$> step t m.
Proof.
  intros Hp Hq Hl. pose proof (lookup_lt_Some _ _ _ Hl) as Hlt.
  destruct t as [|j]; cbn.
  - destruct (advance _ _) as [[[p1 s1] evs]|]; [|done]. cbn.
    unfold with_future. cbn. by rewrite insert_app_l.
  - destruct (decide (j = i)) as [->|Hne].
    + rewrite list_lookup_insert_eq, Hl by done. by destruct p, q.
    + rewrite list_lookup_insert_ne by done.
      destruct (m_pool m !! j) as [[pr1 p1]|]; [|done].
      destruct (advance _ _) as [[[p2 s2] evs]|]; [|done]. cbn.
      unfold with_future. cbn.
      rewrite insert_app_l by (by rewrite length_insert).
      by rewrite list_insert_insert_ne.
Qed.

Lemma run_schedule_with_future sched m i pr p q :
  finished p → finished q → m_pool m !! i = Some (pr, p) →
  run_schedule sched (with_future i (pr, q) m)
  = with_future i (pr, q) (run_schedule sched m).
Proof.
  intros Hp Hq. revert m.
  induction sched as [|t sched IH]; intros m Hl; [done|].
  rewrite !run_schedule_cons.
  assert (perform (with_future i (pr, q) m) t
          = with_future i (pr, q) (perform m t)) as ->.
  { unfold perform. rewrite (step_with_future _ _ _ _ _ _ Hp Hq Hl).
    by destruct (step t m). }
  apply IH.
  destruct (perform_step m t) as [(m' & Hstep & ->)|[_ ->]]; [|done].
  by eapply step_finished.
Qed.

(** ** The lock (claim C1) *)

(** C1.  In every state that the poller and its workers reach under any
    schedule: at every moment of the trace at most one thread is inside
    its window (between its acquire and its release); every event of
    steps 3 to 5 (pull, merge, the look at MERGE_HEAD, the delegate, the
    abort, the push of main) is made by a thread inside its window; the
    lock is taken exactly while some thread is inside its window; a
    future that is done, however it ended, is outside its window.  And a
    worker that runs alone from a free lock never waits and leaves the
    lock free whichever way it ends. *)
Theorem merge_windows_exclusive cycles w sched :
  let m := run_schedule sched (boot cycles w) in
  (∀ tr1 tr2 t1 t2, m_trace m = tr1 ++ tr2 →
     in_window t1 tr1 = true → in_window t2 tr1 = true → t1 = t2)
  ∧ (∀ tr1 t ev tr2, m_trace m = tr1 ++ (t, ev) :: tr2 →
       integration_event ev → in_window t tr1 = true)
  ∧ (st_locked (m_store m) = true ↔ ∃ t, in_window t (m_trace m) = true)
  ∧ (∀ i pr p, m_pool m !! i = Some (pr, p) → finished p →
       in_window (Worker i) (m_trace m) = false)
  ∧ (∀ pr s o s' h, st_locked s = false →
       run (auto_merge_pr pr) s = (o, s', h) →
       o ≠ Blocked ∧ st_locked s' = false).
Proof.
  intros m.
  destruct (invariant_run sched _ (invariant_boot cycles w))
    as [Hex Hlock Hpoll Hann Hwork Hunborn Hpex Hpg].
  fold m in Hex, Hlock, Hpoll, Hann, Hwork, Hunborn, Hpex, Hpg.
  split_and!; [done..| |].
  - intros i pr p Hl Hp. destruct (Hwork _ _ _ Hl) as (Hd & _).
    by destruct p.
  - intros pr s o s' h Hs Hr.
    by eapply disciplined_run; [apply worker_disciplined| |exact Hr].
Qed.

(** ** Exceptions of a worker (claim C10) *)

(** C10.  Once the future of a submitted record has ended in an
    exception, under every further schedule: the future stays as it is
    and never moves; the worker adds no event, so no line, to the trace;
    the number of its record is in [processed] and stays there; and the
    poller and the other futures go on exactly as if the worker had
    returned normally. *)
Theorem worker_exception_discarded cycles w sched sched' i pr e :
  m_pool (run_schedule sched (boot cycles w)) !! i = Some (pr, Raise e) →
  let m := run_schedule sched (boot cycles w) in
  let m' := run_schedule sched' m in
  m_pool m' !! i = Some (pr, Raise e)
  ∧ step (Worker i) m' = None
  ∧ events_of (Worker i) (m_trace m') = events_of (Worker i) (m_trace m)
  ∧ (∃ num, pr !! "number" = Some num
            ∧ num ∈ st_processed (m_store m)
            ∧ num ∈ st_processed (m_store m'))
  ∧ run_schedule sched' (with_future i (pr, Ret tt) m)
    = with_future i (pr, Ret tt) m'.
Proof.
  intros Hl m m'.
  destruct (run_schedule_finished sched' m i pr (Raise e) I Hl)
    as [Hl' Hev].
  fold m' in Hl', Hev.
  pose proof (invariant_run sched _ (invariant_boot cycles w)) as Hinv.
  fold m in Hinv.
  pose proof (invariant_run sched' _ Hinv) as Hinv'. fold m' in Hinv'.
  split_and!; [done| |done| |].
  - cbn. by rewrite Hl'.
  - destruct (inv_workers _ Hinv _ _ _ Hl) as (_ & _ & num & Hn & Hin).
    destruct (inv_workers _ Hinv' _ _ _ Hl') as (_ & _ & num' & Hn' & Hin').
    exists num. by simplify_eq.
  - by apply (run_schedule_with_future sched' m i pr (Raise e) (Ret tt)).
Qed.

(** *** A record that is not what the worker expects *)

Lemma bind_ret {A B} (a : A) (f : A → prog B) : Ret a ≫= f = f a.
Proof. reflexivity. Qed.

(** X1.  A malformed record ends the worker in an exception before it
    has touched the repository: a missing [number], [headRefName] or
    [title] raises the [KeyError] of the first missing key with no event
    at all, and a branch name that is not a string raises [TypeError]
    when the argument list of [git fetch] is built, after the start line
    alone.  The store is what it was: no process was launched and the
    lock was not asked for. *)
Theorem malformed_record_raises pr s e :
  record_fault pr = Some e →
  run (auto_merge_pr pr) s
  = (Raises e, s,
     match e with
     | TypeError =>
         [(EPrint ("[INFO] PR #" +:+ str (number_of pr) +:+ " 処理開始: "
                   +:+ str (title_of pr)), s)]
     | _ => []
     end).
Proof.
  unfold auto_merge_pr, record_fault, number_of, title_of, getitem.
  destruct (pr !! "number") as [num|]; [|by intros [= <-]].
  destruct (pr !! "headRefName") as [[n|b]|]; [| |by intros [= <-]];
    (destruct (pr !! "title") as [title|]; [|by intros [= <-]]);
    [|done].
  by intros [= <-].
Qed.

(** *** The steps before the merge *)

(** X2.  When [git fetch] of the branch fails, the worker prints the
    fetch error with the error output of git and returns: the start line
    is all that came before, nothing comes after, and the lock is never
    asked for. *)
Theorem fetch_failure_stops_worker pr s o s' h pre args r s_f post :
  run (auto_merge_pr pr) s = (o, s', h) →
  h = pre ++ (ERun ("git" :: "fetch" :: args) r, s_f) :: post →
  returncode r ≠ 0%Z →
  o = Returns tt
  ∧ s' = s_f
  ∧ post = [(EPrint ("[ERROR] PR #"
                     +:+ str (default (VStr "") (pr !! "number"))
                     +:+ " fetch失敗: " +:+ stderr r), s_f)]
  ∧ ∃ line s0, pre = [(EPrint line, s0)].
Proof.
  intros Hrun Hh Hrc. revert Hrun Hh. locate pre s_f post o s'.
  unfold auto_merge_pr. walk.
  repeat match goal with
    | Hg : run (getitem _ _) _ = _ |- _ =>
        apply run_getitem in Hg as (_ & -> & Hg)
    end.
  match goal with Hn : pr !! "number" = Some _ |- _ => rewrite Hn end.
  cbn [default from_option id].
  apply locates_call; [|intros; walk].
  intros st x st1 o' st' h' Hx [= <- ->] Hr.
  apply Z.eqb_neq in Hrc. rewrite Hrc in Hr. cbn in Hr.
  injection Hr as <- <- <-. split_and!; try done.
  match goal with
  | Hp : run (print _) _ = _ |- _ => cbn in Hp; injection Hp as _ _ <-
  end.
  by eexists _, _.
Qed.

(** X3.  When the fast-forward pull of main fails, the worker prints
    the pull error, releases the lock it took right before the pull, and
    returns: no merge, no push, no cleanup. *)
Theorem pull_failure_releases pr s o s' h pre r s_p post :
  run (auto_merge_pr pr) s = (o, s', h) →
  h = pre ++ (ERun ["git"; "pull"; "--ff-only"; "origin"; "main"] r, s_p)
          :: post →
  returncode r ≠ 0%Z →
  o = Returns tt
  ∧ post =
      [(EPrint ("[ERROR] PR #" +:+ str (default (VStr "") (pr !! "number"))
                +:+ " pull失敗: " +:+ stderr r), s_p);
       (ERelease, set_locked false s_p)]
  ∧ s' = set_locked false s_p
  ∧ ∃ s_a, last pre = Some (EAcquire, s_a).
Proof.
  intros Hrun Hh Hrc. revert Hrun Hh. locate pre s_p post o s'.
  unfold auto_merge_pr. walk.
  repeat match goal with
    | Hg : run (getitem _ _) _ = _ |- _ =>
        apply run_getitem in Hg as (_ & -> & Hg)
    end.
  match goal with Hn : pr !! "number" = Some _ |- _ => rewrite Hn end.
  cbn [default from_option id].
  eapply (locates_bind _
    (λ pre s_p post o1 s1,
       o1 = Returns Return
       ∧ post = [(EPrint ("[ERROR] PR #" +:+ str a +:+ " pull失敗: "
                          +:+ stderr r), s_p);
                 (ERelease, set_locked false s_p)]
       ∧ s1 = set_locked false s_p
       ∧ ∃ s_a, last pre = Some (EAcquire, s_a))).
  - eapply (locates_with_lock _
      (λ pre s_p post o1 s1,
         o1 = Returns Return
         ∧ post = [(EPrint ("[ERROR] PR #" +:+ str a +:+ " pull失敗: "
                            +:+ stderr r), s_p)]
         ∧ s1 = s_p
         ∧ pre = []));
      [apply integrate_lock_free|done|done| |].
    + unfold integrate. walk.
      apply locates_call; [|intros; walk].
      intros st x st1 o' st' h' Hx [= ->] Hr.
      apply Z.eqb_neq in Hrc. rewrite Hrc in Hr. cbn in Hr.
      injection Hr as <- <- <-. by split_and!.
    + intros ? ? ? ? ? ? (-> & -> & -> & ->) _ _.
      split_and!; try done. by eexists.
  - intros ? ? ? ? ? ? ? ? (-> & -> & -> & s_a & Hlast) Hc.
    cbn in Hc. injection Hc as <- <- <-. rewrite app_nil_r.
    split_and!; try done. exists s_a.
    apply last_Some in Hlast as [pre' ->].
    by rewrite !(assoc_L (++)), last_snoc.
  - intros; walk.
Qed.

(** *** The delegate *)

Lemma unique_split {E} (Q : E → Prop) (a b pre post : list E) x y :
  a ++ x :: b = pre ++ y :: post →
  Forall (λ e, ¬ Q e) a → Forall (λ e, ¬ Q e) b → Q y →
  pre = a ∧ y = x ∧ post = b.
Proof.
  revert pre. induction a as [|e a IH]; intros pre Heq Ha Hb Hy.
  - destruct pre as [|e' pre]; cbn in Heq.
    + by injection Heq as <- <-.
    + injection Heq as <- ->. exfalso.
      rewrite Forall_app, Forall_cons in Hb. by destruct Hb as (_ & ? & _).
  - apply Forall_cons in Ha as [He Ha].
    destruct pre as [|e' pre]; cbn in Heq.
    + injection Heq as <- _. done.
    + injection Heq as <- Heq.
      destruct (IH _ Heq Ha Hb Hy) as (-> & -> & ->). done.
Qed.

Ltac solve_no_delegate :=
  repeat first
    [ assumption
    | apply Forall_nil_2
    | apply Forall_app_2
    | apply Forall_cons_2
    | apply Forall_fmap, Forall_forall; intros ? _
    | by (let Hq := fresh "Hq" in
          unfold compose; cbn [fst]; intros Hq;
          cbv [delegation claude_argv] in Hq;
          repeat match type of Hq with
            | ∃ _, _ => destruct Hq as [? Hq]
            end; discriminate Hq) ].

Lemma run_resolve num title s :
  run (_resolve_conflict_with_claude num title) s =
    let prompt :=
      CONFLICT_RESOLVE_PROMPT (str num) (str title) PROJECT_DIR in
    let '(r, w) := subprocess_run (claude_argv prompt) (st_world s) in
    let s1 := set_world w s in
    let still := path_exists MERGE_HEAD w in
    (Returns (negb still), s1,
     (EPrint ("[INFO] PR #" +:+ str num
              +:+ " コンフリクト検出 - Claudeに解決を委譲"), s)
     :: (ERun (claude_argv prompt) r, s1)
     :: ((λ line, (EPrint line, s1)) <$> echoed r)
     ++ [(EExists MERGE_HEAD still, s1);
         (EPrint (resolve_status num still), s1)]).
Proof.
  unfold _resolve_conflict_with_claude, _is_merge_in_progress, echoed,
    resolve_status.
  cbn zeta. rewrite run_print_bind, run_call_bind. cbn [exec].
  destruct (subprocess_run _ _) as [r w]. cbn.
  destruct (negb (stdout r =? "")); destruct (negb (stderr r =? ""));
    cbn; by destruct (path_exists MERGE_HEAD w).
Qed.

(** Where the delegate is launched in the block after a failed merge,
    and what follows. *)
Lemma on_merge_failure_delegate num title r0 s o s' h pre prompt r s_c post :
  run (on_merge_failure num title r0) s = (o, s', h) →
  h = pre ++ (ERun (claude_argv prompt) r, s_c) :: post →
  ∃ tail,
    post = ((λ line, (EPrint line, s_c)) <$> echoed r)
           ++ (EExists MERGE_HEAD (path_exists MERGE_HEAD (st_world s_c)),
               s_c)
           :: (EPrint (resolve_status num
                         (path_exists MERGE_HEAD (st_world s_c))), s_c)
           :: tail
    ∧ st_locked s_c = st_locked s
    ∧ if path_exists MERGE_HEAD (st_world s_c)
      then o = Returns Return
           ∧ ∃ r_a, tail = [(ERun ["git"; "merge"; "--abort"] r_a, s')]
                    ∧ st_locked s' = st_locked s
      else o = Returns Continue ∧ tail = [] ∧ s' = s_c.
Proof.
  unfold on_merge_failure. rewrite run_bind.
  destruct (run (if str_in "CONFLICT" (stdout r0) then _ else _) s)
    as [[o1 s1] h1] eqn:E1.
  assert (Forall undelegated h1 ∧ s1 = s ∧ ∃ b, o1 = Returns b)
    as (Hh1 & -> & b & ->).
  { revert E1. unfold _is_merge_in_progress.
    destruct (str_in "CONFLICT" (stdout r0));
      [|destruct (str_in "Automatic merge failed" (stderr r0))];
      cbn; intros [= <- <- <-]; (split_and!; [|done|by eexists]);
      solve_undelegated. }
  cbn [continue]. destruct b; cbn [negb].
  - (* a conflict: the delegate *)
    rewrite run_bind, run_resolve. cbn zeta.
    set (prompt0 := CONFLICT_RESOLVE_PROMPT _ _ _).
    destruct (subprocess_run (claude_argv prompt0) (st_world s))
      as [rc wc] eqn:Ec.
    cbn [continue].
    destruct (path_exists MERGE_HEAD wc) eqn:Hm; cbn [negb].
    + unfold _git. cbn [argv_of]. rewrite run_call_bind. cbn [exec event_of].
      cbn [st_world set_world].
      destruct (subprocess_run ["git"; "merge"; "--abort"] wc) as [ra wa].
      cbn. intros [= <- <- <-] Hh.
      rewrite (cons_middle _ h1), (assoc_L (++) h1) in Hh.
      apply (unique_split (λ e, delegation e.1)) in Hh as (-> & Heq & ->).
      * injection Heq as -> -> ->. cbn. rewrite Hm.
        eexists. split; [|split; [done|]].
        { rewrite <-(assoc_L (++)). cbn. reflexivity. }
        split; [done|]. by eexists.
      * solve_no_delegate.
      * solve_no_delegate.
      * by eexists _, _.
    + cbn. intros [= <- <- <-] Hh.
      rewrite (cons_middle _ h1), (assoc_L (++) h1) in Hh.
      apply (unique_split (λ e, delegation e.1)) in Hh as (-> & Heq & ->).
      * injection Heq as -> -> ->. cbn. rewrite Hm.
        eexists. split; [|split; [done|]].
        { rewrite app_nil_r. reflexivity. }
        by split_and!.
      * solve_no_delegate.
      * solve_no_delegate.
      * by eexists _, _.
  - (* no conflict: the delegate is not launched *)
    unfold _git. cbn [argv_of]. rewrite run_print_bind, run_call_bind.
    cbn [exec event_of].
    destruct (subprocess_run _ _) as [ra wa]. cbn.
    intros [= <- <- <-] Hh. exfalso.
    assert (Hall : Forall undelegated
              (h1 ++ [(EPrint ("[ERROR] PR #" +:+ str num +:+ " merge失敗: "
                               +:+ stderr r0), s);
                      (ERun ["git"; "merge"; "--abort"] ra,
                       set_world wa s)])).
    { solve_undelegated. }
    rewrite Hh in Hall. rewrite Forall_app, Forall_cons in Hall.
    destruct Hall as (_ & Hd & _). apply Hd. by eexists _, _.
Qed.

(** X4.  After the delegate has been launched the worker prints what
    the delegate wrote, looks at [MERGE_HEAD] and prints the status line.
    If [MERGE_HEAD] is still there it aborts the merge, releases the lock
    and returns; if it is gone the very next step is the push of main.
    The exit code of the delegate plays no part. *)
Theorem conflict_resolution_outcome pr s o s' h pre prompt r s_c post :
  run (auto_merge_pr pr) s = (o, s', h) →
  h = pre ++ (ERun (claude_argv prompt) r, s_c) :: post →
  ∃ rest,
    post = ((λ line, (EPrint line, s_c)) <$> echoed r)
           ++ (EExists MERGE_HEAD (path_exists MERGE_HEAD (st_world s_c)),
               s_c)
           :: (EPrint (resolve_status
                         (default (VStr "") (pr !! "number"))
                         (path_exists MERGE_HEAD (st_world s_c))), s_c)
           :: rest
    ∧ if path_exists MERGE_HEAD (st_world s_c)
      then o = Returns tt
           ∧ ∃ r_a s_a,
               rest = [(ERun ["git"; "merge"; "--abort"] r_a, s_a);
                       (ERelease, set_locked false s_a)]
               ∧ s' = set_locked false s_a
      else ∃ r_p s_p rest',
             rest = (ERun ["git"; "push"; "origin"; "main"] r_p, s_p)
                    :: rest'.
Proof.
  locate pre s_c post o s'.
  unfold auto_merge_pr. walk.
  repeat match goal with
    | Hg : run (getitem _ _) _ = _ |- _ =>
        apply run_getitem in Hg as (_ & -> & Hg)
    end.
  match goal with Hn : pr !! "number" = Some _ |- _ => rewrite Hn end.
  cbn [default from_option id].
  set (shape := λ (final : history) (post : history) (s_c : store)
                  (rest : history),
         post = ((λ line, (EPrint line, s_c)) <$> echoed r)
                ++ (EExists MERGE_HEAD
                      (path_exists MERGE_HEAD (st_world s_c)), s_c)
                :: (EPrint (resolve_status a
                              (path_exists MERGE_HEAD (st_world s_c))), s_c)
                :: rest ++ final).
  eapply (locates_bind _
    (λ pre s_c post o1 s1,
       if path_exists MERGE_HEAD (st_world s_c)
       then o1 = Returns Return
            ∧ ∃ r_a s_a,
                shape [(ERelease, set_locked false s_a)] post s_c
                  [(ERun ["git"; "merge"; "--abort"] r_a, s_a)]
                ∧ s1 = set_locked false s_a
       else ∃ r_p s_p rest',
              shape [] post s_c
                ((ERun ["git"; "push"; "origin"; "main"] r_p, s_p)
                 :: rest'))).
  - eapply (locates_with_lock _
      (λ pre s_c post o1 s1,
         if path_exists MERGE_HEAD (st_world s_c)
         then o1 = Returns Return
              ∧ ∃ r_a,
                  shape [] post s_c
                    [(ERun ["git"; "merge"; "--abort"] r_a, s1)]
         else ∃ r_p s_p rest',
                shape [] post s_c
                  ((ERun ["git"; "push"; "origin"; "main"] r_p, s_p)
                   :: rest')));
      [apply integrate_lock_free|done|done| |].
    + unfold integrate. walk.
      eapply (locates_bind _
        (λ pre s_c post o1 s1,
           if path_exists MERGE_HEAD (st_world s_c)
           then o1 = Returns Return
                ∧ ∃ r_a,
                    shape [] post s_c
                      [(ERun ["git"; "merge"; "--abort"] r_a, s1)]
           else o1 = Returns Continue ∧ shape [] post s_c [])).
      * intros stx ox stx' hx prex s_e postx Hr Hh.
        destruct (on_merge_failure_delegate _ _ _ _ _ _ _ _ _ _ _ _ Hr Hh)
          as (tail & Hpost & _ & Hcase).
        unfold shape in *.
        destruct (path_exists MERGE_HEAD (st_world s_e)).
        -- destruct Hcase as (-> & r_a & -> & _). split; [done|].
           exists r_a. by rewrite app_nil_r.
        -- destruct Hcase as (-> & -> & ->). split; [done|].
           by rewrite app_nil_r.
      * intros prex s_e postx ox stx oy sty hy Hcase Hc.
        unfold shape in *.
        destruct (path_exists MERGE_HEAD (st_world s_e)).
        -- destruct Hcase as (-> & r_a & Hshape). cbn in Hc.
           injection Hc as <- <- <-. split; [done|]. exists r_a.
           by rewrite app_nil_r.
        -- destruct Hcase as (-> & Hshape). cbn [continue] in Hc.
           erewrite run_git_bind in Hc by reflexivity.
           destruct (subprocess_run _ _) as [r_p w_p].
           destruct (run _ (set_world w_p stx)) as [[oz stz] hz].
           injection Hc as <- <- <-.
           eexists r_p, _, hz. rewrite Hshape.
           by rewrite <-!(assoc_L (++)), !app_nil_r.
      * intros; walk.
    + intros sx prex s_e postx ox stx Hcase _ _.
      unfold shape in *.
      destruct (path_exists MERGE_HEAD (st_world s_e)).
      * destruct Hcase as (-> & r_a & Hshape). split; [done|].
        exists r_a, stx. split; [|done]. rewrite Hshape.
        by rewrite <-!(assoc_L (++)), !app_nil_r.
      * destruct Hcase as (r_p & s_p & rest' & Hshape).
        exists r_p, s_p, (rest' ++ [(ERelease, set_locked false stx)]).
        rewrite Hshape.
        by rewrite <-!(assoc_L (++)), !app_nil_r.
  - intros prex s_e postx ox stx oy sty hy Hcase Hc.
    unfold shape in *.
    destruct (path_exists MERGE_HEAD (st_world s_e)).
    + destruct Hcase as (-> & r_a & s_a & Hshape & ->). cbn in Hc.
      injection Hc as <- <- <-. rewrite app_nil_r.
      eexists. split; [exact Hshape|]. split; [done|].
      by eexists r_a, s_a.
    + destruct Hcase as (r_p & s_p & rest' & Hshape).
      exists ((ERun ["git"; "push"; "origin"; "main"] r_p, s_p)
              :: rest' ++ hy).
      split; [|by eexists _, _, _].
      rewrite Hshape.
      by rewrite <-!(assoc_L (++)), !app_nil_r.
  - intros; walk.
Qed.

(** *** After the push *)

(** X5.  After a successful push of main the worker releases the lock,
    deletes the remote branch, then the local branch, and prints the
    completion line, in this order and whatever the two deletions answer:
    a failed remote deletion adds one warning, a failed local deletion
    adds one unless git says the branch was not found.  The worker
    returns normally. *)
Theorem push_success_completes pr s o s' h pre r s_p post :
  run (auto_merge_pr pr) s = (o, s', h) →
  h = pre ++ (ERun ["git"; "push"; "origin"; "main"] r, s_p) :: post →
  returncode r = 0%Z →
  ∃ num title b r_d s_d r_l s_l,
    pr !! "number" = Some num ∧ pr !! "title" = Some title
    ∧ pr !! "headRefName" = Some (VStr b)
    ∧ post =
        (ERelease, set_locked false s_p)
        :: (ERun (remote_delete b) r_d, s_d)
        :: (if negb (returncode r_d =? 0)%Z
            then [(EPrint ("[WARN] PR #" +:+ str num
                           +:+ " リモートブランチ削除失敗: " +:+ stderr r_d),
                   s_d)]
            else [])
        ++ (ERun (local_delete b) r_l, s_l)
        :: (if negb (returncode r_l =? 0)%Z
               && negb (str_in "not found" (stderr r_l))
            then [(EPrint ("[WARN] PR #" +:+ str num
                           +:+ " ローカルブランチ削除失敗: " +:+ stderr r_l),
                   s_l)]
            else [])
        ++ [(EPrint ("[INFO] PR #" +:+ str num +:+ " マージ完了: "
                     +:+ str title), s_l)]
    ∧ o = Returns tt ∧ s' = s_l.
Proof.
  intros Hrun Hh Hrc. revert Hrun Hh. locate pre s_p post o s'.
  unfold auto_merge_pr. walk.
  repeat match goal with
    | Hg : run (getitem _ _) _ = _ |- _ =>
        apply run_getitem in Hg as (_ & -> & Hg)
    end.
  match goal with
  | Hf : run (_git [VStr "fetch"; VStr "origin"; ?br]) _ = _ |- _ =>
      destruct br as [n|b]; [by cbn in Hf|]
  end.
  eapply (locates_bind _
    (λ pre s_p post o1 s1,
       o1 = Returns Continue
       ∧ post = [(ERelease, set_locked false s_p)]
       ∧ s1 = set_locked false s_p)).
  - eapply (locates_with_lock _
      (λ pre s_p post o1 s1,
         o1 = Returns Continue ∧ post = [] ∧ s1 = s_p));
      [apply integrate_lock_free|done|done| |].
    + unfold integrate. walk.
      apply locates_call; [|intros; walk].
      intros st x st1 o' st' h' Hx [= ->] Hr.
      apply Z.eqb_eq in Hrc. rewrite Hrc in Hr. cbn in Hr.
      by injection Hr as <- <- <-.
    + by intros ? ? ? ? ? ? (-> & -> & ->) _ _.
  - intros prex s_e postx ox stx oy sty hy (-> & -> & ->) Hc.
    cbn [continue] in Hc.
    erewrite run_git_bind in Hc by reflexivity.
    cbn [st_world set_locked] in Hc.
    destruct (subprocess_run _ (st_world s_e)) as [r_d w_d].
    rewrite run_bind in Hc.
    destruct (run (if negb (returncode r_d =? 0)%Z then _ else _) _)
      as [[oa sa] ha] eqn:Ea.
    assert (oa = Returns tt ∧ sa = set_world w_d (set_locked false s_e) ∧
            ha = if negb (returncode r_d =? 0)%Z
                 then [(EPrint ("[WARN] PR #" +:+ str a
                                +:+ " リモートブランチ削除失敗: "
                                +:+ stderr r_d),
                        set_world w_d (set_locked false s_e))]
                 else []) as (-> & -> & ->).
    { revert Ea. destruct (negb (returncode r_d =? 0)%Z); cbn; intros;
        by simplify_eq. }
    cbn [continue] in Hc.
    erewrite run_git_bind in Hc by reflexivity.
    destruct (subprocess_run _ _) as [r_l w_l].
    rewrite run_bind in Hc.
    destruct (run (if _ && _ then _ else _) _) as [[ob sb] hb] eqn:Eb.
    assert (ob = Returns tt
            ∧ sb = set_world w_l (set_world w_d (set_locked false s_e))
            ∧ hb = if negb (returncode r_l =? 0)%Z
                      && negb (str_in "not found" (stderr r_l))
                   then [(EPrint ("[WARN] PR #" +:+ str a
                                  +:+ " ローカルブランチ削除失敗: "
                                  +:+ stderr r_l),
                          set_world w_l
                            (set_world w_d (set_locked false s_e)))]
                   else []) as (-> & -> & ->).
    { revert Eb. destruct (_ && _); cbn; intros; by simplify_eq. }
    cbn in Hc. injection Hc as <- <- <-.
    eexists a, a1, b, r_d, _, r_l, _. by split_and!.
  - intros; walk.
Qed.

(** The block after a failed merge lets the worker go on only when the
    delegate has left no merge in progress. *)
Lemma on_merge_failure_continue num title r0 s s' h :
  run (on_merge_failure num title r0) s = (Returns Continue, s', h) →
  [(EExists MERGE_HEAD false, s'); (EPrint (resolve_status num false), s')]
    `suffix_of` h
  ∧ Exists (λ e, delegation e.1) h.
Proof.
  unfold on_merge_failure. rewrite run_bind.
  destruct (run (if str_in "CONFLICT" (stdout r0) then _ else _) s)
    as [[o1 s1] h1] eqn:E1.
  assert (s1 = s ∧ ∃ b, o1 = Returns b) as (-> & b & ->).
  { revert E1. unfold _is_merge_in_progress.
    destruct (str_in "CONFLICT" (stdout r0));
      [|destruct (str_in "Automatic merge failed" (stderr r0))];
      cbn; intros [= <- <- <-]; (split; [done|by eexists]). }
  cbn [continue]. destruct b; cbn [negb].
  - rewrite run_bind, run_resolve. cbn zeta.
    destruct (subprocess_run _ (st_world s)) as [rc wc].
    cbn [continue].
    destruct (path_exists MERGE_HEAD wc) eqn:Hm; cbn [negb].
    + unfold _git. cbn [argv_of]. rewrite run_call_bind. cbn [exec].
      destruct (subprocess_run _ _) as [ra wa]. cbn. by intros [= <- <-].
    + cbn. intros [= <- <-]. split.
      * rewrite app_nil_r.
        apply suffix_app_r. do 2 apply suffix_cons_r. apply suffix_app_r.
        done.
      * apply Exists_app. right. apply Exists_cons_tl, Exists_cons_hd.
        by eexists _, _.
  - unfold _git. cbn [argv_of]. rewrite run_print_bind, run_call_bind.
    cbn [exec]. destruct (subprocess_run _ _) as [ra wa]. cbn.
    by intros [= <- <-].
Qed.

(** The block under the lock falls through to cleanup only after a
    successful push of main. *)
Lemma integrate_continue num branch title s s' h :
  run (integrate num branch title) s = (Returns Continue, s', h) →
  ∃ r_p, last h = Some (ERun ["git"; "push"; "origin"; "main"] r_p, s')
         ∧ returncode r_p = 0%Z.
Proof.
  unfold integrate. erewrite run_git_bind by reflexivity.
  destruct (subprocess_run _ (st_world s)) as [r1 w1].
  destruct (negb (returncode r1 =? 0)%Z); [by cbn; intros [= <- <-]|].
  erewrite run_git_bind by reflexivity.
  destruct (subprocess_run _ _) as [r2 w2].
  rewrite run_bind.
  destruct (run (if negb (returncode r2 =? 0)%Z then _ else _) _)
    as [[o1 s1] h1].
  destruct o1 as [[]| |]; cbn [continue];
    [|by cbn; intros [= <- <-]..].
  erewrite run_git_bind by reflexivity.
  destruct (subprocess_run _ (st_world s1)) as [r3 w3].
  destruct (returncode r3 =? 0)%Z eqn:Hz; cbn; [|by intros [= <- <-]].
  intros [= <- <-]. exists r3. split; [|by apply Z.eqb_eq].
  rewrite !app_comm_cons. apply last_snoc.
Qed.

(** X6.  Main is pushed only right after a merge that succeeded, or
    after a delegate run that left no [MERGE_HEAD] behind; and the remote
    branch is deleted only right after a successful push of main and the
    release of the lock. *)
Theorem publish_only_after_merge pr s o s' h :
  run (auto_merge_pr pr) s = (o, s', h) →
  (∀ pre r s_p post,
     h = pre ++ (ERun ["git"; "push"; "origin"; "main"] r, s_p) :: post →
     (∃ args r_m s_m,
        [(ERun ("git" :: "merge" :: "--no-ff" :: args) r_m, s_m)]
          `suffix_of` pre
        ∧ returncode r_m = 0%Z)
     ∨ (∃ s_x,
          [(EExists MERGE_HEAD false, s_x);
           (EPrint (resolve_status (default (VStr "") (pr !! "number"))
                      false), s_x)] `suffix_of` pre
          ∧ Exists (λ e, delegation e.1) pre))
  ∧ (∀ pre b r s_d post,
       h = pre ++ (ERun (remote_delete b) r, s_d) :: post →
       ∃ r_p s_p,
         [(ERun ["git"; "push"; "origin"; "main"] r_p, s_p);
          (ERelease, set_locked false s_p)] `suffix_of` pre
         ∧ returncode r_p = 0%Z).
Proof.
  intros Hrun. split.
  - intros pre r s_p post. revert Hrun. locate pre s_p post o s'.
    unfold auto_merge_pr. walk.
    repeat match goal with
      | Hg : run (getitem _ _) _ = _ |- _ =>
          apply run_getitem in Hg as (_ & -> & Hg)
      end.
    match goal with Hn : pr !! "number" = Some _ |- _ => rewrite Hn end.
    cbn [default from_option id].
    set (goal := λ pre : history,
      (∃ args r_m s_m,
         [(ERun ("git" :: "merge" :: "--no-ff" :: args) r_m, s_m)]
           `suffix_of` pre
         ∧ returncode r_m = 0%Z)
      ∨ (∃ s_x,
           [(EExists MERGE_HEAD false, s_x);
            (EPrint (resolve_status a false), s_x)] `suffix_of` pre
           ∧ Exists (λ e, delegation e.1) pre)).
    assert (Hgrow : ∀ k pre, goal pre → goal (k ++ pre)).
    { intros k pre0 [(args & r_m & s_m & Hs & Hz)|(s_x & Hs & Hd)];
        [left|right].
      - eexists args, r_m, s_m. split; [by apply suffix_app_r|done].
      - exists s_x. split; [by apply suffix_app_r|].
        apply Exists_app. by right. }
    eapply (locates_bind _ (λ pre _ _ _ _, goal pre)).
    + eapply (locates_with_lock _ (λ pre _ _ _ _, goal pre));
        [apply integrate_lock_free|done|done| |].
      * unfold integrate. walk.
        apply locates_call; [|intros; walk].
        intros st x st1 o' st' h' Hx [= ->] Hr.
        rewrite ?app_nil_r.
        match goal with
        | Hm : run (_git (VStr "merge" :: _)) _ = _ |- _ =>
            eapply run_git_inv in Hm as (r_m & [= <-] & -> & _ & _);
              [|reflexivity]
        end.
        match goal with
        | Hc : run (if negb (returncode ?rm =? 0)%Z
                    then on_merge_failure _ _ _ else _) _ = _
          |- _ => destruct (returncode rm =? 0)%Z eqn:Hz; cbn [negb] in Hc
        end.
        -- match goal with
           | Hc : run (Ret Continue) _ = _ |- _ =>
               cbn in Hc; injection Hc as ? ?; subst
           end.
           rewrite ?app_nil_r. apply Hgrow. left.
           eexists _, _, _. split; [by exists []|]. by apply Z.eqb_eq.
        -- match goal with
           | Hc : run (on_merge_failure _ _ _) _ = _ |- _ =>
               apply on_merge_failure_continue in Hc as [Hs Hd]
           end.
           apply Hgrow. right. eexists. split.
           ++ by apply suffix_app_r.
           ++ apply Exists_app. by right.
      * intros sx prex s_e postx ox stx Hg _ _.
        by apply (Hgrow [_]).
    + intros prex s_e postx ox stx oy sty hy Hg _.
      by repeat apply Hgrow.
    + intros; walk.
  - intros pre b r s_d post. revert Hrun. locate pre s_d post o s'.
    unfold auto_merge_pr, remote_delete. walk.
    apply locates_call; [|intros; walk].
    intros st x st1 o' st' h' Hx [= -> ->] Hr.
    rewrite app_nil_r.
    match goal with
    | Hl : run (with_lock _) _ = _ |- _ =>
        apply run_with_lock_inv in Hl
          as [(? & _)|(sb & hb & Hb & -> & -> & _)];
          [done| |apply integrate_lock_free]
    end.
    apply integrate_continue in Hb as (r_p & Hlast & Hz).
    apply last_Some in Hlast as [hb' ->].
    exists r_p, sb. split; [|done].
    repeat apply suffix_app_r. apply suffix_cons_r.
    rewrite <-(assoc_L (++)). by apply suffix_app_r.
Qed.

(** X17.  A merge that returns 0 is followed at once by the push of
    main, still under the lock: no look at [MERGE_HEAD], no delegate, no
    message in between. *)
Theorem merge_success_pushes pr s o s' h pre args r s_m post :
  run (auto_merge_pr pr) s = (o, s', h) →
  h = pre ++ (ERun ("git" :: "merge" :: "--no-ff" :: args) r, s_m) :: post →
  returncode r = 0%Z →
  ∃ r_p s_p post',
    post = (ERun ["git"; "push"; "origin"; "main"] r_p, s_p) :: post'
    ∧ st_locked s_p = st_locked s_m.
Proof.
  intros Hrun Hh Hrc. revert Hrun Hh. locate pre s_m post o s'.
  unfold auto_merge_pr. walk.
  set (goal := λ (post : history) (s_m : store),
    ∃ r_p s_p post',
      post = (ERun ["git"; "push"; "origin"; "main"] r_p, s_p) :: post'
      ∧ st_locked s_p = st_locked s_m).
  assert (Hgrow : ∀ post s_m k, goal post s_m → goal (post ++ k) s_m).
  { intros post0 sm0 k (r_p & s_p & post' & -> & Hl).
    by exists r_p, s_p, (post' ++ k). }
  eapply (locates_bind _ (λ _ s_m post _ _, goal post s_m)).
  - eapply (locates_with_lock _ (λ _ s_m post _ _, goal post s_m));
      [apply integrate_lock_free|done|done| |].
    + unfold integrate. walk.
      apply locates_call; [|intros; walk].
      intros st x st1 o' st' h' Hx [= <- ->] Hr.
      apply Z.eqb_eq in Hrc. rewrite Hrc in Hr. cbn [negb] in Hr.
      rewrite ?bind_ret in Hr. rewrite run_call_bind in Hr.
      cbn [exec event_of] in Hr.
      destruct (subprocess_run _ (st_world st1)) as [r_p w_p].
      destruct (run _ (set_world w_p st1)) as [[oz stz] hz].
      injection Hr as <- <- <-. by eexists r_p, _, hz.
    + intros sx prex s_e postx ox stx Hg _ _. by apply Hgrow.
  - intros prex s_e postx ox stx oy sty hy Hg _. by apply Hgrow.
  - intros; walk.
Qed.

(** *** One turn of the loop *)

Lemma number_of_Some pr : is_Some (pr !! "number") →
  pr !! "number" = Some (number_of pr).
Proof. intros [num Hn]. unfold number_of. by rewrite Hn. Qed.

Lemma title_of_Some pr : is_Some (pr !! "title") →
  pr !! "title" = Some (title_of pr).
Proof. intros [t Ht]. unfold title_of. by rewrite Ht. Qed.

Lemma run_select_new_exact prs s :
  Forall (λ pr, is_Some (pr !! "number")) prs →
  run (select_new prs) s =
    (Returns (List.filter (unregistered (st_processed s)) prs), s,
     (λ pr, (EContains (number_of pr)
               (bool_decide (number_of pr ∈ st_processed s)), s)) <$> prs).
Proof.
  induction 1 as [|pr rest Hn%number_of_Some _ IH]; [done|].
  cbn [select_new]. unfold getitem. rewrite Hn. cbn beta iota.
  rewrite bind_ret, run_call_bind. cbn [exec event_of].
  rewrite run_bind, IH. cbn -[number_of bool_decide].
  rewrite app_nil_r. unfold unregistered.
  by destruct (bool_decide (number_of pr ∈ st_processed s)).
Qed.

Lemma run_submit_all_exact new s :
  Forall well_formed new →
  ∃ s' h,
    run (submit_all new) s = (Returns tt, s', h)
    ∧ events h = new ≫= queued
    ∧ st_processed s' = list_to_set (number_of <$> new) ∪ st_processed s
    ∧ st_world s' = st_world s ∧ st_locked s' = st_locked s.
Proof.
  intros Hnew. revert s.
  induction Hnew as [|pr rest [Hn%number_of_Some Ht%title_of_Some] _ IH];
    intros s.
  { eexists _, _. split; [done|]. cbn. split_and!; try done. set_solver. }
  destruct (IH (add_processed (number_of pr) s))
    as (s' & h & Hr & Hev & Hp & Hw & Hl).
  cbn [submit_all]. unfold getitem. rewrite Hn, Ht. cbn beta iota.
  rewrite bind_ret, run_call_bind. cbn [exec event_of].
  rewrite run_call_bind. cbn [exec event_of].
  rewrite !bind_ret, run_print_bind, Hr.
  eexists _, _. split; [done|].
  cbn -[number_of title_of]. unfold events in Hev.
  rewrite Hev, Hp, Hw, Hl. split_and!; try done.
  cbn -[number_of]. set_solver.
Qed.

Lemma Forall_List_filter {X} (P : X → Prop) (f : X → bool) (l : list X) :
  Forall P l → Forall P (List.filter f l).
Proof.
  induction 1 as [|x l Hx _ IH]; cbn; [done|].
  destruct (f x); [by constructor|done].
Qed.

(** X7.  One turn of the loop on a listing that decodes to records
    which all have a number and a title: the listing, one membership test
    per listed record in listing order, then for each record whose number
    is not registered, in listing order, the [add] of its number, its
    submission and its queue line (or the idle line when there is none),
    then the sleep; after the turn the registry has grown by exactly the
    numbers of the submitted records, the lock is as it was, and the loop
    goes on with the next turn. *)
Theorem poll_cycle_submits_unregistered n s r w prs :
  subprocess_run gh_argv (st_world s) = (r, w) →
  returncode r = 0%Z →
  json_loads (stdout r) = Some prs →
  Forall well_formed prs →
  ∃ new s1 h1,
    new = List.filter (unregistered (st_processed s)) prs
    ∧ run (main_loop (S n)) s =
        (let '(o, s', h) := run (main_loop n) s1 in (o, s', h1 ++ h))
    ∧ events h1 = cycle_events r (st_processed s) prs new
    ∧ st_processed s1 = list_to_set (number_of <$> new) ∪ st_processed s
    ∧ st_world s1 = w ∧ st_locked s1 = st_locked s.
Proof.
  intros Hrun Hrc Hjson Hwf.
  exists (List.filter (unregistered (st_processed s)) prs).
  assert (Hnum : Forall (λ pr, is_Some (pr !! "number")) prs).
  { eapply Forall_impl; [done|]. by intros pr []. }
  pose proof (Forall_List_filter _ (unregistered (st_processed s)) _ Hwf)
    as Hnew.
  cbn [main_loop]. unfold poll_once. rewrite !run_bind.
  rewrite run_get_open_prs, Hrun. cbn zeta. rewrite Hrc, Hjson.
  cbn [Z.eqb negb continue].
  rewrite !run_bind, (run_select_new_exact prs (set_world w s) Hnum).
  cbn [continue st_processed set_world].
  set (asked := (λ pr, (EContains (number_of pr)
                          (bool_decide (number_of pr ∈ st_processed s)),
                        set_world w s)) <$> prs).
  destruct (List.filter (unregistered (st_processed s)) prs)
    as [|pr new] eqn:Hf.
  - rewrite run_print_bind. cbn [run call exec event_of continue].
    exists (set_world w s),
      ((ERun gh_argv r, set_world w s) :: asked
       ++ [(EPrint idle_line, set_world w s);
           (ESleep POLL_INTERVAL_SEC, set_world w s)]).
    split; [done|]. split.
    { destruct (run (main_loop n) (set_world w s)) as [[o2 s2] h2].
      reflexivity. }
    split_and!; try done.
    + unfold cycle_events, events, asked.
      rewrite !fmap_cons, !fmap_app, <-!list_fmap_compose. done.
    + cbn. set_solver.
  - destruct (run_submit_all_exact (pr :: new) (set_world w s) Hnew)
      as (s1 & h1 & Hr1 & Hev & Hp & Hw & Hl).
    rewrite run_bind, Hr1. cbn [run call exec event_of continue].
    exists s1,
      ((ERun gh_argv r, set_world w s) :: asked ++ h1
       ++ [(ESleep POLL_INTERVAL_SEC, s1)]).
    split; [done|]. split.
    { destruct (run (main_loop n) s1) as [[o2 s2] h2].
      cbn [app]. by rewrite <-!(assoc_L (++)). }
    split_and!; try done.
    unfold cycle_events, events, asked in *.
    rewrite !fmap_cons, !fmap_app, <-!list_fmap_compose, Hev. done.
Qed.

(** *** Listings that are not what the loop expects *)

(** X8.  When [gh pr list] succeeds but prints what [json.loads]
    rejects, the decoding error ends the loop at once: the listing is the
    only event of the turn, nothing is submitted, no later turn runs. *)
Theorem listing_decode_failure_stops_poller n s r w :
  subprocess_run gh_argv (st_world s) = (r, w) →
  returncode r = 0%Z →
  json_loads (stdout r) = None →
  run (main_loop (S n)) s =
    (Raises JSONDecodeError, set_world w s,
     [(ERun gh_argv r, set_world w s)]).
Proof.
  intros Hrun Hrc Hjson.
  cbn [main_loop]. unfold poll_once. rewrite !run_bind.
  rewrite run_get_open_prs, Hrun. cbn zeta. by rewrite Hrc, Hjson.
Qed.

Lemma run_select_new_no_number prs s :
  Exists (λ pr, pr !! "number" = None) prs →
  ∃ h, run (select_new prs) s = (Raises (KeyError "number"), s, h)
       ∧ Forall (λ e, ∃ v b, e.1 = EContains v b) h.
Proof.
  induction prs as [|pr rest IH]; intros Hex; [by apply Exists_nil in Hex|].
  cbn [select_new]. unfold getitem.
  destruct (pr !! "number") as [num|] eqn:Hn; cbn beta iota.
  - apply Exists_cons in Hex as [Hex|Hex]; [congruence|].
    destruct (IH Hex) as (h & Hr & Hall).
    rewrite bind_ret, run_call_bind. cbn [exec event_of].
    rewrite run_bind, Hr. cbn. eexists. split; [done|].
    rewrite app_nil_r. constructor; [by eexists _, _|done].
  - exists []. by split.
Qed.

(** X9.  A listed record without a [number] ends the loop with
    [KeyError] while the new records are being selected: after the
    listing there are membership tests only, so nothing of that listing
    is registered or submitted, whatever else it holds. *)
Theorem record_without_number_stops_poller n s r w prs :
  subprocess_run gh_argv (st_world s) = (r, w) →
  returncode r = 0%Z →
  json_loads (stdout r) = Some prs →
  Exists (λ pr, pr !! "number" = None) prs →
  ∃ h, run (main_loop (S n)) s =
         (Raises (KeyError "number"), set_world w s,
          (ERun gh_argv r, set_world w s) :: h)
       ∧ Forall (λ e, ∃ v b, e.1 = EContains v b) h.
Proof.
  intros Hrun Hrc Hjson Hex.
  destruct (run_select_new_no_number prs (set_world w s) Hex)
    as (h & Hr & Hall).
  exists h. split; [|done].
  cbn [main_loop]. unfold poll_once. rewrite !run_bind.
  rewrite run_get_open_prs, Hrun. cbn zeta. rewrite Hrc, Hjson.
  cbn [Z.eqb negb continue]. rewrite !run_bind, Hr. cbn.
  by rewrite !app_nil_r.
Qed.

Lemma run_submit_all_no_title ok pr later s :
  Forall well_formed ok →
  is_Some (pr !! "number") → pr !! "title" = None →
  ∃ s' h,
    run (submit_all (ok ++ pr :: later)) s = (Raises (KeyError "title"), s', h)
    ∧ events h = (ok ≫= queued) ++ [EAdd (number_of pr); ESubmit pr]
    ∧ st_processed s'
      = list_to_set (number_of <$> ok ++ [pr]) ∪ st_processed s.
Proof.
  intros Hok Hn%number_of_Some Ht. revert s.
  induction Hok as [|p rest [Hpn%number_of_Some Hpt%title_of_Some] _ IH];
    intros s.
  - cbn [app submit_all]. unfold getitem. rewrite Hn, Ht. cbn beta iota.
    rewrite bind_ret, run_call_bind. cbn [exec event_of].
    rewrite run_call_bind. cbn [exec event_of].
    eexists _, _. split; [done|]. split; [done|].
    cbn -[number_of]. set_solver.
  - destruct (IH (add_processed (number_of p) s)) as (s' & h & Hr & Hev & Hp).
    cbn [app submit_all]. unfold getitem. rewrite Hpn, Hpt. cbn beta iota.
    rewrite bind_ret, run_call_bind. cbn [exec event_of].
    rewrite run_call_bind. cbn [exec event_of].
    rewrite !bind_ret, run_print_bind, Hr.
    eexists _, _. split; [done|].
    cbn -[number_of title_of]. unfold events in Hev. rewrite Hev, Hp.
    split; [done|]. cbn -[number_of]. set_solver.
Qed.

(** X10.  A new record without a [title] is registered and submitted
    all the same, and only then ends the loop with [KeyError], at its
    queue line: the new records listed before it have been queued in
    full, those listed after it are neither registered nor submitted. *)
Theorem record_without_title_stops_poller n s r w prs ok pr later :
  subprocess_run gh_argv (st_world s) = (r, w) →
  returncode r = 0%Z →
  json_loads (stdout r) = Some prs →
  Forall (λ pr, is_Some (pr !! "number")) prs →
  List.filter (unregistered (st_processed s)) prs = ok ++ pr :: later →
  Forall well_formed ok →
  pr !! "title" = None →
  ∃ s' h,
    run (main_loop (S n)) s = (Raises (KeyError "title"), s', h)
    ∧ events h =
        ERun gh_argv r
        :: ((λ pr, EContains (number_of pr)
                     (bool_decide (number_of pr ∈ st_processed s))) <$> prs)
        ++ (ok ≫= queued) ++ [EAdd (number_of pr); ESubmit pr]
    ∧ st_processed s'
      = list_to_set (number_of <$> ok ++ [pr]) ∪ st_processed s.
Proof.
  intros Hrun Hrc Hjson Hnum Hf Hok Ht.
  assert (Hn : is_Some (pr !! "number")).
  { pose proof (Forall_List_filter _ (unregistered (st_processed s)) _ Hnum)
      as Hsel.
    rewrite Hf in Hsel. apply Forall_app in Hsel as [_ Hsel].
    by apply Forall_cons in Hsel as [? _]. }
  destruct (run_submit_all_no_title ok pr later (set_world w s) Hok Hn Ht)
    as (s' & h & Hr & Hev & Hp).
  cbn [main_loop]. unfold poll_once. rewrite !run_bind.
  rewrite run_get_open_prs, Hrun. cbn zeta. rewrite Hrc, Hjson.
  cbn [Z.eqb negb continue].
  rewrite !run_bind, (run_select_new_exact prs (set_world w s) Hnum).
  cbn [continue st_processed set_world]. rewrite Hf.
  destruct (ok ++ pr :: later) as [|p0 l0] eqn:Hl; [by destruct ok|].
  rewrite run_bind, Hr. cbn [continue].
  eexists _, _. split; [done|]. split; [|done].
  unfold events in *.
  rewrite !app_nil_r. cbn [app].
  rewrite !fmap_cons, !fmap_app, <-!list_fmap_compose, Hev.
  done.
Qed.

(** *** Listings and sleeps *)

(** The rest of a turn of the loop, after the listing. *)
Lemma run_after_listing prs s o s' h :
  run (select_new prs ≫= λ new_prs,
       match new_prs return prog unit with
       | [] => print ("[INFO] 未処理PRなし - " +:+ pretty POLL_INTERVAL_SEC
                      +:+ "秒後に再確認")
       | _ => submit_all new_prs
       end ≫= λ _, call (Sleep POLL_INTERVAL_SEC)) s = (o, s', h) →
  Forall (λ e, ¬ is_listing e) h
  ∧ (∀ a, o = Returns a →
       ∃ rest, h = rest ++ [(ESleep POLL_INTERVAL_SEC, s')]).
Proof.
  rewrite run_bind.
  destruct (run (select_new prs) s) as [[o1 s1] h1] eqn:E1.
  destruct (run_select_new _ _ _ _ _ E1) as (-> & Hall & Ho).
  assert (Hh1 : Forall (λ e, ¬ is_listing e) h1).
  { eapply Forall_impl; [done|]. naive_solver. }
  destruct o1 as [new_prs| |]; cbn [continue];
    [|intros [= <- <- <-]; by rewrite app_nil_r..].
  destruct Ho as [Hnew _]. rewrite run_bind.
  destruct (run (match new_prs return prog unit with
                 | [] => _ | _ => _ end) s) as [[o2 s2] h2] eqn:E2.
  assert (Hh2 : Forall (λ e, ¬ is_listing e) h2).
  { destruct new_prs as [|pr rest].
    - cbn in E2. injection E2 as <- <- <-.
      repeat constructor. intros [? [=]].
    - by destruct (run_submit_all _ _ _ _ _ _ Hnew E2) as (_ & _ & ?). }
  destruct o2 as [[]| |]; cbn; intros [= <- <- <-].
  - split.
    + rewrite !Forall_app. split_and!; [done..|].
      repeat constructor. intros [? [=]].
    + intros _ _. exists (h1 ++ h2). by rewrite <-(assoc_L (++)).
  - rewrite app_nil_r, Forall_app. by split_and!.
  - rewrite app_nil_r, Forall_app. by split_and!.
Qed.

Lemma run_poll_once_shape s o s' h :
  run poll_once s = (o, s', h) →
  ∃ r s_r rest,
    h = (ERun gh_argv r, s_r) :: rest
    ∧ Forall (λ e, ¬ is_listing e) rest
    ∧ (∀ a, o = Returns a →
         ∃ rest', rest = rest' ++ [(ESleep POLL_INTERVAL_SEC, s')]).
Proof.
  unfold poll_once. rewrite run_bind, run_get_open_prs.
  destruct (subprocess_run gh_argv (st_world s)) as [r w]. cbn zeta.
  destruct (negb (returncode r =? 0)%Z);
    [|destruct (json_loads (stdout r)) as [prs|]]; cbn [continue].
  - destruct (run _ (set_world w s)) as [[o2 s2] h2] eqn:E2.
    intros [= <- <- <-].
    apply run_after_listing in E2 as [Hall Hend].
    eexists r, _, _. split; [done|]. split.
    + constructor; [intros [? [=]]|done].
    + intros a Ha. destruct (Hend a Ha) as [rest' ->].
      by exists ((EPrint ("[ERROR] gh pr list 失敗: " +:+ stderr r),
                  set_world w s) :: rest').
  - destruct (run _ (set_world w s)) as [[o2 s2] h2] eqn:E2.
    intros [= <- <- <-].
    apply run_after_listing in E2 as [Hall Hend].
    by eexists r, _, _.
  - intros [= <- <- <-]. eexists r, _, _. by split_and!.
Qed.

Lemma listing_in_main_loop n s o s' h pre r s_l post :
  run (main_loop n) s = (o, s', h) →
  h = pre ++ (ERun gh_argv r, s_l) :: post →
  pre = [] ∨ ∃ pre' s_z, pre = pre' ++ [(ESleep POLL_INTERVAL_SEC, s_z)].
Proof.
  revert s o s' h pre. induction n as [|n IH]; intros s o s' h pre.
  { cbn. intros [= <- <- <-]. by destruct pre. }
  cbn [main_loop]. rewrite run_bind.
  destruct (run poll_once s) as [[o1 s1] h1] eqn:E1.
  destruct (run_poll_once_shape _ _ _ _ E1)
    as (r1 & s_r & rest & -> & Hrest & Hend).
  destruct (continue _ o1 s1) as [[o2 s2] h2] eqn:E2.
  intros [= <- <- <-] Hh.
  destruct pre as [|e0 pre]; [by left|right].
  injection Hh as <- Hh.
  apply app_eq_inv in Hh as [(k & -> & Hk)|(k & -> & Hk)].
  - destruct k as [|e1 k]; cbn in Hk.
    + subst h2. rewrite app_nil_r in *.
      destruct o1 as [[]| |]; cbn in E2; [|by simplify_eq..].
      destruct (Hend _ eq_refl) as [rest' ->].
      exists ((ERun gh_argv r1, s_r) :: rest'), s1. done.
    + injection Hk as <- ->. exfalso.
      rewrite Forall_app, Forall_cons in Hrest.
      destruct Hrest as (_ & Hno & _). apply Hno. by eexists.
  - destruct o1 as [[]| |]; cbn in E2; [|by destruct k; simplify_eq..].
    destruct (Hend _ eq_refl) as [rest' ->].
    destruct (IH _ _ _ _ _ E2 Hk) as [->|(pre' & s_z & ->)].
    + rewrite app_nil_r.
      by exists ((ERun gh_argv r1, s_r) :: rest'), s1.
    + exists ((ERun gh_argv r1, s_r)
              :: (rest' ++ [(ESleep POLL_INTERVAL_SEC, s1)]) ++ pre'), s_z.
      cbn. by rewrite <-!(assoc_L (++)).
Qed.

(** X11.  Every [gh pr list] of a run of [main] is either the first
    thing after the five banner lines or comes right after a sleep of
    [POLL_INTERVAL_SEC] seconds: the loop never lists twice without
    sleeping in between, also after a failed listing. *)
Theorem listing_follows_sleep cycles s o s' h pre r s_l post :
  run (main cycles) s = (o, s', h) →
  h = pre ++ (ERun gh_argv r, s_l) :: post →
  pre = (λ line, (EPrint line, s)) <$> banner_lines
  ∨ ∃ pre' s_z, pre = pre' ++ [(ESleep POLL_INTERVAL_SEC, s_z)].
Proof.
  unfold main. rewrite run_bind. unfold banner.
  rewrite !run_print_bind, run_print. cbn [continue].
  destruct (run (main_loop cycles) s) as [[o2 s2] h2] eqn:E2.
  intros [= <- <- <-] Hh. cbn [app] in Hh.
  do 5 (destruct pre as [|? pre]; [by simplify_eq|injection Hh as <- Hh]).
  destruct (listing_in_main_loop _ _ _ _ _ _ _ _ _ E2 Hh)
    as [->|(pre' & s_z & ->)]; [by left|right].
  by eexists (_ :: _ :: _ :: _ :: _ :: pre'), s_z.
Qed.

(** *** The registry and the submissions *)







(** *** Every reachable state *)

Lemma reachable_ind (Φ : machine → Prop) cycles w :
  Φ (boot cycles w) →
  (∀ t m m', invariant m → Φ m → step t m = Some m' → Φ m') →
  ∀ sched, Φ (run_schedule sched (boot cycles w)).
Proof.
  intros Hboot Hstep sched.
  enough (Hgen : ∀ m, invariant m → Φ m → Φ (run_schedule sched m)).
  { apply Hgen; [apply invariant_boot|done]. }
  induction sched as [|t sched IH]; intros m Hinv Hm; [done|].
  rewrite run_schedule_cons.
  destruct (perform_step m t) as [(m' & Hs & ->)|[_ ->]].
  - apply IH; [by eapply invariant_step|by eapply Hstep].
  - by apply IH.
Qed.

Lemma window_after_lock_free {X} (c : cmd X) x held :
  lock_effect c = None → window_after held (event_of c x) = held.
Proof. by destruct c. Qed.

(** A thread whose next command is not [Acquire] on a taken lock can
    move. *)
Lemma advance_is_Some {A} (p : prog A) s held :
  disciplined held p →
  held = true ∨ st_locked s = false ∨ commands lock_free p →
  finished p ∨ is_Some (advance p s).
Proof.
  destruct p as [a|e|X c k]; [by left..|]. intros Hd Hfree. right. cbn.
  destruct (exec c s) as [x s1| |] eqn:Hx; [by eexists..|].
  exfalso. destruct c; cbn in *; try done.
  - by destruct (subprocess_run _ _).
  - destruct Hd as [-> _]. destruct (st_locked s) eqn:Hl; [|done].
    by destruct Hfree as [|[|[]]].
  - by destruct (st_locked s).
Qed.

(** The poller keeps away from the lock. *)
Lemma poller_lock_free cycles w sched :
  commands lock_free (m_poller (run_schedule sched (boot cycles w)))
  ∧ in_window Poller (m_trace (run_schedule sched (boot cycles w))) = false.
Proof.
  apply (reachable_ind
    (λ m, commands lock_free (m_poller m)
          ∧ in_window Poller (m_trace m) = false)).
  { split; [|done]. by apply poller_commands. }
  intros t m m' Hinv [Hc Hw] Hstep. destruct t as [|i]; cbn in Hstep.
  - destruct (advance (m_poller m) (m_store m)) as [[[p s] evs]|] eqn:Hadv;
      [|done]. injection Hstep as <-. cbn [m_poller m_trace].
    destruct (advance_commands _ _ _ _ _ _ Hc Hadv) as [Hc' Hevs].
    split; [done|].
    destruct (advance_disciplined _ _ _ _ _ _ (inv_poller _ Hinv)
                ltac:(by rewrite Hw) Hadv) as (ev & -> & _).
    destruct (Hevs ev) as (X & c & x & Hfree & ->);
      [by apply list_elem_of_singleton|].
    change (pair Poller <$> [event_of c x]) with [(Poller, event_of c x)].
    by rewrite in_window_self, window_after_lock_free.
  - destruct (m_pool m !! i) as [[pr p0]|] eqn:Hl; [|done].
    destruct (advance p0 (m_store m)) as [[[p s] evs]|] eqn:Hadv; [|done].
    injection Hstep as <-. cbn [m_poller m_trace]. split; [done|].
    destruct (inv_workers _ Hinv _ _ _ Hl) as (Hd0 & _).
    destruct (advance_disciplined _ _ _ _ _ _ Hd0
                ltac:(intros Hin; apply (inv_lock _ Hinv); by eexists) Hadv)
      as (ev & -> & _).
    change (pair (Worker i) <$> [ev]) with [(Worker i, ev)].
    by rewrite in_window_other.
Qed.

(** X13.  Under every schedule the poller is outside every lock
    window and is never held up: unless it has ended, it can take its
    next step, whatever the workers are doing. *)
Theorem poller_never_waits cycles w sched :
  let m := run_schedule sched (boot cycles w) in
  in_window Poller (m_trace m) = false
  ∧ (finished (m_poller m) ∨ is_Some (step Poller m)).
Proof.
  intros m. destruct (poller_lock_free cycles w sched) as [Hc Hw].
  fold m in Hc, Hw. split; [done|].
  pose proof (invariant_run sched _ (invariant_boot cycles w)) as Hinv.
  fold m in Hinv.
  destruct (advance_is_Some (m_poller m) (m_store m) _ (inv_poller _ Hinv))
    as [|[[[p s] evs] Hadv]]; [by auto|by left|right].
  cbn. rewrite Hadv. by eexists.
Qed.

(** X14.  Under every schedule the lock is never left behind: a future
    that has ended, by returning or by raising, is outside its window,
    and whenever the lock is taken it is held by a future of the pool
    that has not ended. *)
Theorem lock_never_left_behind cycles w sched :
  let m := run_schedule sched (boot cycles w) in
  (∀ i pr p, m_pool m !! i = Some (pr, p) → finished p →
     in_window (Worker i) (m_trace m) = false)
  ∧ (st_locked (m_store m) = true →
     ∃ j pr p, in_window (Worker j) (m_trace m) = true
               ∧ m_pool m !! j = Some (pr, p)
               ∧ ¬ finished p).
Proof.
  intros m.
  pose proof (invariant_run sched _ (invariant_boot cycles w)) as Hinv.
  destruct (poller_lock_free cycles w sched) as [_ Hpw].
  fold m in Hinv, Hpw.
  assert (Hlive : ∀ i pr p, m_pool m !! i = Some (pr, p) →
            in_window (Worker i) (m_trace m) = true → ¬ finished p).
  { intros i pr p Hl Hw.
    destruct (inv_workers _ Hinv _ _ _ Hl) as (Hd & _). rewrite Hw in Hd.
    destruct p; cbn in Hd |- *; [done..|by intros []]. }
  split.
  - intros i pr p Hl Hfin.
    destruct (in_window (Worker i) (m_trace m)) eqn:Hw; [|done].
    by destruct (Hlive _ _ _ Hl Hw).
  - intros Hlocked. apply (inv_lock _ Hinv) in Hlocked as [t Ht].
    destruct t as [|j]; [congruence|].
    destruct (m_pool m !! j) as [[pr p]|] eqn:Hl.
    + exists j, pr, p. split_and!; [done..|]. by eapply Hlive.
    + apply lookup_ge_None in Hl.
      rewrite (inv_unborn _ Hinv j) in Ht by done. done.
Qed.

End Proofs.

(** ** The theorems at work on concrete runs *)

Local Open Scope list_scope.

#[local] Existing Instance demo_host.

(** The local branch is already gone: no warning after the deletion. *)
Lemma local_delete_not_found_silent_witness :
  warnings (events (drop 10 (worker_run branch_gone tt).2)) = [].
Proof.
  pose (res := worker_run branch_gone tt).
  edestruct (@local_delete_not_found_silent demo_host branch_gone pr12
               (idle branch_gone tt) res.1.1 res.1.2 res.2 (take 9 res.2)
               "feature" (failed "error: branch 'feature' not found.")
               (idle branch_gone tt) (drop 10 res.2))
    as (num & title & _ & _ & _ & _ & Hsilent & _).
  - unfold res, worker_run. by destruct (run _ _) as [[??]?].
  - vm_compute. reflexivity.
  - apply Hsilent; [done|]. vm_compute. reflexivity.
Defined.

(** The remote deletion fails: a warning, then the local deletion. *)
Lemma cleanup_steps_independent_witness :
  ∃ line r2 s2 tail,
    drop 9 (worker_run remote_refuses tt).2
    = (EPrint line, idle remote_refuses tt)
      :: (ERun (local_delete "feature") r2, s2) :: tail
    ∧ only_prints tail.
Proof.
  pose (res := worker_run remote_refuses tt).
  destruct (@cleanup_steps_independent demo_host remote_refuses pr12
              (idle remote_refuses tt) res.1.1 res.1.2 res.2) as [Hremote _].
  - unfold res, worker_run. by destruct (run _ _) as [[??]?].
  - destruct (Hremote (take 8 res.2) "feature"
                (failed "remote: permission denied")
                (idle remote_refuses tt) (drop 9 res.2))
      as (r2 & s2 & tail & Hpost & Htail & _).
    + vm_compute. reflexivity.
    + eexists _, r2, s2, tail. split; [exact Hpost|exact Htail].
Defined.

(** The push of main is rejected: the worker returns with the lock
    free and has undone nothing. *)
Lemma push_failure_keeps_merge_witness :
  (worker_run push_rejected tt).1.1 = Returns tt
  ∧ st_locked (worker_run push_rejected tt).1.2 = false
  ∧ Forall harmless (worker_run push_rejected tt).2.
Proof.
  pose (res := worker_run push_rejected tt).
  destruct (@push_failure_keeps_merge demo_host push_rejected pr12
              (idle push_rejected tt) res.1.1 res.1.2 res.2 (take 6 res.2)
              (failed "! [rejected] main")
              (set_locked true (idle push_rejected tt)) (drop 7 res.2))
    as (Ho & _ & Hs & _ & Hh).
  - unfold res, worker_run. by destruct (run _ _) as [[??]?].
  - vm_compute. reflexivity.
  - discriminate.
  - split_and!; [exact Ho| |exact Hh].
    change (st_locked res.1.2 = false). by rewrite Hs.
Defined.

(** A merge fails without any sign of a conflict: no delegate. *)
Lemma merge_failure_classified_witness :
  ¬ Exists (λ e, delegation e.1) (drop 6 (worker_run merge_refused tt).2)
  ∧ (worker_run merge_refused tt).1.1 = Returns tt
  ∧ st_locked (worker_run merge_refused tt).1.2 = false.
Proof.
  pose (res := worker_run merge_refused tt).
  destruct (@merge_failure_classified demo_host merge_refused pr12
              (idle merge_refused tt) res.1.1 res.1.2 res.2 (take 5 res.2)
              ["origin/feature"; "-m"; "Merge PR #12: Add feature"]
              (failed "fatal: refusing to merge unrelated histories")
              (set_locked true (idle merge_refused tt)) (drop 6 res.2))
    as [Hiff Hplain].
  - unfold res, worker_run. by destruct (run _ _) as [[??]?].
  - vm_compute. reflexivity.
  - discriminate.
  - destruct Hplain as (Ho & _ & Hl & _); [vm_compute; reflexivity|].
    split_and!; [|exact Ho|exact Hl].
    intros Hd%Hiff. vm_compute in Hd. discriminate.
Defined.

(** The delegate exits with an error but MERGE_HEAD is gone: resolved. *)
Lemma resolve_judged_by_marker_witness :
  returncode (failed "delegate crashed") ≠ 0%Z
  ∧ (@run delegate_fails_marker_gone _
       (@_resolve_conflict_with_claude demo_host (VInt 12)
          (VStr "Add feature"))
       (idle delegate_fails_marker_gone tt)).1.1 = Returns true.
Proof.
  split; [discriminate|].
  destruct (@resolve_judged_by_marker demo_host delegate_fails_marker_gone
              (VInt 12) (VStr "Add feature")
              (idle delegate_fails_marker_gone tt)
              (failed "delegate crashed") tt)
    as (o & h & Hrun & Ho & _).
  - vm_compute. reflexivity.
  - rewrite Hrun. exact Ho.
Defined.

(** The diff fails: the worker goes on to the lock and the pull. *)
Lemma diff_failure_tolerated_witness :
  ∃ r_pull s_pull rest,
    drop 3 (worker_run diff_broken tt).2
    = (EAcquire, set_locked true (idle diff_broken tt))
      :: (ERun ["git"; "pull"; "--ff-only"; "origin"; "main"] r_pull, s_pull)
      :: rest.
Proof.
  pose (res := worker_run diff_broken tt).
  destruct (@diff_failure_tolerated demo_host diff_broken pr12
              (idle diff_broken tt) res.1.1 res.1.2 res.2 (take 2 res.2)
              ["--stat"; "origin/main...origin/feature"]
              (failed "fatal: bad revision")
              (idle diff_broken tt) (drop 3 res.2))
    as (rest & Hpost & Hrest).
  - unfold res, worker_run. by destruct (run _ _) as [[??]?].
  - vm_compute. reflexivity.
  - reflexivity.
  - change (drop 3 res.2 = rest) in Hpost.
    change (∃ r_pull s_pull rest',
              rest = (EAcquire, set_locked true (idle diff_broken tt))
                     :: (ERun ["git"; "pull"; "--ff-only"; "origin"; "main"]
                              r_pull, s_pull) :: rest') in Hrest.
    destruct Hrest as (r_pull & s_pull & rest' & Hrest).
    exists r_pull, s_pull, rest'. by rewrite <- Hrest.
Defined.

(** Two cycles that both list changes 12 and 14: each listing names
    them once, and each is submitted once, in the first cycle. *)
Lemma dedup_across_listings_witness :
  listings_unique (poller_run (listing "two") tt 2).2
  ∧ submitted_once (poller_run (listing "two") tt 2).2
  ∧ never_resubmitted (poller_run (listing "two") tt 2).2
  ∧ submitted (poller_run (listing "two") tt 2).2
    = [Some (VInt 12); Some (VInt 14)].
Proof.
  pose (res := poller_run (listing "two") tt 2).
  assert (Hu : listings_unique res.2).
  { intros r s_r prs Hin _ Hj.
    assert (Hall : forallb
              (λ e, match e.1 with
                    | ERun _ r0 => String.eqb (stdout r0) "two"
                    | _ => true
                    end) res.2 = true).
    { vm_compute. reflexivity. }
    rewrite forallb_forall in Hall.
    apply list_elem_of_In, Hall in Hin. cbn in Hin.
    apply String.eqb_eq in Hin. rewrite Hin in Hj.
    injection Hj as <-.
    change (NoDup [VInt 12; VInt 14]).
    repeat constructor; set_solver. }
  destruct (@dedup_across_listings demo_host (listing "two") 2
              (idle (listing "two") tt) res.1.1 res.1.2 res.2)
    as (Honce & Hnever & _).
  - unfold res, poller_run. by destruct (run _ _) as [[??]?].
  - exact Hu.
  - split_and!; [exact Hu|exact Honce|exact Hnever|].
    vm_compute. reflexivity.
Defined.

(** GitHub cannot be reached: the registry is kept and the next cycle
    asks again. *)
Lemma list_failure_skips_cycle_witness :
  st_processed (@set_world gh_down tt (idle gh_down tt))
  = st_processed (idle gh_down tt)
  ∧ ∃ r2 s2 rest,
      (@run gh_down _ (@main_loop demo_host 1)
         (@set_world gh_down tt (idle gh_down tt))).2
      = (ERun (@gh_argv demo_host) r2, s2) :: rest.
Proof.
  destruct (@list_failure_skips_cycle demo_host gh_down 1
              (idle gh_down tt)
              (failed "error connecting to api.github.com") tt)
    as (_ & Hsame & Hnext).
  - vm_compute. reflexivity.
  - discriminate.
  - split; [exact Hsame|]. exact (Hnext 0%nat eq_refl).
Defined.

(** Two workers at once: the first is inside its window, the second is
    not and cannot move. *)
Lemma merge_windows_exclusive_witness :
  in_window (Worker 0) (m_trace (pool_run (listing "two") tt 1 two_workers))
  = true
  ∧ in_window (Worker 1)
      (m_trace (pool_run (listing "two") tt 1 two_workers)) = false
  ∧ @step demo_host _ (Worker 1) (pool_run (listing "two") tt 1 two_workers)
    = None.
Proof.
  unfold pool_run.
  assert (Hin : in_window (Worker 0)
            (m_trace (@run_schedule demo_host (listing "two") two_workers
                        (@boot demo_host (listing "two") 1 tt))) = true).
  { vm_compute. reflexivity. }
  split_and!; [exact Hin| |].
  2:{ vm_compute. reflexivity. }
  pose proof (@merge_windows_exclusive demo_host (listing "two") 1 tt
                two_workers) as Hc.
  cbv zeta in Hc. destruct Hc as (Hex & _).
  apply not_true_is_false. intros Hw.
  pose proof (Hex _ [] (Worker 0) (Worker 1) (eq_sym (app_nil_r _))) as Hex'.
  specialize (Hex' Hin).
  specialize (Hex' Hw).
  discriminate Hex'.
Defined.

(** A record without a branch name: its future raises [KeyError], the
    worker leaves no event, and 13 stays registered. *)
Lemma worker_exception_discarded_witness :
  m_pool (pool_run (listing "broken") tt 1 (replicate 9 Poller)) !! 0%nat
  = Some (pr13_no_branch, Raise (KeyError "headRefName"))
  ∧ events_of (Worker 0)
      (m_trace (@run_schedule demo_host (listing "broken")
                  [Worker 0; Poller; Worker 0]
                  (pool_run (listing "broken") tt 1 (replicate 9 Poller))))
    = []
  ∧ VInt 13 ∈ st_processed
      (m_store (@run_schedule demo_host (listing "broken")
                  [Worker 0; Poller; Worker 0]
                  (pool_run (listing "broken") tt 1 (replicate 9 Poller)))).
Proof.
  unfold pool_run.
  assert (Hl : m_pool (@run_schedule demo_host (listing "broken")
                         (replicate 9 Poller)
                         (@boot demo_host (listing "broken") 1 tt)) !! 0%nat
               = Some (pr13_no_branch, Raise (KeyError "headRefName"))).
  { vm_compute. reflexivity. }
  pose proof (@worker_exception_discarded demo_host (listing "broken") 1 tt
                (replicate 9 Poller) [Worker 0; Poller; Worker 0] 0%nat
                pr13_no_branch (KeyError "headRefName") Hl) as Hc.
  cbv zeta in Hc. destruct Hc as (_ & _ & Hev & (num & Hn & _ & Hin) & _).
  split_and!; [exact Hl| |].
  - rewrite Hev. vm_compute. reflexivity.
  - assert (num = VInt 13) as <-; [|exact Hin].
    vm_compute in Hn. by injection Hn.
Defined.

(** The hypothesis of C2 is needed.  Were [gh] to name one change two
    times in one listing, both entries would pass the filter before
    either is registered: change 12 is submitted, is in [processed], and
    is submitted again. *)
Lemma duplicate_in_listing_submitted_twice :
  ¬ listings_unique (poller_run (listing "twice") tt 1).2
  ∧ ¬ never_resubmitted (poller_run (listing "twice") tt 1).2.
Proof.
  split.
  - intros Hu.
    specialize (Hu (mkCompleted 0 "twice" "") (idle (listing "twice") tt)
                  [pr12; pr12]).
    apply NoDup_cons in Hu as [Hnot _].
    + apply Hnot. set_solver.
    + apply (list_elem_of_lookup_2 _ 5). vm_compute. reflexivity.
    + reflexivity.
    + reflexivity.
  - intros Hnever.
    apply (Hnever (take 9 (poller_run (listing "twice") tt 1).2) pr12
             (add_processed (VInt 12) (idle (listing "twice") tt))
             (take 2 (drop 10 (poller_run (listing "twice") tt 1).2)) pr12
             (add_processed (VInt 12)
                (add_processed (VInt 12) (idle (listing "twice") tt)))
             (drop 13 (poller_run (listing "twice") tt 1).2) (VInt 12)).
    + vm_compute. reflexivity.
    + vm_compute. reflexivity.
    + cbn. set_solver.
    + vm_compute. reflexivity.
Qed.

(** C8 as stated fails where it says that the failure is logged.  The
    diff exits with status 1 and an error message, and the console shows
    the start line and the completion line alone: the event after the
    diff is the acquisition of the lock. *)
Lemma diff_failure_not_logged :
  decodes (failed "fatal: bad revision") = true
  ∧ returncode (failed "fatal: bad revision") ≠ 0%Z
  ∧ (∃ pre post,
     (worker_run diff_broken tt).2
     = pre
       ++ (ERun ["git"; "diff"; "--stat"; "origin/main...origin/feature"]
                (failed "fatal: bad revision"), idle diff_broken tt)
       :: (EAcquire, set_locked true (idle diff_broken tt)) :: post)
  ∧ printed (events (worker_run diff_broken tt).2)
    = ["[INFO] PR #12 処理開始: Add feature";
       "[INFO] PR #12 マージ完了: Add feature"].
Proof.
  split_and!; [reflexivity|discriminate| |].
  - exists (take 2 (worker_run diff_broken tt).2),
           (drop 4 (worker_run diff_broken tt).2).
    vm_compute. reflexivity.
  - vm_compute. reflexivity.
Qed.

(** ** More concrete runs *)

(** A branch name that is a number: the start line, then [TypeError]. *)
Lemma malformed_record_raises_witness :
  worker_run_of all_fine tt pr15_int_branch
  = (Raises TypeError, idle all_fine tt,
     [(EPrint "[INFO] PR #15 処理開始: Odd", idle all_fine tt)]).
Proof.
  apply (@malformed_record_raises demo_host all_fine pr15_int_branch
           (idle all_fine tt) TypeError).
  reflexivity.
Defined.

(** The branch cannot be fetched: three events, and the worker returns. *)
Lemma fetch_failure_stops_worker_witness :
  (worker_run fetch_fails tt).1.1 = Returns tt
  ∧ length (worker_run fetch_fails tt).2 = 3%nat.
Proof.
  pose (res := worker_run fetch_fails tt).
  destruct (@fetch_failure_stops_worker demo_host fetch_fails pr12
              (idle fetch_fails tt) res.1.1 res.1.2 res.2 (take 1 res.2)
              ["origin"; "feature"]
              (failed "fatal: couldn't find remote ref feature")
              (idle fetch_fails tt) (drop 2 res.2))
    as (Ho & _ & _ & _).
  - unfold res, worker_run. by destruct (run _ _) as [[??]?].
  - vm_compute. reflexivity.
  - discriminate.
  - split; [exact Ho|]. vm_compute. reflexivity.
Defined.

(** Main cannot be fast-forwarded: the worker returns with the lock
    free, and the release is the last event. *)
Lemma pull_failure_releases_witness :
  (worker_run pull_fails tt).1.1 = Returns tt
  ∧ st_locked (worker_run pull_fails tt).1.2 = false
  ∧ ∃ line, drop 5 (worker_run pull_fails tt).2
            = [(EPrint line, set_locked true (idle pull_fails tt));
               (ERelease, set_locked false
                            (set_locked true (idle pull_fails tt)))].
Proof.
  pose (res := worker_run pull_fails tt).
  destruct (@pull_failure_releases demo_host pull_fails pr12
              (idle pull_fails tt) res.1.1 res.1.2 res.2 (take 4 res.2)
              (failed "fatal: Not possible to fast-forward, aborting.")
              (set_locked true (idle pull_fails tt)) (drop 5 res.2))
    as (Ho & Hpost & Hs & _).
  - unfold res, worker_run. by destruct (run _ _) as [[??]?].
  - vm_compute. reflexivity.
  - discriminate.
  - split_and!; [exact Ho| |].
    + change (st_locked res.1.2 = false). by rewrite Hs.
    + eexists. exact Hpost.
Defined.

(** The delegate leaves [MERGE_HEAD] behind: abort, release, return. *)
Lemma conflict_resolution_outcome_witness :
  (worker_run conflict_stays tt).1.1 = Returns tt
  ∧ ∃ r_a s_a, drop 10 (worker_run conflict_stays tt).2
               = [(ERun ["git"; "merge"; "--abort"] r_a, s_a);
                  (ERelease, set_locked false s_a)].
Proof.
  pose (res := worker_run conflict_stays tt).
  destruct (@conflict_resolution_outcome demo_host conflict_stays pr12
              (idle conflict_stays tt) res.1.1 res.1.2 res.2 (take 7 res.2)
              (@CONFLICT_RESOLVE_PROMPT "12" "Add feature" "/srv/repo")
              ok (set_locked true (idle conflict_stays tt)) (drop 8 res.2))
    as (rest & Hpost & Hcase).
  - unfold res, worker_run. by destruct (run _ _) as [[??]?].
  - vm_compute. reflexivity.
  - change (path_exists MERGE_HEAD
              (st_world (set_locked true (idle conflict_stays tt))))
      with true in Hcase, Hpost.
    destruct Hcase as (Ho & r_a & s_a & Hrest & _).
    split; [exact Ho|]. exists r_a, s_a.
    assert (Hd : drop 10 (worker_run conflict_stays tt).2
                 = drop 2 (drop 8 res.2)).
    { vm_compute. reflexivity. }
    rewrite Hd, Hpost, Hrest. reflexivity.
Defined.

(** Every command succeeds: release, the two deletions, the completion
    line. *)
Lemma push_success_completes_witness :
  (worker_run all_fine tt).1.1 = Returns tt
  ∧ ∃ line, drop 7 (worker_run all_fine tt).2
            = [(ERelease, idle all_fine tt);
               (ERun (remote_delete "feature") ok, idle all_fine tt);
               (ERun (local_delete "feature") ok, idle all_fine tt);
               (EPrint line, idle all_fine tt)].
Proof.
  pose (res := worker_run all_fine tt).
  destruct (@push_success_completes demo_host all_fine pr12
              (idle all_fine tt) res.1.1 res.1.2 res.2 (take 6 res.2)
              ok (set_locked true (idle all_fine tt)) (drop 7 res.2))
    as (num & title & b & r_d & s_d & r_l & s_l & _ & _ & _ & _ & Ho & _).
  - unfold res, worker_run. by destruct (run _ _) as [[??]?].
  - vm_compute. reflexivity.
  - reflexivity.
  - split; [exact Ho|]. eexists. vm_compute. reflexivity.
Defined.

(** Every command succeeds: the push of main comes right after the
    merge, the remote deletion right after the push and the release. *)
Lemma publish_only_after_merge_witness :
  (∃ args r_m s_m,
     [(ERun ("git" :: "merge" :: "--no-ff" :: args) r_m, s_m)]
       `suffix_of` take 6 (worker_run all_fine tt).2
     ∧ returncode r_m = 0%Z)
  ∧ ∃ r_p s_p,
      [(ERun ["git"; "push"; "origin"; "main"] r_p, s_p);
       (ERelease, set_locked false s_p)]
        `suffix_of` take 8 (worker_run all_fine tt).2
      ∧ returncode r_p = 0%Z.
Proof.
  pose (res := worker_run all_fine tt).
  destruct (@publish_only_after_merge demo_host all_fine pr12
              (idle all_fine tt) res.1.1 res.1.2 res.2) as [Hpush Hdel].
  - unfold res, worker_run. by destruct (run _ _) as [[??]?].
  - split.
    + destruct (Hpush (take 6 res.2) ok (set_locked true (idle all_fine tt))
                  (drop 7 res.2)) as [Hm|(s_x & Hs & _)].
      * vm_compute. reflexivity.
      * exact Hm.
      * exfalso. destruct Hs as [k Hk]. apply (f_equal reverse) in Hk.
        rewrite reverse_app in Hk. vm_compute in Hk. discriminate Hk.
    + apply (Hdel (take 8 res.2) "feature" ok (idle all_fine tt)
               (drop 9 res.2)).
      vm_compute. reflexivity.
Defined.

(** Every command succeeds: the push follows the merge at once. *)
Lemma merge_success_pushes_witness :
  ∃ r_p s_p post',
    drop 6 (worker_run all_fine tt).2
    = (ERun ["git"; "push"; "origin"; "main"] r_p, s_p) :: post'
    ∧ st_locked s_p = true.
Proof.
  pose (res := worker_run all_fine tt).
  destruct (@merge_success_pushes demo_host all_fine pr12
              (idle all_fine tt) res.1.1 res.1.2 res.2 (take 5 res.2)
              ["origin/feature"; "-m"; "Merge PR #12: Add feature"]
              ok (set_locked true (idle all_fine tt)) (drop 6 res.2))
    as (r_p & s_p & post' & Hpost & Hl).
  - unfold res, worker_run. by destruct (run _ _) as [[??]?].
  - vm_compute. reflexivity.
  - reflexivity.
  - exists r_p, s_p, post'. split; [exact Hpost|exact Hl].
Defined.

(** A listing of changes 12 and 14 against an empty registry: both are
    queued, and both numbers are registered after the turn. *)
Lemma poll_cycle_submits_unregistered_witness :
  ∃ (s1 : @store (listing "two")) (h1 : list (event * @store (listing "two"))),
    events h1
    = cycle_events (mkCompleted 0 "two" "") ∅ [pr12; pr14] [pr12; pr14]
    ∧ st_processed s1 = {[VInt 12; VInt 14]}.
Proof.
  destruct (@poll_cycle_submits_unregistered demo_host (listing "two") 0
              (idle (listing "two") tt) (mkCompleted 0 "two" "") tt
              [pr12; pr14])
    as (new & s1 & h1 & Hnew & _ & Hev & Hp & _).
  - reflexivity.
  - reflexivity.
  - reflexivity.
  - repeat constructor; eexists; reflexivity.
  - assert (Hsel : new = [pr12; pr14]).
    { rewrite Hnew. reflexivity. }
    rewrite Hsel in Hev, Hp. exists s1, h1. split; [exact Hev|].
    rewrite Hp. cbn. set_solver.
Defined.

(** [gh] prints a page of HTML: the loop ends with the decoding error
    after the listing alone. *)
Lemma listing_decode_failure_stops_poller_witness :
  strict_loop_run (listing "<html>") tt 3
  = (Raises JSONDecodeError, idle (listing "<html>") tt,
     [(ERun (@gh_argv strict_host) (mkCompleted 0 "<html>" ""),
       idle (listing "<html>") tt)]).
Proof.
  apply (@listing_decode_failure_stops_poller strict_host (listing "<html>")
           2 (idle (listing "<html>") tt) (mkCompleted 0 "<html>" "") tt).
  - reflexivity.
  - reflexivity.
  - reflexivity.
Defined.

(** The second record of the listing has no number: change 12, listed
    first, is not submitted either. *)
Lemma record_without_number_stops_poller_witness :
  (strict_loop_run (listing "nameless") tt 1).1.1
  = Raises (KeyError "number")
  ∧ st_processed (strict_loop_run (listing "nameless") tt 1).1.2 = ∅
  ∧ Forall (λ e, ¬ is_submit e) (strict_loop_run (listing "nameless") tt 1).2.
Proof.
  destruct (@record_without_number_stops_poller strict_host
              (listing "nameless") 0 (idle (listing "nameless") tt)
              (mkCompleted 0 "nameless" "") tt [pr12; pr_no_number])
    as (h & Hrun & Hall).
  - reflexivity.
  - reflexivity.
  - reflexivity.
  - apply Exists_cons_tl, Exists_cons_hd. reflexivity.
  - unfold strict_loop_run. rewrite Hrun. split_and!; [done..|].
    constructor; [intros [? [=]]|].
    eapply Forall_impl; [exact Hall|].
    intros e (v & b & He) [pr Hpr]. congruence.
Defined.

(** Changes 12, 16 and 14 are new and 16 has no title: 12 is queued, 16
    is registered and submitted, 14 is not. *)
Lemma record_without_title_stops_poller_witness :
  ∃ s' h,
    strict_loop_run (listing "untitled") tt 1
    = (Raises (KeyError "title"), s', h)
    ∧ st_processed s' = {[VInt 12; VInt 16]}
    ∧ drop 4 (events h)
      = queued pr12 ++ [EAdd (VInt 16); ESubmit pr16_no_title].
Proof.
  destruct (@record_without_title_stops_poller strict_host
              (listing "untitled") 0 (idle (listing "untitled") tt)
              (mkCompleted 0 "untitled" "") tt [pr12; pr16_no_title; pr14]
              [pr12] pr16_no_title [pr14])
    as (s' & h & Hrun & Hev & Hp).
  - reflexivity.
  - reflexivity.
  - reflexivity.
  - repeat constructor; eexists; reflexivity.
  - reflexivity.
  - repeat constructor; eexists; reflexivity.
  - reflexivity.
  - exists s', h. split_and!; [exact Hrun| |].
    + rewrite Hp. cbn. set_solver.
    + rewrite Hev. reflexivity.
Defined.

(** Two turns: the second listing comes right after the sleep of the
    first. *)
Lemma listing_follows_sleep_witness :
  ∃ pre' s_z,
    take 11 (poller_run (listing "") tt 2).2
    = pre' ++ [(ESleep POLL_INTERVAL_SEC, s_z)].
Proof.
  pose (res := poller_run (listing "") tt 2).
  destruct (@listing_follows_sleep demo_host (listing "") 2
              (idle (listing "") tt) res.1.1 res.1.2 res.2 (take 11 res.2)
              ok (add_processed (VInt 12) (idle (listing "") tt))
              (drop 12 res.2)) as [Hbanner|Hsleep].
  - unfold res, poller_run. by destruct (run _ _) as [[??]?].
  - reflexivity.
  - exfalso. apply (f_equal length) in Hbanner. vm_compute in Hbanner.
    discriminate Hbanner.
  - exact Hsleep.
Defined.


(** While the first worker holds the lock the poller, in the middle of
    its turn, is outside every window and can go on. *)
Lemma poller_never_waits_witness :
  in_window Poller (m_trace (pool_run (listing "two") tt 1 two_workers))
  = false
  ∧ is_Some (@step demo_host _ Poller
               (pool_run (listing "two") tt 1 two_workers)).
Proof.
  unfold pool_run.
  pose proof (@poller_never_waits demo_host (listing "two") 1 tt two_workers)
    as Hc.
  cbv zeta in Hc. destruct Hc as [Hw [Hf|Hs]].
  - exfalso. vm_compute in Hf. exact Hf.
  - split; [exact Hw|exact Hs].
Defined.

(** Two workers at the lock: the first holds it and has not ended. *)
Lemma lock_never_left_behind_witness :
  ∃ j pr p,
    in_window (Worker j)
      (m_trace (pool_run (listing "two") tt 1 two_workers)) = true
    ∧ m_pool (pool_run (listing "two") tt 1 two_workers) !! j = Some (pr, p)
    ∧ ¬ finished p.
Proof.
  unfold pool_run.
  pose proof (@lock_never_left_behind demo_host (listing "two") 1 tt
                two_workers) as Hc.
  cbv zeta in Hc. destruct Hc as [_ Hheld].
  apply Hheld. vm_compute. reflexivity.
Defined.
